(** * dotfile-value-toggle: parser, cycle resolver, toggle service, file cache

    A shallow embedding of the TypeScript sources

    - [src/config/settings.ts]      ([findToggleValues], [getNextValue]),
    - [src/parser/dotFileParser.ts] ([parseLine], [parseFile], [parseAllFiles]),
    - [src/services/toggleService.ts] ([toggle], [toggleEntry], [toggleSilent]),
    - [src/services/fileWatcherService.ts] ([refresh], [updateFile], the
      watcher handlers, [getParsedFile], [getOrParseFile], [isWatchedFile]),
    - [src/services/gitignoreService.ts] ([addToGitignore]),
    - [src/providers] (the next value announced by [createQuickPickItem],
      [createCodeLens] and the hover of the decorations),

    together with the properties the specification states about them, and
    further properties read off the code.

    JavaScript strings are modelled as lists of code units.  The model keeps
    the code units below 256 (Latin-1), for which the white space class, the
    line terminators and [toLowerCase] are written out exactly.  A JavaScript
    [number] used as an index or a line number is a [Z], so that the [-1] of
    [indexOf] is the one of the source. *)

From Stdlib Require Import Ascii String ZArith Lia DecimalString.
From Stdlib Require Import Sorted.
From stdpp Require Import gmap strings list.

(** ** String literals for code-unit lists *)

Abbreviation jsstring := (list ascii) (only parsing).

Inductive jsliteral := JsNil | JsCons (c : ascii) (s : jsliteral).

Fixpoint jsliteral_of_bytes (l : list Byte.byte) : jsliteral :=
  match l with
  | [] => JsNil
  | b :: r => JsCons (ascii_of_byte b) (jsliteral_of_bytes r)
  end.

Fixpoint bytes_of_jsliteral (l : jsliteral) : list Byte.byte :=
  match l with
  | JsNil => []
  | JsCons c r => byte_of_ascii c :: bytes_of_jsliteral r
  end.

Declare Scope js_scope.
Delimit Scope js_scope with js.
#[warning="-via-type-mismatch"]
String Notation list jsliteral_of_bytes bytes_of_jsliteral
  (via jsliteral mapping [[nil] => JsNil, [cons] => JsCons]) : js_scope.
Local Open Scope js_scope.

(** The two quote characters, the carriage return, the line feed and the
    equals sign. *)
Definition EQUALS : ascii := "="%char.
Definition DQ : ascii := ascii_of_nat 34.
Definition SQ : ascii := ascii_of_nat 39.
Definition CR : ascii := ascii_of_nat 13.
Definition LF : ascii := ascii_of_nat 10.

(** ** Regular expressions

    The expressions of the sources, as syntax, and the backtracking matcher
    of ECMAScript for them: alternatives are tried left to right, a
    repetition takes as many rounds as it can and gives them back one by one
    when what follows fails, and a round that consumes nothing is refused. *)

Module RegExp.

Inductive regex : Type :=
| Empty
| Class (p : ascii -> bool)
| Start
| Finish
| Seq (r1 r2 : regex)
| Alt (r1 r2 : regex)
| Star (r : regex)
| Group (n : nat) (r : regex).

(** [r?], [r+], one character, a literal text. *)
Definition Opt (r : regex) : regex := Alt r Empty.

Definition Plus (r : regex) : regex := Seq r (Star r).

Definition Char (c : ascii) : regex := Class (fun a => bool_decide (a = c)).

Fixpoint Lit (s : jsstring) : regex :=
  match s with
  | [] => Empty
  | c :: s' => Seq (Char c) (Lit s')
  end.

(** The spans of the capturing groups closed so far, the latest first. *)
Definition captures : Type := list (nat * (nat * nat)).

Definition outcome : Type := option (nat * captures).

(** The rounds of a repetition: [step] matches its body once. *)
Fixpoint iterate
    (step : nat -> captures -> (nat -> captures -> outcome) -> outcome)
    (k : nat -> captures -> outcome) (fuel : nat) (i : nat) (c : captures)
  : outcome :=
  match fuel with
  | 0 => k i c
  | S fuel' =>
      match step i c
              (fun j c' => if i <? j then iterate step k fuel' j c' else None) with
      | Some m => Some m
      | None => k i c
      end
  end.

(** [matchAt r s i c k]: match [r] in [s] from offset [i] with the captures
    [c], then go on with [k] from the offset reached; [None] when every way
    of matching [r] makes [k] fail. *)
Fixpoint matchAt (r : regex) (s : jsstring) (i : nat) (c : captures)
    (k : nat -> captures -> outcome) {struct r} : outcome :=
  match r with
  | Empty => k i c
  | Class p =>
      match s !! i with
      | Some a => if p a then k (S i) c else None
      | None => None
      end
  | Start => if i =? 0 then k i c else None
  | Finish => if i =? length s then k i c else None
  | Seq r1 r2 => matchAt r1 s i c (fun j c' => matchAt r2 s j c' k)
  | Alt r1 r2 =>
      match matchAt r1 s i c k with
      | Some m => Some m
      | None => matchAt r2 s i c k
      end
  | Star r1 =>
      iterate (fun j c' k' => matchAt r1 s j c' k') k (length s - i) i c
  | Group n r1 => matchAt r1 s i c (fun j c' => k j ((n, (i, j)) :: c'))
  end.

Definition accept : nat -> captures -> outcome := fun j c => Some (j, c).

(** [exec]: the first offset from which the expression matches, the offset
    the match reaches, and the captures. *)
Fixpoint execFrom (r : regex) (s : jsstring) (i fuel : nat)
  : option (nat * nat * captures) :=
  match matchAt r s i [] accept with
  | Some (j, c) => Some (i, j, c)
  | None =>
      match fuel with
      | 0 => None
      | S fuel' => execFrom r s (S i) fuel'
      end
  end.

Definition exec (r : regex) (s : jsstring) : option (nat * nat * captures) :=
  execFrom r s 0 (length s).

(** The text of the [n]-th group. *)
Definition group (s : jsstring) (c : captures) (n : nat) : jsstring :=
  match list_find (fun e => e.1 = n) c with
  | Some (_, (_, (i, j))) => take (j - i) (drop i s)
  | None => []
  end.

(** [s.replace(r, '')] for an expression with the global flag: every match
    is deleted; after an empty match, and where nothing matches, one
    character is kept and the search moves on by one. *)
Fixpoint deleteFrom (r : regex) (s : jsstring) (i fuel : nat) : jsstring :=
  match fuel with
  | 0 => []
  | S fuel' =>
      match matchAt r s i [] accept with
      | Some (j, _) =>
          if i <? j then deleteFrom r s j fuel'
          else option_list (s !! i) ++ deleteFrom r s (S i) fuel'
      | None => option_list (s !! i) ++ deleteFrom r s (S i) fuel'
      end
  end.

Definition deleteAll (r : regex) (s : jsstring) : jsstring :=
  deleteFrom r s 0 (S (length s)).

End RegExp.

(** ** The JavaScript string and array methods the sources call *)

Module JS.

(** [WhiteSpace] and [LineTerminator] of ECMAScript, below 256: TAB, LF,
    VT, FF, CR, SP and NBSP.  [trim], [trimStart] and the regular
    expression class [\s] all use this set. *)
Definition isWhiteSpace (c : ascii) : bool :=
  let n := nat_of_ascii c in
  ((9 <=? n) && (n <=? 13)) || (n =? 32) || (n =? 160).

Fixpoint trimStart (s : jsstring) : jsstring :=
  match s with
  | c :: r => if isWhiteSpace c then trimStart r else s
  | [] => []
  end.

Definition trimEnd (s : jsstring) : jsstring := rev (trimStart (rev s)).

Definition trim (s : jsstring) : jsstring := trimEnd (trimStart s).

Fixpoint startsWith (p s : jsstring) : bool :=
  match p, s with
  | [], _ => true
  | a :: p', b :: s' => bool_decide (a = b) && startsWith p' s'
  | _ :: _, [] => false
  end.

Definition endsWith (p s : jsstring) : bool := startsWith (rev p) (rev s).

(** [toLowerCase] on Latin-1: A-Z, and the accented capitals 192-222
    except the multiplication sign 215, move up by 32. *)
Definition lowerChar (c : ascii) : ascii :=
  let n := nat_of_ascii c in
  if ((65 <=? n) && (n <=? 90))
     || ((192 <=? n) && (n <=? 222) && negb (n =? 215))
  then ascii_of_nat (n + 32) else c.

Definition toLowerCase (s : jsstring) : jsstring := map lowerChar s.

(** The global replace of the carriage return by the empty string. *)
Definition removeCR (s : jsstring) : jsstring :=
  RegExp.deleteAll (RegExp.Char CR) s.

(** The global replace by the empty string of the expression with two
    alternatives: a quote character (double or single) at the start, or a
    quote character at the end. *)
Definition isQuote (c : ascii) : bool :=
  bool_decide (c = DQ) || bool_decide (c = SQ).

Definition EDGE_QUOTES : RegExp.regex :=
  RegExp.Alt (RegExp.Seq RegExp.Start (RegExp.Class isQuote))
             (RegExp.Seq (RegExp.Class isQuote) RegExp.Finish).

Definition stripQuotes (s : jsstring) : jsstring :=
  RegExp.deleteAll EDGE_QUOTES s.

(** What the two alternatives come to: the first deletes a quote character
    at offset 0; the second deletes a quote character that is the last one,
    when the first alternative has not consumed it already.  The two are
    independent: neither asks for the other, nor for the same kind of
    quote. *)
Definition dropLeadingQuote (s : jsstring) : jsstring :=
  match s with
  | c :: r => if isQuote c then r else s
  | [] => []
  end.

Definition dropTrailingQuote (s : jsstring) : jsstring :=
  match rev s with
  | c :: r => if isQuote c then rev r else s
  | [] => []
  end.

(** [Array.prototype.includes] and [Array.prototype.indexOf] on arrays of
    strings. *)
Definition includes (x : jsstring) (l : list jsstring) : bool :=
  bool_decide (x ∈ l).

Fixpoint arrayIndexOfFrom (x : jsstring) (l : list jsstring) (i : Z) : Z :=
  match l with
  | [] => (-1)%Z
  | y :: r => if bool_decide (y = x) then i else arrayIndexOfFrom x r (i + 1)%Z
  end.

Definition arrayIndexOf (x : jsstring) (l : list jsstring) : Z :=
  arrayIndexOfFrom x l 0%Z.

(** [l[i]]; [None] stands for [undefined]. *)
Definition arrayGet {A} (l : list A) (i : Z) : option A :=
  if (i <? 0)%Z then None else l !! Z.to_nat i.

(** [String.prototype.indexOf(needle, from)]: the first offset at or after
    [from] where [needle] occurs, [-1] when there is none. *)
Fixpoint searchFrom (needle hay : jsstring) (pos : nat) : option nat :=
  if startsWith needle hay then Some pos
  else match hay with
       | [] => None
       | _ :: r => searchFrom needle r (S pos)
       end.

Definition indexOf (needle hay : jsstring) (from : Z) : Z :=
  let k := Nat.min (Z.to_nat from) (length hay) in
  match searchFrom needle (drop k hay) k with
  | Some p => Z.of_nat p
  | None => (-1)%Z
  end.

(** [s.substring(from)] and [s.substring(from, to)] for [from <= to]. *)
Definition substringFrom (s : jsstring) (from : Z) : jsstring :=
  drop (Z.to_nat from) s.

Definition substring (s : jsstring) (from to : Z) : jsstring :=
  take (Z.to_nat to - Z.to_nat from) (drop (Z.to_nat from) s).

(** [split] on the line feed. *)
Fixpoint splitLines (s : jsstring) : list jsstring :=
  match s with
  | [] => [[]]
  | c :: r =>
      if bool_decide (c = LF) then [] :: splitLines r
      else match splitLines r with
           | l :: ls => (c :: l) :: ls
           | [] => [[c]]
           end
  end.

(** Numbers.  A number of the sources that counts lines is an integer that
    a double holds.  [toNumber z] is the double nearest to the integer [z]
    (53 bits of significand, ties to the even significand), for [z] below
    the largest double; the sum of two numbers is the double nearest to the
    exact sum. *)
Definition toNumber (z : Z) : Z :=
  let a := Z.abs z in
  let excess := (Z.log2 a + 1 - 53)%Z in
  if (excess <=? 0)%Z then z
  else
    let q := Z.shiftr a excess in
    let r := (a - Z.shiftl q excess)%Z in
    let half := Z.shiftl 1 (excess - 1) in
    let q' := if (r <? half)%Z then q
              else if (half <? r)%Z then (q + 1)%Z
              else if Z.even q then q else (q + 1)%Z in
    (Z.sgn z * Z.shiftl q' excess)%Z.

Definition plus (a b : Z) : Z := toNumber (a + b).

(** The decimal digits of a natural number. *)
Definition digits (n : Z) : jsstring :=
  list_ascii_of_string (NilZero.string_of_int (Z.to_int n)).

(** [Number::toString] for a positive integer [x]: the digits [s], their
    number [k] and the exponent [n] are such that [s] times ten to the
    [n - k] is read back as [x], with [k] as small as possible and, for
    that [k], the value nearest to [x] (the even [s] on a tie).
    [candidate] tests one choice and returns it with its distance to [x]. *)
Definition candidate (x k n s : Z) : option (Z * (Z * Z)) :=
  let p := (10 ^ (n - k))%Z in
  if (k <=? n)%Z && (10 ^ (k - 1) <=? s)%Z && (s <? 10 ^ k)%Z
     && (toNumber (s * p) =? x)%Z
  then Some (Z.abs (s * p - x), (s, n)) else None.

Definition closer (a b : option (Z * (Z * Z))) : option (Z * (Z * Z)) :=
  match a, b with
  | Some (da, (sa, _)), Some (db, _) =>
      if (da <? db)%Z then a
      else if (db <? da)%Z then b
      else if Z.even sa then a else b
  | Some _, None => a
  | None, _ => b
  end.

Definition shortest (x k : Z) : option (Z * (Z * Z)) :=
  let d := Z.of_nat (length (digits x)) in
  let among (n : Z) :=
    let s := (x / 10 ^ (n - k))%Z in
    closer (candidate x k n s) (candidate x k n (s + 1)) in
  closer (among d) (among (d + 1)%Z).

Fixpoint search (x k : Z) (fuel : nat) : Z * Z * Z :=
  match fuel with
  | 0 => let d := Z.of_nat (length (digits x)) in (x, d, d)
  | S fuel' =>
      match shortest x k with
      | Some (_, (s, n)) => (s, n, k)
      | None => search x (k + 1)%Z fuel'
      end
  end.

(** The text of an integer number, as a template literal prints it: the
    digits followed by zeros up to twenty-one digits, the exponent form
    beyond. *)
Definition numberToString (x : Z) : jsstring :=
  if (x =? 0)%Z then "0"
  else
    let '(s, n, k) := search (Z.abs x) 1 17 in
    let ds := digits s in
    let body :=
      if (n <=? 21)%Z then ds ++ replicate (Z.to_nat (n - k)) "0"%char
      else
        let e := digits (n - 1) in
        match ds with
        | [d] => d :: "e+" ++ e
        | d :: rest => d :: "." ++ rest ++ "e+" ++ e
        | [] => []
        end in
    if (x <? 0)%Z then "-" ++ body else body.

End JS.

(** ** src/config/settings.ts *)

(** The configuration record of [getConfig].  The host's settings store is
    the source of these values; the functions below take them as data. *)
Record DotfileToggleConfig := {
  cfgFilePatterns : list jsstring;
  cfgToggleValues : list (list jsstring);
  cfgShowGitignoreWarning : bool;
  cfgShowOnlyToggleable : bool
}.

(** The defaults [getConfig] falls back to. *)
Definition defaultToggleValues : list (list jsstring) :=
  [ ["true"; "false"]; ["TRUE"; "FALSE"]; ["yes"; "no"]; ["YES"; "NO"];
    ["1"; "0"]; ["on"; "off"]; ["ON"; "OFF"]; ["enabled"; "disabled"];
    ["ENABLED"; "DISABLED"]; ["production"; "development"]; ["prod"; "dev"] ].

Definition defaultConfig : DotfileToggleConfig :=
  {| cfgFilePatterns := ["**/.env*"; "**/.flags"; "**/.config"];
     cfgToggleValues := defaultToggleValues;
     cfgShowGitignoreWarning := true;
     cfgShowOnlyToggleable := true |}.

(** The loop of [findToggleValues] over the groups, in table order. *)
Fixpoint findGroup (unquotedValue : jsstring) (groups : list (list jsstring))
  : option (list jsstring) :=
  match groups with
  | [] => None
  | group :: rest =>
      if JS.includes unquotedValue group then Some group
      else
        let lowerValue := JS.toLowerCase unquotedValue in
        let lowerGroup := map JS.toLowerCase group in
        if JS.includes lowerValue lowerGroup then Some group
        else findGroup unquotedValue rest
  end.

(** The value as [findToggleValues] compares it: trimmed, carriage returns
    deleted, edge quotes deleted. *)
Definition unquotedValueOf (value : jsstring) : jsstring :=
  let trimmedValue := JS.removeCR (JS.trim value) in
  JS.stripQuotes trimmedValue.

Definition findToggleValues (value : jsstring) (groups : list (list jsstring))
  : option (list jsstring) :=
  let unquotedValue := unquotedValueOf value in
  if bool_decide (unquotedValue = []) then None
  else findGroup unquotedValue groups.

Definition getNextValue (value : jsstring) (group : list jsstring) : jsstring :=
  let trimmedValue := JS.trim value in
  let hasDoubleQuotes :=
    JS.startsWith [DQ] trimmedValue && JS.endsWith [DQ] trimmedValue in
  let hasSingleQuotes :=
    JS.startsWith [SQ] trimmedValue && JS.endsWith [SQ] trimmedValue in
  let unquotedValue := JS.stripQuotes trimmedValue in
  let currentIndex := JS.arrayIndexOf unquotedValue group in
  if (currentIndex =? -1)%Z then value
  else
    let nextIndex := Z.rem (currentIndex + 1) (Z.of_nat (length group)) in
    let newValue := default "undefined" (JS.arrayGet group nextIndex) in
    if hasDoubleQuotes then DQ :: newValue ++ [DQ]
    else if hasSingleQuotes then SQ :: newValue ++ [SQ]
    else newValue.

(** ** src/types.ts *)

Record DotFileEntry := {
  key : jsstring;
  value : jsstring;
  line : Z;
  valueStart : Z;
  valueEnd : Z;
  isToggleable : bool;
  toggleValues : option (list jsstring);
  rawLine : jsstring
}.

Record ParsedDotFile := {
  uri : jsstring;
  relativePath : jsstring;
  entries : list DotFileEntry;
  toggleableEntries : list DotFileEntry
}.

Record ToggleResult := {
  success : bool;
  newValue : option jsstring;
  error : option jsstring;
  wasGitignoreWarningShown : option bool
}.

(** ** src/parser/dotFileParser.ts *)

(** The character classes of [KEY_VALUE_REGEX], and the expression read as
    a deterministic scanner: each greedy repetition is followed by a token
    that none of the characters it repeats can start, so the longest
    repetition is the only one that can lead to a match; the one choice that
    is revisited is the optional group. *)
Module Regex.

Fixpoint takeWhile (p : ascii -> bool) (s : jsstring) : jsstring :=
  match s with
  | c :: r => if p c then c :: takeWhile p r else []
  | [] => []
  end.

Fixpoint dropWhile (p : ascii -> bool) (s : jsstring) : jsstring :=
  match s with
  | c :: r => if p c then dropWhile p r else s
  | [] => []
  end.

Definition inRange (lo hi : nat) (c : ascii) : bool :=
  (lo <=? nat_of_ascii c) && (nat_of_ascii c <=? hi).

(** [[A-Za-z_]] *)
Definition isKeyStart (c : ascii) : bool :=
  inRange 65 90 c || inRange 97 122 c || bool_decide (c = "_"%char).

(** [[A-Za-z0-9_.-]] *)
Definition isKeyChar (c : ascii) : bool :=
  isKeyStart c || inRange 48 57 c
  || bool_decide (c = "."%char) || bool_decide (c = "-"%char).

(** The dot matches everything but a line terminator.  Of the four line
    terminators of the language the alphabet of the model holds the line
    feed and the carriage return; U+2028 and U+2029, which the dot refuses
    as well, lie outside it. *)
Definition isDot (c : ascii) : bool :=
  negb (bool_decide (c = LF) || bool_decide (c = CR)).

(** The expression without its optional group, at the head of [s]: the
    key and the raw value. *)
Definition keyValue (s : jsstring) : option (jsstring * jsstring) :=
  match s with
  | c :: r =>
      if isKeyStart c then
        let key := c :: takeWhile isKeyChar r in
        match dropWhile JS.isWhiteSpace (dropWhile isKeyChar r) with
        | e :: afterEquals =>
            if bool_decide (e = EQUALS) then
              let rawValue := dropWhile JS.isWhiteSpace afterEquals in
              if forallb isDot rawValue then Some (key, rawValue) else None
            else None
        | [] => None
        end
      else None
  | [] => None
  end.

(** The optional group at the head of [s]: what follows it. *)
Definition exportPrefix (s : jsstring) : option jsstring :=
  if JS.startsWith "export" s then
    match drop 6 s with
    | c :: r => if JS.isWhiteSpace c then Some (dropWhile JS.isWhiteSpace r)
                else None
    | [] => None
    end
  else None.

Definition scan (s : jsstring) : option (jsstring * jsstring) :=
  match exportPrefix s with
  | Some rest =>
      match keyValue rest with
      | Some m => Some m
      | None => keyValue s
      end
  | None => keyValue s
  end.

End Regex.

(** [KEY_VALUE_REGEX], from its end to its start: the raw value as group 2
    (any number of characters that are not line terminators) up to the end
    of the input; optional white space before it; the equals sign; optional
    white space before it; the key as group 1 (a letter or underscore, then
    any number of letters, digits, underscores, dots and hyphens); the
    optional non-capturing group (the word export and one or more white
    space characters); the start of the input. *)
Definition WHITE_SPACE : RegExp.regex := RegExp.Class JS.isWhiteSpace.

Definition RAW_VALUE : RegExp.regex :=
  RegExp.Seq (RegExp.Group 2 (RegExp.Star (RegExp.Class Regex.isDot)))
             RegExp.Finish.

Definition AFTER_EQUALS : RegExp.regex :=
  RegExp.Seq (RegExp.Star WHITE_SPACE) RAW_VALUE.

Definition FROM_EQUALS : RegExp.regex :=
  RegExp.Seq (RegExp.Char EQUALS) AFTER_EQUALS.

Definition AFTER_KEY : RegExp.regex :=
  RegExp.Seq (RegExp.Star WHITE_SPACE) FROM_EQUALS.

Definition KEY : RegExp.regex :=
  RegExp.Group 1
    (RegExp.Seq (RegExp.Class Regex.isKeyStart)
                (RegExp.Star (RegExp.Class Regex.isKeyChar))).

Definition EXPORT : RegExp.regex :=
  RegExp.Seq (RegExp.Lit "export") (RegExp.Plus WHITE_SPACE).

Definition KEY_VALUE_REGEX : RegExp.regex :=
  RegExp.Seq RegExp.Start
    (RegExp.Seq (RegExp.Opt EXPORT) (RegExp.Seq KEY AFTER_KEY)).

Definition parseLine (line : jsstring) (lineNumber : Z)
    (groups : list (list jsstring)) : option DotFileEntry :=
  let trimmedLine := JS.trim line in
  if bool_decide (trimmedLine = []) || JS.startsWith "#" trimmedLine then None
  else
    let cleanLine := JS.removeCR line in
    match RegExp.exec KEY_VALUE_REGEX cleanLine with
    | None => None
    | Some (_, _, captured) =>
        let key := RegExp.group cleanLine captured 1 in
        let rawValue := RegExp.group cleanLine captured 2 in
        let value := JS.trim rawValue in
        let keyIndex := JS.indexOf key cleanLine 0 in
        let equalsIndex := JS.indexOf "=" cleanLine keyIndex in
        let afterEquals := JS.substringFrom cleanLine (equalsIndex + 1) in
        let valueStart :=
          (equalsIndex + 1
           + (Z.of_nat (length afterEquals)
              - Z.of_nat (length (JS.trimStart afterEquals))))%Z in
        let valueEnd := (valueStart + Z.of_nat (length value))%Z in
        let matchedToggleValues := findToggleValues value groups in
        let isToggleable := bool_decide (matchedToggleValues <> None) in
        Some {| key := key;
                value := value;
                line := lineNumber;
                valueStart := valueStart;
                valueEnd := valueEnd;
                isToggleable := isToggleable;
                toggleValues := matchedToggleValues;
                rawLine := line |}
    end.

(** The loop [for (let i = 0; i < lines.length; i++)] of [parseFile] and
    [parseDocument], from index [i] on. *)
Fixpoint parseLines (lines : list jsstring) (i : Z)
    (groups : list (list jsstring)) : list DotFileEntry :=
  match lines with
  | [] => []
  | l :: rest =>
      match parseLine l i groups with
      | Some entry => entry :: parseLines rest (i + 1)%Z groups
      | None => parseLines rest (i + 1)%Z groups
      end
  end.

(** ** The editor host and the collaborators of the services *)

(** What the services ask of the editor API.  [asRelativePath] is the path
    shown to the user (relative inside a workspace folder, the file system
    path outside); [findFiles] is the workspace search for one glob pattern,
    with the exclusion the parser passes; [openFailure] is the message of the
    error [openTextDocument] rejects with; [editorEdit] and
    [workspaceApplyEdit] replace the range between two columns of one line of
    a document by a text and answer [None] when the host reports that the
    edit could not be applied. *)
Record VSCode := {
  asRelativePath : jsstring -> jsstring;
  findFiles : gmap jsstring jsstring -> jsstring -> list jsstring;
  openFailure : jsstring -> jsstring;
  editorEdit : jsstring -> Z -> Z -> Z -> jsstring -> option jsstring;
  workspaceApplyEdit : jsstring -> Z -> Z -> Z -> jsstring -> option jsstring
}.

(** The state the services read and write: the settings, the text of every
    document (keyed by file system path; saving persists it), the documents
    brought into view, and the paths the toggle service has recorded as
    acknowledged in this session. *)
Record World := {
  configuration : DotfileToggleConfig;
  documents : gmap jsstring jsstring;
  shown : list jsstring;
  acknowledgedFiles : gset jsstring
}.

Definition setDocuments (d : gmap jsstring jsstring) (w : World) : World :=
  {| configuration := configuration w; documents := d;
     shown := shown w; acknowledgedFiles := acknowledgedFiles w |}.

Definition setShown (s : list jsstring) (w : World) : World :=
  {| configuration := configuration w; documents := documents w;
     shown := s; acknowledgedFiles := acknowledgedFiles w |}.

Definition setAcknowledgedFiles (a : gset jsstring) (w : World) : World :=
  {| configuration := configuration w; documents := documents w;
     shown := shown w; acknowledgedFiles := a |}.

(** src/services/gitignoreService.ts, as the toggle service sees it: whether
    git ignores the file, the answer to the warning dialog, and what adding
    the file to the ignore list does to the documents. *)
Inductive WarningChoice := ChoiceToggle | ChoiceCancel | ChoiceGitignore.

Record GitignoreService := {
  isIgnored : jsstring -> World -> bool;
  showWarning : jsstring -> World -> WarningChoice;
  addToGitignore : jsstring -> gmap jsstring jsstring -> gmap jsstring jsstring
}.

(** How a call ends: with a value, or with a thrown error and its message. *)
Inductive completion (A : Type) : Type :=
| Normal (a : A)
| Thrown (message : jsstring).
Arguments Normal {A} a.
Arguments Thrown {A} message.

(** Computations over the world that may throw. *)
Definition Task (A : Type) : Type := World -> completion A * World.

Definition ret {A} (a : A) : Task A := fun w => (Normal a, w).

Definition bind {A B} (m : Task A) (k : A -> Task B) : Task B :=
  fun w => match m w with
           | (Normal a, w') => k a w'
           | (Thrown e, w') => (Thrown e, w')
           end.

Definition gets {A} (f : World -> A) : Task A := fun w => (Normal (f w), w).

Definition modify (f : World -> World) : Task unit :=
  fun w => (Normal tt, f w).

Definition lift {A} (f : World -> completion A) : Task A := fun w => (f w, w).

(** [try { body } catch (error) { return handler(message) }] *)
Definition tryCatch {A} (body : Task A) (handler : jsstring -> A) : Task A :=
  fun w => match body w with
           | (Normal a, w') => (Normal a, w')
           | (Thrown e, w') => (Normal (handler e), w')
           end.

Declare Scope task_scope.
Delimit Scope task_scope with task.
Notation "'do' x <- m ; k" := (bind m (fun x => k))
  (at level 10, x name, m at level 100, k at level 200) : task_scope.
Notation "'run' m ; k" := (bind m (fun _ => k))
  (at level 10, m at level 100, k at level 200) : task_scope.

Section Services.

Context (vscode : VSCode) (gitignoreService : GitignoreService).

(** [parseFile]: opens the document, splits its text, parses each line. *)
Definition parseFile (uri : jsstring) (w : World) : completion ParsedDotFile :=
  let config := configuration w in
  match documents w !! uri with
  | None => Thrown (openFailure vscode uri)
  | Some content =>
      let lines := JS.splitLines content in
      let entries := parseLines lines 0%Z (cfgToggleValues config) in
      Normal {| uri := uri;
                relativePath := asRelativePath vscode uri;
                entries := entries;
                toggleableEntries :=
                  filter (fun e => isToggleable e = true) entries |}
  end.

(** [openTextDocument(uri)]: the text of the document. *)
Definition openTextDocument (uri : jsstring) : Task jsstring :=
  fun w => match documents w !! uri with
           | Some content => (Normal content, w)
           | None => (Thrown (openFailure vscode uri), w)
           end.

(** ** src/services/toggleService.ts *)

Definition failure (message : jsstring) : ToggleResult :=
  {| success := false; newValue := None; error := Some message;
     wasGitignoreWarningShown := None |}.

Definition cancelled : ToggleResult :=
  {| success := false; newValue := None; error := Some "Cancelled by user";
     wasGitignoreWarningShown := Some true |}.

Definition toggled (newValue : jsstring) : ToggleResult :=
  {| success := true; newValue := Some newValue; error := None;
     wasGitignoreWarningShown := Some false |}.

Definition noEntryMessage (line : Z) : jsstring :=
  "No entry found at line " ++ JS.numberToString (JS.plus line 1).

Definition notToggleableMessage (value : jsstring) : jsstring :=
  "Value " ++ [DQ] ++ value ++ [DQ] ++ " is not toggleable".

Local Open Scope task_scope.

(** [toggle]: the interactive entry point.  The early [return] on a
    cancelled warning is the [Some] of the first step.  Bringing the
    document into view is taken to succeed and is recorded in [shown]; the
    line the source then reads from the document holds an entry and is not
    used.  The edit and the save that follows it are one step: [documents]
    is the saved text. *)
Definition toggle (uri : jsstring) (atLine : Z) : Task ToggleResult :=
  tryCatch
    (do config <- gets configuration ;
     do acknowledged <- gets (fun w => bool_decide (uri ∈ acknowledgedFiles w)) ;
     do early <-
       (if cfgShowGitignoreWarning config && negb acknowledged then
          do ignored <- gets (isIgnored gitignoreService uri) ;
          if negb ignored then
            do result <- gets (showWarning gitignoreService uri) ;
            match result with
            | ChoiceCancel => ret (Some cancelled)
            | ChoiceGitignore =>
                run modify (fun w =>
                  setDocuments
                    (addToGitignore gitignoreService uri (documents w)) w) ;
                run modify (fun w =>
                  setAcknowledgedFiles ({[uri]} ∪ acknowledgedFiles w) w) ;
                ret None
            | ChoiceToggle =>
                run modify (fun w =>
                  setAcknowledgedFiles ({[uri]} ∪ acknowledgedFiles w) w) ;
                ret None
            end
          else ret None
        else ret None) ;
     match early with
     | Some result => ret result
     | None =>
         do parsed <- lift (parseFile uri) ;
         match List.find (fun e => (line e =? atLine)%Z) (entries parsed) with
         | None => ret (failure (noEntryMessage atLine))
         | Some entry =>
             match isToggleable entry, toggleValues entry with
             | true, Some group =>
                 let newValue := getNextValue (value entry) group in
                 do document <- openTextDocument uri ;
                 run modify (fun w => setShown (shown w ++ [uri]) w) ;
                 match editorEdit vscode document atLine
                         (valueStart entry) (valueEnd entry) newValue with
                 | Some edited =>
                     run modify (fun w =>
                       setDocuments (<[uri := edited]> (documents w)) w) ;
                     ret (toggled newValue)
                 | None => ret (failure "Failed to apply edit")
                 end
             | _, _ => ret (failure (notToggleableMessage (value entry)))
             end
         end
     end)
    failure.

(** [toggleEntry] *)
Definition toggleEntry (uri : jsstring) (entry : DotFileEntry)
  : Task ToggleResult :=
  toggle uri (line entry).

(** [toggleSilent]: the entry point that does not open an editor; the edit
    goes through a workspace edit and is saved the same way. *)
Definition toggleSilent (uri : jsstring) (atLine : Z) : Task ToggleResult :=
  tryCatch
    (do config <- gets configuration ;
     do acknowledged <- gets (fun w => bool_decide (uri ∈ acknowledgedFiles w)) ;
     do early <-
       (if cfgShowGitignoreWarning config && negb acknowledged then
          do ignored <- gets (isIgnored gitignoreService uri) ;
          if negb ignored then
            do result <- gets (showWarning gitignoreService uri) ;
            match result with
            | ChoiceCancel => ret (Some cancelled)
            | ChoiceGitignore =>
                run modify (fun w =>
                  setDocuments
                    (addToGitignore gitignoreService uri (documents w)) w) ;
                run modify (fun w =>
                  setAcknowledgedFiles ({[uri]} ∪ acknowledgedFiles w) w) ;
                ret None
            | ChoiceToggle =>
                run modify (fun w =>
                  setAcknowledgedFiles ({[uri]} ∪ acknowledgedFiles w) w) ;
                ret None
            end
          else ret None
        else ret None) ;
     match early with
     | Some result => ret result
     | None =>
         do parsed <- lift (parseFile uri) ;
         match List.find (fun e => (line e =? atLine)%Z) (entries parsed) with
         | None => ret (failure (noEntryMessage atLine))
         | Some entry =>
             match isToggleable entry, toggleValues entry with
             | true, Some group =>
                 let newValue := getNextValue (value entry) group in
                 do document <- openTextDocument uri ;
                 match workspaceApplyEdit vscode document atLine
                         (valueStart entry) (valueEnd entry) newValue with
                 | Some edited =>
                     run modify (fun w =>
                       setDocuments (<[uri := edited]> (documents w)) w) ;
                     ret (toggled newValue)
                 | None => ret (failure "Failed to apply edit")
                 end
             | _, _ => ret (failure (notToggleableMessage (value entry)))
             end
         end
     end)
    failure.

End Services.

(** ** src/services/fileWatcherService.ts *)

(** The cache of the service and the number of times its change event has
    fired. *)
Record FileWatcherService := {
  parsedFiles : gmap jsstring ParsedDotFile;
  changeEvents : nat
}.

(** An asynchronous method of the service.  Between two [await]s it runs
    without interruption; at an [await] it is suspended and other tasks of
    the event loop run and can read the service.  A method is therefore a
    function from the state it starts in to the states that are visible at
    its suspension points, in order, its result, and the state it leaves. *)
Definition Async (A : Type) : Type :=
  FileWatcherService -> list FileWatcherService * (A * FileWatcherService).

Definition aret {A} (a : A) : Async A := fun s => ([], (a, s)).

Definition abind {A B} (m : Async A) (k : A -> Async B) : Async B :=
  fun s => let '(seen1, (a, s1)) := m s in
           let '(seen2, (b, s2)) := k a s1 in
           (seen1 ++ seen2, (b, s2)).

(** [await m]: runs [m], then is suspended once before it goes on. *)
Definition await {A} (m : Async A) : Async A :=
  fun s => let '(seen, (a, s1)) := m s in (seen ++ [s1], (a, s1)).

Definition update (f : FileWatcherService -> FileWatcherService) : Async unit :=
  fun s => ([], (tt, f s)).

Declare Scope async_scope.
Delimit Scope async_scope with async.
Notation "'do' x <- m ; k" := (abind m (fun x => k))
  (at level 10, x name, m at level 100, k at level 200) : async_scope.
Notation "'run' m ; k" := (abind m (fun _ => k))
  (at level 10, m at level 100, k at level 200) : async_scope.

Section FileWatcher.

Context (vscode : VSCode).

(** The world the rescan reads.  It is the same at every step: the
    properties below are about what a reader of the cache sees, not about
    writers of the files. *)
Context (w : World).

Local Open Scope async_scope.

(** The filter of [findDotFiles] that keeps the first occurrence of every
    path. *)
Fixpoint uniquePaths (files : list jsstring) (seen : gset jsstring)
  : list jsstring :=
  match files with
  | [] => []
  | u :: rest =>
      if bool_decide (u ∈ seen) then uniquePaths rest seen
      else u :: uniquePaths rest ({[u]} ∪ seen)
  end.

Fixpoint collectMatches (patterns : list jsstring) (files : list jsstring)
  : Async (list jsstring) :=
  match patterns with
  | [] => aret files
  | pattern :: rest =>
      do matches <- await (aret (findFiles vscode (documents w) pattern)) ;
      collectMatches rest (files ++ matches)
  end.

Definition findDotFiles : Async (list jsstring) :=
  let config := configuration w in
  do files <- collectMatches (cfgFilePatterns config) [] ;
  aret (uniquePaths files ∅).

(** The loop of [parseAllFiles]; a file that fails to parse is logged and
    skipped. *)
Fixpoint parseEach (uris : list jsstring) (parsed : list ParsedDotFile)
  : Async (list ParsedDotFile) :=
  match uris with
  | [] => aret parsed
  | u :: rest =>
      do r <- await (await (aret (parseFile vscode u w))) ;
      match r with
      | Normal file => parseEach rest (parsed ++ [file])
      | Thrown _ => parseEach rest parsed
      end
  end.

Definition parseAllFiles : Async (list ParsedDotFile) :=
  do uris <- await findDotFiles ;
  parseEach uris [].

(** [refresh] *)
Definition refresh : Async unit :=
  run update (fun s => {| parsedFiles := ∅; changeEvents := changeEvents s |}) ;
  do files <- await parseAllFiles ;
  run update (fun s =>
    {| parsedFiles :=
         foldl (fun m file => <[uri file := file]> m) (parsedFiles s) files;
       changeEvents := changeEvents s |}) ;
  update (fun s =>
    {| parsedFiles := parsedFiles s; changeEvents := S (changeEvents s) |}).

End FileWatcher.

(** ** More of the JavaScript library: the methods the other functions of
    the sources call *)

Module Lib.

(** [Array.prototype.findIndex]: the first index whose element passes the
    test, [-1] when there is none. *)
Fixpoint findIndexFrom {A} (test : A -> bool) (l : list A) (i : Z) : Z :=
  match l with
  | [] => (-1)%Z
  | x :: r => if test x then i else findIndexFrom test r (i + 1)%Z
  end.

Definition findIndex {A} (test : A -> bool) (l : list A) : Z :=
  findIndexFrom test l 0%Z.

(** [a % b] on integers; [None] stands for [NaN], the result for [b = 0].
    An array read at [NaN] gives [undefined]. *)
Definition remainder (a b : Z) : option Z :=
  if (b =? 0)%Z then None else Some (Z.rem a b).

Definition elementAt {A} (l : list A) (i : option Z) : option A :=
  match i with
  | Some i' => JS.arrayGet l i'
  | None => None
  end.

(** [s.split(separator)] for a separator that is one character of a class:
    the pieces between the separators, at least one. *)
Fixpoint splitOn (separator : ascii -> bool) (s : jsstring) : list jsstring :=
  match s with
  | [] => [[]]
  | c :: r =>
      if separator c then [] :: splitOn separator r
      else match splitOn separator r with
           | l :: ls => (c :: l) :: ls
           | [] => [[c]]
           end
  end.

(** The class of the slash and the backslash. *)
Definition isSlash (c : ascii) : bool :=
  bool_decide (c = "/"%char) || bool_decide (c = ascii_of_nat 92).

(** What follows the last slash or backslash: the last piece of the split,
    the empty string when there is none. *)
Definition lastSegment (path : jsstring) : jsstring :=
  default [] (last (splitOn isSlash path)).

(** [String.prototype.includes] *)
Definition includes (needle hay : jsstring) : bool :=
  bool_decide (JS.indexOf needle hay 0 <> (-1)%Z).

(** [s.replace(c, '')] for a pattern that is a string of one character:
    the first occurrence goes. *)
Fixpoint removeFirst (c : ascii) (s : jsstring) : jsstring :=
  match s with
  | [] => []
  | a :: r => if bool_decide (a = c) then r else a :: removeFirst c r
  end.

End Lib.

(** ** src/services/fileWatcherService.ts, the other methods *)

Section FileWatcherCache.

Context (vscode : VSCode) (w : World).

Local Open Scope async_scope.

(** A synchronous read of the service. *)
Definition inspect {A} (f : FileWatcherService -> A) : Async A :=
  fun s => ([], (f s, s)).

Definition setParsedFile (u : jsstring) (file : ParsedDotFile) : Async unit :=
  update (fun s =>
    {| parsedFiles := <[u := file]> (parsedFiles s);
       changeEvents := changeEvents s |}).

Definition deleteParsedFile (u : jsstring) : Async unit :=
  update (fun s =>
    {| parsedFiles := delete u (parsedFiles s);
       changeEvents := changeEvents s |}).

Definition fire : Async unit :=
  update (fun s =>
    {| parsedFiles := parsedFiles s; changeEvents := S (changeEvents s) |}).

(** [updateFile]: the fresh parse replaces the cached one; a file that
    fails to parse leaves the cache. *)
Definition updateFile (u : jsstring) : Async unit :=
  do r <- await (await (aret (parseFile vscode u w))) ;
  match r with
  | Normal parsed => setParsedFile u parsed
  | Thrown _ => deleteParsedFile u
  end.

(** The three handlers [setupWatchers] registers on the watcher of every
    pattern. *)
Definition watcherDidChange (u : jsstring) : Async unit :=
  run await (updateFile u) ;
  fire.

Definition watcherDidCreate (u : jsstring) : Async unit :=
  run await (updateFile u) ;
  fire.

Definition watcherDidDelete (u : jsstring) : Async unit :=
  run deleteParsedFile u ;
  fire.

(** [getParsedFile] *)
Definition getParsedFile (u : jsstring) (s : FileWatcherService)
  : option ParsedDotFile :=
  parsedFiles s !! u.

(** [getOrParseFile]: the cached file when there is one, else the fresh
    parse, which is cached; [None] when the file fails to parse. *)
Definition getOrParseFile (u : jsstring) : Async (option ParsedDotFile) :=
  do cached <- inspect (fun s => parsedFiles s !! u) ;
  match cached with
  | Some file => aret (Some file)
  | None =>
      do r <- await (await (aret (parseFile vscode u w))) ;
      match r with
      | Normal parsed =>
          run setParsedFile u parsed ;
          aret (Some parsed)
      | Thrown _ => aret None
      end
  end.

(** [isWatchedFile]: the loop over the patterns, for the file name. *)
Fixpoint watchedBy (patterns : list jsstring) (fileName : jsstring) : bool :=
  match patterns with
  | [] => false
  | pattern :: rest =>
      if Lib.includes ".env" pattern
         && (bool_decide (fileName = ".env") || JS.startsWith ".env." fileName)
      then true
      else if (JS.endsWith ".flags" pattern || Lib.includes "/.flags" pattern)
              && bool_decide (fileName = ".flags")
      then true
      else if (JS.endsWith ".config" pattern || Lib.includes "/.config" pattern)
              && bool_decide (fileName = ".config")
      then true
      else
        let patternFile := Lib.lastSegment pattern in
        if JS.startsWith "." patternFile
           && JS.startsWith (Lib.removeFirst "*" patternFile) fileName
        then true
        else watchedBy rest fileName
  end.

Definition isWatchedFile (fsPath : jsstring) : bool :=
  let config := configuration w in
  let fileName := Lib.lastSegment fsPath in
  watchedBy (cfgFilePatterns config) fileName.

End FileWatcherCache.

(** ** src/parser/dotFileParser.ts: [parseDocument], for a document given
    by its path and its text, which may be unsaved *)

Definition parseDocument (vscode : VSCode) (config : DotfileToggleConfig)
    (documentUri text : jsstring) : ParsedDotFile :=
  let lines := JS.splitLines text in
  let entries := parseLines lines 0%Z (cfgToggleValues config) in
  {| uri := documentUri;
     relativePath := asRelativePath vscode documentUri;
     entries := entries;
     toggleableEntries := filter (fun e => isToggleable e = true) entries |}.

(** ** src/services/toggleService.ts: the acknowledged paths *)

Definition clearAcknowledgedFiles : Task unit :=
  modify (setAcknowledgedFiles ∅).

Definition isAcknowledged (uri : jsstring) : Task bool :=
  gets (fun w => bool_decide (uri ∈ acknowledgedFiles w)).

(** ** src/services/gitignoreService.ts: [addToGitignore] *)

(** What the method asks of the host: the folder of the workspace a file
    lies in, if any; the path of a file of a folder; the path of a file
    relative to its folder; whether a read of an existing file is rejected;
    whether a write to a path is rejected; and the two directions of the
    UTF-8 coding between the stored form of a file and its text, the text
    being taken to lie in the alphabet of the model. *)
Record Workspace := {
  getWorkspaceFolder : jsstring -> option jsstring;
  pathJoin : jsstring -> jsstring -> jsstring;
  relativeTo : jsstring -> jsstring;
  readFails : jsstring -> bool;
  writeFails : jsstring -> bool;
  utf8Decode : jsstring -> jsstring;
  utf8Encode : jsstring -> jsstring
}.

Module Gitignore.

(** The result of the method and the files it leaves, in their stored
    form.  Whatever goes wrong when the .gitignore is read (it is missing,
    or the read is rejected) is caught and the content counts as empty; a
    failed write is caught and answered with [false]. *)
Definition addToGitignore (host : Workspace) (uri : jsstring)
    (docs : gmap jsstring jsstring) : bool * gmap jsstring jsstring :=
  match getWorkspaceFolder host uri with
  | None => (false, docs)
  | Some workspaceFolder =>
      let gitignorePath := pathJoin host workspaceFolder ".gitignore" in
      let relativePath := relativeTo host uri in
      let content :=
        match docs !! gitignorePath with
        | Some existingContent =>
            if readFails host gitignorePath then []
            else utf8Decode host existingContent
        | None => []
        end in
      let lines := map JS.trim (JS.splitLines content) in
      if JS.includes relativePath lines then (true, docs)
      else
        let newContent :=
          if JS.endsWith [LF] content || bool_decide (content = [])
          then content ++ relativePath ++ [LF]
          else content ++ [LF] ++ relativePath ++ [LF] in
        if writeFails host gitignorePath then (false, docs)
        else (true, <[gitignorePath := utf8Encode host newContent]> docs)
  end.

End Gitignore.

(** ** src/providers: the next value the views announce *)

(** statusBarProvider.ts, [createQuickPickItem].  The detail of the item is
    the value and the next value on the two sides of an arrow; it is kept
    as the pair. *)
Record ToggleQuickPickItem := {
  label : jsstring;
  description : jsstring;
  detail : jsstring * jsstring;
  fileUri : jsstring;
  itemLine : Z
}.

Module StatusBarProvider.

Definition createQuickPickItem (file : ParsedDotFile) (entry : DotFileEntry)
  : ToggleQuickPickItem :=
  let unquotedValue := JS.stripQuotes (value entry) in
  let currentIndex :=
    match toggleValues entry with
    | Some group => JS.arrayIndexOf unquotedValue group
    | None => (-1)%Z
    end in
  let nextIndex :=
    if (0 <=? currentIndex)%Z
    then Lib.remainder (currentIndex + 1)
           (match toggleValues entry with
            | Some group => Z.of_nat (length group)
            | None => 1%Z
            end)
    else Some 0%Z in
  let nextValue :=
    default "?"
      (match toggleValues entry with
       | Some group => Lib.elementAt group nextIndex
       | None => None
       end) in
  {| label := "$(symbol-boolean) " ++ key entry;
     description := relativePath file;
     detail := (value entry, nextValue);
     fileUri := uri file;
     itemLine := line entry |}.

End StatusBarProvider.

(** codeLensProvider.ts, [createCodeLens]: the line the lens stands on, the
    next value its title and tooltip print ([None] is printed as
    undefined), and the arguments of its command. *)
Record CodeLens := {
  lensLine : Z;
  lensNextValue : option jsstring;
  lensArguments : jsstring * Z
}.

Module CodeLensProvider.

Definition createCodeLens (entry : DotFileEntry) (documentUri : jsstring)
  : option CodeLens :=
  match isToggleable entry, toggleValues entry with
  | true, Some group =>
      let currentIndex :=
        Lib.findIndex
          (fun v => bool_decide (v = JS.stripQuotes (value entry))) group in
      let nextIndex :=
        Lib.remainder (currentIndex + 1) (Z.of_nat (length group)) in
      let nextValue := Lib.elementAt group nextIndex in
      Some {| lensLine := line entry;
              lensNextValue := nextValue;
              lensArguments := (documentUri, line entry) |}
  | _, _ => None
  end.

(** [provideCodeLenses], for a document given by its path and text. *)
Definition provideCodeLenses (vscode : VSCode) (w : World)
    (documentUri text : jsstring) : list CodeLens :=
  if isWatchedFile w documentUri then
    let parsed := parseDocument vscode (configuration w) documentUri text in
    omap (fun entry => createCodeLens entry documentUri)
      (toggleableEntries parsed)
  else [].

End CodeLensProvider.

(** decorationProvider.ts, the private [getNextValue] behind the hover
    text; [None] is [undefined]. *)
Module DecorationProvider.

Definition getNextValue (currentValue : jsstring) (toggleValues : list jsstring)
  : option jsstring :=
  let unquoted := JS.stripQuotes currentValue in
  let currentIndex :=
    Lib.findIndex
      (fun v => bool_decide (JS.toLowerCase v = JS.toLowerCase unquoted))
      toggleValues in
  let nextIndex :=
    Lib.remainder (currentIndex + 1) (Z.of_nat (length toggleValues)) in
  Lib.elementAt toggleValues nextIndex.

End DecorationProvider.

(** ** A reference host, to run the services on concrete files *)

Definition joinLines (lines : list jsstring) : jsstring :=
  match lines with
  | [] => []
  | l :: rest => l ++ flat_map (fun x => LF :: x) rest
  end.

(** The edit of a host whose documents end their lines with a line feed:
    the columns from [startCol] up to [endCol] of line [atLine] make way for
    [newText]. *)
Definition replaceRange (text : jsstring) (atLine startCol endCol : Z)
    (newText : jsstring) : option jsstring :=
  let lines := JS.splitLines text in
  match JS.arrayGet lines atLine with
  | None => None
  | Some l =>
      let edited :=
        take (Z.to_nat startCol) l ++ newText ++ drop (Z.to_nat endCol) l in
      Some (joinLines (<[Z.to_nat atLine := edited]> lines))
  end.

(** A workspace in which the first default pattern finds the one file
    [.env] and the other patterns find nothing. *)
Definition lineHost : VSCode :=
  {| asRelativePath := fun u => u;
     findFiles := fun _ pattern =>
       if bool_decide (pattern = "**/.env*") then [".env"] else [];
     openFailure := fun u => "cannot open " ++ u;
     editorEdit := replaceRange;
     workspaceApplyEdit := replaceRange |}.

(** A workspace in which two patterns find the same file: the first finds
    [.env] and [.env.local], the second [.flags] and then [.env] again. *)
Definition overlapHost : VSCode :=
  {| asRelativePath := fun u => u;
     findFiles := fun _ pattern =>
       if bool_decide (pattern = "**/.env*") then [".env"; ".env.local"]
       else if bool_decide (pattern = "**/.flags") then [".flags"; ".env"]
       else [];
     openFailure := fun u => "cannot open " ++ u;
     editorEdit := replaceRange;
     workspaceApplyEdit := replaceRange |}.

(** Git ignores every file: the warning never shows. *)
Definition allIgnored : GitignoreService :=
  {| isIgnored := fun _ _ => true;
     showWarning := fun _ _ => ChoiceCancel;
     addToGitignore := fun _ docs => docs |}.

(** Git ignores nothing and the user answers the warning with [choice]. *)
Definition prompting (choice : WarningChoice) : GitignoreService :=
  {| isIgnored := fun _ _ => false;
     showWarning := fun _ _ => choice;
     addToGitignore := fun u docs =>
       <[".gitignore" := default [] (docs !! ".gitignore") ++ u ++ [LF]]> docs |}.

Definition worldOf (docs : gmap jsstring jsstring) : World :=
  {| configuration := defaultConfig; documents := docs;
     shown := []; acknowledgedFiles := ∅ |}.

(** ** Vocabulary of the properties *)

(** A group matches a normalized value when it contains it verbatim or
    under lower-casing of both sides. *)
Definition groupMatches (u : jsstring) (group : list jsstring) : Prop :=
  u ∈ group \/ JS.toLowerCase u ∈ map JS.toLowerCase group.

(** The quote layer [getNextValue] detects on a trimmed value, and the
    wrapping it applies to its result. *)
Inductive QuoteStyle := NoQuotes | DoubleQuotes | SingleQuotes.

Definition detectedStyle (trimmedValue : jsstring) : QuoteStyle :=
  if JS.startsWith [DQ] trimmedValue && JS.endsWith [DQ] trimmedValue
  then DoubleQuotes
  else if JS.startsWith [SQ] trimmedValue && JS.endsWith [SQ] trimmedValue
  then SingleQuotes
  else NoQuotes.

Definition wrap (q : QuoteStyle) (s : jsstring) : jsstring :=
  match q with
  | NoQuotes => s
  | DoubleQuotes => DQ :: s ++ [DQ]
  | SingleQuotes => SQ :: s ++ [SQ]
  end.

(** The input is a member of the cycle inside one quote layer and the
    result is a member of the cycle inside the same layer: nothing but the
    member was exchanged. *)
Definition keepsQuoteLayer (value : jsstring) (group : list jsstring) : Prop :=
  exists q u m,
    value = wrap q u /\ u ∈ group /\ m ∈ group
    /\ getNextValue value group = wrap q m.

(** Normalization as the specification words it: after trimming, one layer
    of quotes goes only if the value both starts and ends with the same
    quote character. *)
Definition stripMatchingPair (t : jsstring) : jsstring :=
  match detectedStyle t, t with
  | NoQuotes, _ => t
  | _, _ :: r => removelast r
  | _, [] => []
  end.

(** A string that trimming and quote stripping leave as it is: no white
    space around it and no quote character at either end. *)
Definition plain (s : jsstring) : Prop := JS.stripQuotes (JS.trim s) = s.

(** The part of [toggle] and [toggleSilent] before the file is parsed: the
    world after the warning has been dealt with, [None] when the user
    cancels. *)
Definition afterWarning (git : GitignoreService) (u : jsstring) (w : World)
  : option World :=
  if cfgShowGitignoreWarning (configuration w)
     && negb (bool_decide (u ∈ acknowledgedFiles w))
     && negb (isIgnored git u w)
  then
    match showWarning git u w with
    | ChoiceCancel => None
    | ChoiceToggle =>
        Some (setAcknowledgedFiles ({[u]} ∪ acknowledgedFiles w) w)
    | ChoiceGitignore =>
        Some (setAcknowledgedFiles ({[u]} ∪ acknowledgedFiles w)
                (setDocuments (addToGitignore git u (documents w)) w))
    end
  else Some w.

(** All white space. *)
Definition blank (s : jsstring) : Prop := Forall (fun c => JS.isWhiteSpace c = true) s.

(** [x] is [s] without some characters at its two ends. *)
Definition cutOf (x s : jsstring) : Prop := exists j k, x = take j (drop k s).

(** An asynchronous method that leaves the service as it found it and shows
    nothing else at its suspension points. *)
Definition quiet {A} (m : Async A) : Prop :=
  forall s, (m s).2.2 = s /\ Forall (fun o => o = s) (m s).1.

(** Atomic replacement of the cache: whoever reads the service while the
    method is suspended finds the map it had before or the map it has
    after. *)
Definition atomicSwap (s s' : FileWatcherService)
    (seen : list FileWatcherService) : Prop :=
  Forall (fun o => parsedFiles o = parsedFiles s \/ parsedFiles o = parsedFiles s')
    seen.

(** A file of three lines, the world that holds it as [.env], and an entry
    as a consumer may have kept it from an earlier parse. *)
Definition sampleContent : jsstring :=
  "DEBUG=true" ++ [LF] ++ "# comment" ++ [LF] ++ "PORT=8080" ++ [LF].

Definition sampleWorld : World := worldOf {[ ".env" := sampleContent ]}.

Definition staleEntry (atLine : Z) (v : jsstring) (from to : Z) : DotFileEntry :=
  {| key := "DEBUG"; value := v; line := atLine; valueStart := from;
     valueEnd := to; isToggleable := true;
     toggleValues := Some ["on"; "off"]; rawLine := "DEBUG=" ++ v |}.

(** ** Vocabulary of the further properties *)

(** The text the optional group of [KEY_VALUE_REGEX] can match: nothing, or
    the word export and white space after it. *)
Definition exportLead (pre : jsstring) : Prop :=
  pre = [] \/ exists ws, pre = "export" ++ ws /\ ws <> [] /\ blank ws.

(** A key: a letter or an underscore, then letters, digits, underscores,
    dots and hyphens. *)
Definition keyText (k : jsstring) : Prop :=
  exists c r, k = c :: r /\ Regex.isKeyStart c = true
              /\ Forall (fun a => Regex.isKeyChar a = true) r.

(** The offset [parseLine] computes for the start of the value, and the
    entry it builds from the two groups of a match. *)
Definition valueStartOf (cleanLine k : jsstring) : Z :=
  let keyIndex := JS.indexOf k cleanLine 0 in
  let equalsIndex := JS.indexOf "=" cleanLine keyIndex in
  let afterEquals := JS.substringFrom cleanLine (equalsIndex + 1) in
  (equalsIndex + 1
   + (Z.of_nat (length afterEquals)
      - Z.of_nat (length (JS.trimStart afterEquals))))%Z.

Definition entryOf (text : jsstring) (lineNumber : Z)
    (groups : list (list jsstring)) (k rawValue : jsstring) : DotFileEntry :=
  let start := valueStartOf (JS.removeCR text) k in
  {| key := k;
     value := JS.trim rawValue;
     line := lineNumber;
     valueStart := start;
     valueEnd := (start + Z.of_nat (length (JS.trim rawValue)))%Z;
     isToggleable :=
       bool_decide (findToggleValues (JS.trim rawValue) groups <> None);
     toggleValues := findToggleValues (JS.trim rawValue) groups;
     rawLine := text |}.

(** A group every member of which is, up to case, a member of a group that
    stands earlier in the table. *)
Definition shadowedBy (before : list (list jsstring)) (g : list jsstring)
  : Prop :=
  Forall (fun x =>
    Exists (fun g' => JS.toLowerCase x ∈ map JS.toLowerCase g') before) g.

(** The default table without the groups in capitals. *)
Definition reachableDefaults : list (list jsstring) :=
  [ ["true"; "false"]; ["yes"; "no"]; ["1"; "0"]; ["on"; "off"];
    ["enabled"; "disabled"]; ["production"; "development"]; ["prod"; "dev"] ].

(** The warning is due: the setting asks for it, the file has not been
    acknowledged in this session, and git does not ignore it. *)
Definition warningDue (git : GitignoreService) (u : jsstring) (w : World)
  : bool :=
  cfgShowGitignoreWarning (configuration w)
  && negb (bool_decide (u ∈ acknowledgedFiles w))
  && negb (isIgnored git u w).

(** What a run of an entry point on the file [u] may do to the world [w]:
    it ends normally; the settings stay; at most [u] joins the acknowledged
    paths; a document other than [u] changes only through the write of the
    gitignore service when the user asked for it; and a run that does not
    succeed writes nothing else. *)
Definition framed (git : GitignoreService) (u : jsstring) (w : World)
    (res : completion ToggleResult * World) : Prop :=
  (exists result, res.1 = Normal result
     /\ (success result = false ->
         documents res.2 = documents w
         \/ showWarning git u w = ChoiceGitignore
            /\ documents res.2 = addToGitignore git u (documents w)))
  /\ configuration res.2 = configuration w
  /\ (acknowledgedFiles res.2 = acknowledgedFiles w
      \/ acknowledgedFiles res.2 = {[u]} ∪ acknowledgedFiles w)
  /\ (forall p, p <> u ->
        documents res.2 !! p = documents w !! p
        \/ showWarning git u w = ChoiceGitignore
           /\ documents res.2 !! p = addToGitignore git u (documents w) !! p).

(** The fresh parse of a file, [None] when it cannot be opened; and the
    files the workspace search finds for the configured patterns, pattern
    by pattern. *)
Definition freshParse (vscode : VSCode) (w : World) (u : jsstring)
  : option ParsedDotFile :=
  match parseFile vscode u w with
  | Normal file => Some file
  | Thrown _ => None
  end.

Definition allMatches (vscode : VSCode) (w : World) : list jsstring :=
  concat (map (findFiles vscode (documents w))
              (cfgFilePatterns (configuration w))).

(** A workspace with the one folder /repo, in which every read and every
    write goes through and the files hold plain ASCII, which UTF-8 stores
    as it is. *)
Definition sampleWorkspace : Workspace :=
  {| getWorkspaceFolder := fun _ => Some "/repo";
     pathJoin := fun folder name => folder ++ "/" ++ name;
     relativeTo := fun u => if JS.startsWith "/repo/" u then drop 6 u else u;
     readFails := fun _ => false;
     writeFails := fun _ => false;
     utf8Decode := fun stored => stored;
     utf8Encode := fun text => text |}.

(** The gitignore service of the sources in a workspace: git ignores
    nothing, the user answers the warning with [choice], and the file is
    added to the ignore list by [addToGitignore]. *)
Definition gitignoreOf (host : Workspace) (choice : WarningChoice)
  : GitignoreService :=
  {| isIgnored := fun _ _ => false;
     showWarning := fun _ _ => choice;
     addToGitignore := fun u docs => (Gitignore.addToGitignore host u docs).2 |}.

(** * Properties *)

(** ** Trimming and quote stripping cut a string at its two ends *)

Section Cuts.

Lemma cutOf_refl s : cutOf s s.
Proof. exists (length s), 0. by rewrite drop_0, firstn_all. Qed.

Lemma cutOf_length x s : cutOf x s -> length x <= length s.
Proof. intros (j & k & ->). rewrite length_take, length_drop. lia. Qed.

Lemma cutOf_full x s : cutOf x s -> length x = length s -> x = s.
Proof.
  intros (j & k & ->). rewrite length_take, length_drop. intros H.
  destruct s as [|c s]; [by rewrite drop_nil, take_nil|].
  simpl in H. assert (k = 0) as -> by lia.
  rewrite drop_0. apply take_ge. simpl. lia.
Qed.

Lemma cutOf_trans x y s : cutOf x y -> cutOf y s -> cutOf x s.
Proof.
  intros (j & k & ->) (j' & k' & ->).
  exists (Nat.min j (j' - k)), (k' + k).
  rewrite <- drop_drop. rewrite skipn_firstn_comm. rewrite take_take.
  done.
Qed.

Lemma cutOf_tail x c s : cutOf x s -> cutOf x (c :: s).
Proof. intros (j & k & ->). by exists j, (S k). Qed.

End Cuts.

Import RegExp.

(** ** The matcher on the expressions of the sources *)

Lemma takeWhile_dropWhile p s : Regex.takeWhile p s ++ Regex.dropWhile p s = s.
Proof. induction s as [|c s IH]; [done|]. simpl. destruct (p c); simpl; congruence. Qed.

Lemma takeWhile_all p s : Forall (fun c => p c = true) (Regex.takeWhile p s).
Proof.
  induction s as [|c s IH]; [constructor|]. simpl.
  destruct (p c) eqn:E; by constructor.
Qed.

Lemma dropWhile_head p s c r : Regex.dropWhile p s = c :: r -> p c = false.
Proof.
  induction s as [|d s IH]; [done|]. simpl. destruct (p d) eqn:E; [done|].
  by intros [= <- _].
Qed.

Lemma drop_takeWhile p (t : jsstring) :
  drop (length (Regex.takeWhile p t)) t = Regex.dropWhile p t.
Proof.
  rewrite <- (takeWhile_dropWhile p t) at 2. by rewrite drop_app_length.
Qed.

Lemma takeWhile_full p (t : jsstring) :
  length (Regex.takeWhile p t) = length t <-> forallb p t = true.
Proof.
  induction t as [|a t IH]; [done|]. simpl. destruct (p a); simpl.
  - rewrite <- IH. lia.
  - split; [lia|done].
Qed.

Lemma takeWhile_length p (t : jsstring) : length (Regex.takeWhile p t) <= length t.
Proof.
  rewrite <- (takeWhile_dropWhile p t) at 2. rewrite length_app. lia.
Qed.

(** Inside the longest run of [p] from offset [i], every character is in
    [p]. *)
Lemma takeWhile_inside p (s : jsstring) i j :
  i <= j < i + length (Regex.takeWhile p (drop i s)) ->
  exists a, s !! j = Some a /\ p a = true.
Proof.
  intros Hj.
  destruct (lookup_lt_is_Some_2 (Regex.takeWhile p (drop i s)) (j - i)) as [a Ha];
    [lia|].
  exists a. split.
  - replace j with (i + (j - i)) by lia. rewrite <- lookup_drop.
    rewrite <- (takeWhile_dropWhile p (drop i s)). by apply lookup_app_l_Some.
  - pose proof (takeWhile_all p (drop i s)) as Hall.
    rewrite Forall_forall in Hall. apply Hall, list_elem_of_lookup. eauto.
Qed.

(** A repetition of a class takes the longest run of the class, provided
    that what follows, when it fails after the longest run, fails after
    every shorter one. *)
Lemma iterate_class p s k fuel i c :
  length s - i <= fuel ->
  (forall j, i <= j < i + length (Regex.takeWhile p (drop i s)) ->
             k (i + length (Regex.takeWhile p (drop i s))) c = None ->
             k j c = None) ->
  iterate (fun j c' k' => matchAt (Class p) s j c' k') k fuel i c
    = k (i + length (Regex.takeWhile p (drop i s))) c.
Proof.
  revert i. induction fuel as [|fuel IH]; intros i Hfuel Hk.
  - rewrite drop_ge by lia. simpl. by rewrite Nat.add_0_r.
  - simpl. destruct (s !! i) as [a|] eqn:Ha.
    + rewrite (drop_S s a i Ha) in *. simpl in *. destruct (p a) eqn:Hp.
      * simpl in *. rewrite (proj2 (Nat.ltb_lt i (S i))) by lia.
        assert (length s > i) by (by apply lookup_lt_Some in Ha).
        rewrite IH.
        -- replace (S i + length (Regex.takeWhile p (drop (S i) s)))
             with (i + S (length (Regex.takeWhile p (drop (S i) s)))) by lia.
           destruct (k _ c) eqn:E; [done|]. apply Hk; [lia|done].
        -- lia.
        -- intros j Hj Hn. apply Hk; [lia|].
           by replace (i + S (length (Regex.takeWhile p (drop (S i) s))))
             with (S i + length (Regex.takeWhile p (drop (S i) s))) by lia.
      * simpl. by rewrite Nat.add_0_r.
    + rewrite drop_ge by (by apply lookup_ge_None). simpl. by rewrite Nat.add_0_r.
Qed.

Lemma matchAt_star_class p s i c k :
  (forall j, i <= j < i + length (Regex.takeWhile p (drop i s)) ->
             k (i + length (Regex.takeWhile p (drop i s))) c = None ->
             k j c = None) ->
  matchAt (Star (Class p)) s i c k
    = k (i + length (Regex.takeWhile p (drop i s))) c.
Proof. intros Hk. simpl. by apply iterate_class. Qed.

Lemma matchAt_Class p s i c k :
  matchAt (Class p) s i c k
    = match s !! i with
      | Some a => if p a then k (S i) c else None
      | None => None
      end.
Proof. reflexivity. Qed.

Lemma matchAt_Start s i c k :
  matchAt Start s i c k = if i =? 0 then k i c else None.
Proof. reflexivity. Qed.

Lemma matchAt_Seq r1 r2 s i c k :
  matchAt (Seq r1 r2) s i c k
    = matchAt r1 s i c (fun j c' => matchAt r2 s j c' k).
Proof. reflexivity. Qed.

Lemma matchAt_Group n r s i c k :
  matchAt (Group n r) s i c k
    = matchAt r s i c (fun j c' => k j ((n, (i, j)) :: c')).
Proof. reflexivity. Qed.

Lemma matchAt_Alt r1 r2 s i c k :
  matchAt (Alt r1 r2) s i c k
    = match matchAt r1 s i c k with
      | Some m => Some m
      | None => matchAt r2 s i c k
      end.
Proof. reflexivity. Qed.

Lemma matchAt_RAW_VALUE s j c :
  j <= length s ->
  matchAt RAW_VALUE s j c accept
    = if forallb Regex.isDot (drop j s)
      then Some (length s, (2, (j, length s)) :: c) else None.
Proof.
  intros Hj. unfold RAW_VALUE.
  change (matchAt (Seq ?r1 ?r2) s j c ?k0)
    with (matchAt (Star (Class Regex.isDot)) s j c
            (fun j' c' => matchAt Finish s j' ((2, (j, j')) :: c') accept)).
  pose proof (takeWhile_length Regex.isDot (drop j s)) as Hle.
  rewrite length_drop in Hle.
  rewrite matchAt_star_class.
  - simpl. destruct (forallb Regex.isDot (drop j s)) eqn:E.
    + apply takeWhile_full in E. rewrite length_drop in E.
      replace (j + _) with (length s) by lia. by rewrite Nat.eqb_refl.
    + destruct (Nat.eqb_spec (j + length (Regex.takeWhile Regex.isDot (drop j s)))
                  (length s)) as [Heq|]; [|done].
      assert (forallb Regex.isDot (drop j s) = true); [|congruence].
      apply takeWhile_full. rewrite length_drop. lia.
  - intros j' Hj' _. simpl.
    destruct (Nat.eqb_spec j' (length s)); [lia|done].
Qed.

Lemma forallb_drop_mono p (s : jsstring) j j' :
  j' <= j -> forallb p (drop j s) = false -> forallb p (drop j' s) = false.
Proof.
  intros Hle H. replace j with (j' + (j - j')) in H by lia.
  rewrite <- drop_drop in H.
  rewrite <- (take_drop (j - j') (drop j' s)), forallb_app, H.
  apply andb_false_r.
Qed.

Lemma matchAt_AFTER_EQUALS s j c :
  j <= length s ->
  matchAt AFTER_EQUALS s j c accept
    = let raw := Regex.dropWhile JS.isWhiteSpace (drop j s) in
      if forallb Regex.isDot raw
      then Some (length s, (2, (length s - length raw, length s)) :: c)
      else None.
Proof.
  intros Hj. unfold AFTER_EQUALS, WHITE_SPACE.
  change (matchAt (Seq ?r1 ?r2) s j c ?k0)
    with (matchAt (Star (Class JS.isWhiteSpace)) s j c
            (fun j' c' => matchAt RAW_VALUE s j' c' accept)).
  pose proof (takeWhile_length JS.isWhiteSpace (drop j s)) as Hle.
  rewrite length_drop in Hle.
  set (n := length (Regex.takeWhile JS.isWhiteSpace (drop j s))) in *.
  assert (drop (j + n) s = Regex.dropWhile JS.isWhiteSpace (drop j s)) as Hraw.
  { rewrite <- drop_drop. apply drop_takeWhile. }
  rewrite matchAt_star_class; fold n.
  - rewrite matchAt_RAW_VALUE by lia. rewrite Hraw. cbv zeta.
    rewrite <- Hraw, length_drop. by replace (length s - (length s - (j + n))) with (j + n) by lia.
  - intros j' Hj'. rewrite !matchAt_RAW_VALUE by lia.
    destruct (forallb Regex.isDot (drop (j + n) s)) eqn:E; [done|]. intros _.
    by rewrite (forallb_drop_mono Regex.isDot s (j + n) j') by (lia || done).
Qed.

Lemma head_drop (s : jsstring) j : s !! j = head (drop j s).
Proof. by rewrite <- (Nat.add_0_r j), <- lookup_drop, Nat.add_0_r, head_lookup. Qed.

Lemma matchAt_FROM_EQUALS s j c :
  j <= length s ->
  matchAt FROM_EQUALS s j c accept
    = match drop j s with
      | e :: afterEquals =>
          if bool_decide (e = EQUALS) then
            let raw := Regex.dropWhile JS.isWhiteSpace afterEquals in
            if forallb Regex.isDot raw
            then Some (length s, (2, (length s - length raw, length s)) :: c)
            else None
          else None
      | [] => None
      end.
Proof.
  intros Hj. unfold FROM_EQUALS, Char.
  change (matchAt (Seq ?r1 ?r2) s j c ?k0)
    with (matchAt (Class (fun a => bool_decide (a = EQUALS))) s j c
            (fun j' c' => matchAt AFTER_EQUALS s j' c' accept)).
  rewrite matchAt_Class, head_drop.
  destruct (drop j s) as [|e rest] eqn:E; [reflexivity|].
  change (head (e :: rest)) with (Some e). cbv iota beta.
  destruct (bool_decide (e = EQUALS)); [|reflexivity].
  assert (S j <= length s).
  { destruct (decide (j = length s)) as [->|]; [by rewrite drop_all in E|lia]. }
  rewrite matchAt_AFTER_EQUALS by done.
  replace (drop (S j) s) with rest; [done|].
  by rewrite <- (Nat.add_1_r j), <- drop_drop, E.
Qed.

Lemma matchAt_AFTER_KEY s j c :
  j <= length s ->
  matchAt AFTER_KEY s j c accept
    = matchAt FROM_EQUALS s
        (j + length (Regex.takeWhile JS.isWhiteSpace (drop j s))) c accept.
Proof.
  intros Hj. unfold AFTER_KEY, WHITE_SPACE.
  change (matchAt (Seq ?r1 ?r2) s j c ?k0)
    with (matchAt (Star (Class JS.isWhiteSpace)) s j c
            (fun j' c' => matchAt FROM_EQUALS s j' c' accept)).
  rewrite matchAt_star_class; [done|].
  intros j' Hj' _.
  destruct (takeWhile_inside _ _ _ _ Hj') as (a & Ha & Hws).
  pose proof (lookup_lt_Some _ _ _ Ha).
  rewrite matchAt_FROM_EQUALS by lia. rewrite head_drop in Ha.
  destruct (drop j' s) as [|e rest]; [done|].
  change (head (e :: rest)) with (Some e) in Ha. injection Ha as ->.
  case_bool_decide as Ee; [|done]. subst a. vm_compute in Hws. discriminate.
Qed.

Lemma trimStart_dropWhile s :
  JS.trimStart (Regex.dropWhile JS.isWhiteSpace s) = Regex.dropWhile JS.isWhiteSpace s.
Proof.
  destruct (Regex.dropWhile JS.isWhiteSpace s) as [|c r] eqn:E; [done|].
  simpl. by rewrite (dropWhile_head _ _ _ _ E).
Qed.

Lemma trimStart_blank_app ws s : blank ws -> JS.trimStart (ws ++ s) = JS.trimStart s.
Proof. induction 1 as [|c ws Hc _ IH]; [done|]. simpl. by rewrite Hc. Qed.

Lemma isKeyChar_not_equals c : Regex.isKeyChar c = true -> c <> "="%char.
Proof. intros H ->. vm_compute in H. discriminate. Qed.

Lemma isWhiteSpace_not_equals c : JS.isWhiteSpace c = true -> c <> "="%char.
Proof. intros H ->. vm_compute in H. discriminate. Qed.

Lemma isKeyStart_isKeyChar c : Regex.isKeyStart c = true -> Regex.isKeyChar c = true.
Proof. unfold Regex.isKeyChar. by intros ->. Qed.

Lemma keyValue_spec s k raw :
  Regex.keyValue s = Some (k, raw) ->
  exists ws0 ws1,
    s = k ++ ws0 ++ "=" ++ ws1 ++ raw
    /\ k <> [] /\ Forall (fun c => Regex.isKeyChar c = true) k
    /\ blank ws0 /\ blank ws1 /\ JS.trimStart raw = raw.
Proof.
  unfold Regex.keyValue. destruct s as [|c r]; [done|].
  destruct (Regex.isKeyStart c) eqn:Ec; [|done].
  destruct (Regex.dropWhile JS.isWhiteSpace (Regex.dropWhile Regex.isKeyChar r))
    as [|e afterEquals] eqn:E1; [done|].
  case_bool_decide as Ee; [|done]. subst e.
  destruct (forallb Regex.isDot _); [|done]. intros [= <- <-].
  exists (Regex.takeWhile JS.isWhiteSpace (Regex.dropWhile Regex.isKeyChar r)),
         (Regex.takeWhile JS.isWhiteSpace afterEquals).
  split.
  { set (k0 := Regex.takeWhile Regex.isKeyChar r).
    set (w0 := Regex.takeWhile JS.isWhiteSpace (Regex.dropWhile Regex.isKeyChar r)).
    set (w1 := Regex.takeWhile JS.isWhiteSpace afterEquals).
    assert (r = k0 ++ w0 ++ "=" ++ w1 ++ Regex.dropWhile JS.isWhiteSpace afterEquals)
      as Hr.
    { unfold k0, w0, w1. rewrite (takeWhile_dropWhile JS.isWhiteSpace afterEquals).
      change ("=" ++ afterEquals) with (EQUALS :: afterEquals). rewrite <- E1.
      by rewrite !takeWhile_dropWhile. }
    change (c :: r = c :: (k0 ++ w0 ++ "=" ++ w1
                             ++ Regex.dropWhile JS.isWhiteSpace afterEquals)).
    by rewrite <- Hr. }
  split; [done|]. split.
  { constructor; [by apply isKeyStart_isKeyChar|apply takeWhile_all]. }
  split; [apply takeWhile_all|]. split; [apply takeWhile_all|].
  apply trimStart_dropWhile.
Qed.

Lemma startsWith_app p s : JS.startsWith p s = true <-> exists r, s = p ++ r.
Proof.
  revert s. induction p as [|a p IH]; intros s; simpl.
  - split; [by exists s|done].
  - destruct s as [|b s].
    + split; [done|]. by intros [r ?].
    + rewrite andb_true_iff, bool_decide_eq_true, IH. split.
      * intros [-> [r ->]]. by exists r.
      * intros [r [= -> ->]]. split; [done|]. by exists r.
Qed.

Lemma exportPrefix_spec s rest :
  Regex.exportPrefix s = Some rest ->
  exists ws, s = "export" ++ ws ++ rest /\ blank ws.
Proof.
  unfold Regex.exportPrefix. destruct (JS.startsWith "export" s) eqn:E; [|done].
  apply startsWith_app in E as [r ->].
  change (drop 6 ("export" ++ r)) with r.
  destruct r as [|c r]; [done|]. destruct (JS.isWhiteSpace c) eqn:Ec; [|done].
  intros [= <-]. exists (c :: Regex.takeWhile JS.isWhiteSpace r). split.
  - simpl. by rewrite takeWhile_dropWhile.
  - constructor; [done|apply takeWhile_all].
Qed.

(** A match splits the line: what precedes the key holds no equals sign,
    the key is made of key characters, white space may stand on both sides
    of the equals sign, and the raw value starts with no white space. *)
Lemma scan_spec s k raw :
  Regex.scan s = Some (k, raw) ->
  exists pre ws0 ws1,
    s = pre ++ k ++ ws0 ++ "=" ++ ws1 ++ raw
    /\ (EQUALS ∉ pre)
    /\ k <> [] /\ Forall (fun c => Regex.isKeyChar c = true) k
    /\ blank ws0 /\ blank ws1 /\ JS.trimStart raw = raw.
Proof.
  unfold Regex.scan.
  assert (Regex.keyValue s = Some (k, raw) ->
          exists pre ws0 ws1,
            s = pre ++ k ++ ws0 ++ "=" ++ ws1 ++ raw
            /\ (EQUALS ∉ pre)
            /\ k <> [] /\ Forall (fun c => Regex.isKeyChar c = true) k
            /\ blank ws0 /\ blank ws1 /\ JS.trimStart raw = raw) as Hplain.
  { intros (ws0 & ws1 & H)%keyValue_spec. exists [], ws0, ws1.
    destruct H as (? & ? & ? & ? & ? & ?). repeat split; try done.
    apply not_elem_of_nil. }
  destruct (Regex.exportPrefix s) as [rest|] eqn:Ex; [|done].
  destruct (Regex.keyValue rest) as [m|] eqn:Ek; [|done].
  intros [= ->]. apply exportPrefix_spec in Ex as (ws & -> & Hws).
  apply keyValue_spec in Ek as (ws0 & ws1 & -> & ? & ? & ? & ? & ?).
  exists ("export" ++ ws), ws0, ws1. split; [by rewrite <- app_assoc|].
  split; [|done].
  rewrite elem_of_app. intros [Hin|Hin].
  - revert Hin. apply (bool_decide_unpack _). vm_compute. reflexivity.
  - unfold blank in Hws. rewrite Forall_forall in Hws.
    by apply Hws, isWhiteSpace_not_equals in Hin.
Qed.

(** ** The expression of the parser *)

Lemma isKeyChar_not_space a : Regex.isKeyChar a = true -> JS.isWhiteSpace a = false.
Proof. destruct a as [[] [] [] [] [] [] [] []]; vm_compute; done. Qed.

Lemma isKeyStart_not_space a : Regex.isKeyStart a = true -> JS.isWhiteSpace a = false.
Proof. intros H. by apply isKeyChar_not_space, isKeyStart_isKeyChar. Qed.

Lemma takeWhile_head_false p (t : jsstring) a :
  head t = Some a -> p a = false -> Regex.takeWhile p t = [].
Proof. destruct t as [|b t]; [done|]. intros [= ->] H. simpl. by rewrite H. Qed.

(** At a key character what follows the key cannot start. *)
Lemma matchAt_AFTER_KEY_key s j c a :
  s !! j = Some a -> Regex.isKeyChar a = true ->
  matchAt AFTER_KEY s j c accept = None.
Proof.
  intros Ha Hk. pose proof (lookup_lt_Some _ _ _ Ha).
  rewrite matchAt_AFTER_KEY by lia. rewrite head_drop in Ha.
  rewrite (takeWhile_head_false _ _ a Ha) by (by apply isKeyChar_not_space).
  rewrite Nat.add_0_r, matchAt_FROM_EQUALS by lia.
  destruct (drop j s) as [|e rest]; [done|].
  change (head (e :: rest)) with (Some e) in Ha. injection Ha as ->.
  case_bool_decide as Ee; [|done]. by apply isKeyChar_not_equals in Hk.
Qed.

Lemma matchAt_key_value s i c :
  i <= length s ->
  matchAt (Seq KEY AFTER_KEY) s i c accept
    = match Regex.keyValue (drop i s) with
      | Some (k, raw) =>
          Some (length s,
                (2, (length s - length raw, length s))
                  :: (1, (i, i + length k)) :: c)
      | None => None
      end.
Proof.
  intros Hi. unfold KEY.
  rewrite matchAt_Seq, matchAt_Group, matchAt_Seq, matchAt_Class, head_drop.
  destruct (drop i s) as [|a r] eqn:E; [reflexivity|].
  change (head (a :: r)) with (Some a). cbv iota beta.
  unfold Regex.keyValue. destruct (Regex.isKeyStart a) eqn:Ea; [|reflexivity].
  assert (S i <= length s).
  { destruct (decide (i = length s)) as [->|]; [by rewrite drop_all in E|lia]. }
  assert (drop (S i) s = r) as Hr.
  { by rewrite <- (Nat.add_1_r i), <- drop_drop, E. }
  rewrite matchAt_star_class; rewrite Hr.
  - set (n1 := length (Regex.takeWhile Regex.isKeyChar r)).
    pose proof (takeWhile_length Regex.isKeyChar r) as Hn1. fold n1 in Hn1.
    assert (length r = length s - S i) by (subst r; apply length_drop).
    rewrite matchAt_AFTER_KEY by lia.
    assert (drop (S i + n1) s = Regex.dropWhile Regex.isKeyChar r) as Hk.
    { rewrite <- drop_drop, Hr. apply drop_takeWhile. }
    rewrite Hk.
    set (n2 := length (Regex.takeWhile JS.isWhiteSpace
                         (Regex.dropWhile Regex.isKeyChar r))).
    pose proof (takeWhile_length JS.isWhiteSpace
                  (Regex.dropWhile Regex.isKeyChar r)) as Hn2. fold n2 in Hn2.
    rewrite <- Hk, length_drop in Hn2.
    rewrite matchAt_FROM_EQUALS by lia.
    replace (drop (S i + n1 + n2) s)
      with (Regex.dropWhile JS.isWhiteSpace (Regex.dropWhile Regex.isKeyChar r)).
    2:{ rewrite <- drop_drop, Hk. symmetry. apply drop_takeWhile. }
    destruct (Regex.dropWhile JS.isWhiteSpace _) as [|e afterEquals]; [done|].
    destruct (bool_decide (e = EQUALS)); [|done]. cbv zeta.
    destruct (forallb Regex.isDot _); [|done].
    do 6 f_equal. simpl. unfold n1. lia.
  - intros j Hj _.
    destruct (takeWhile_inside Regex.isKeyChar s (S i) j) as (b & Hb & Hkb).
    { by rewrite Hr. }
    by apply (matchAt_AFTER_KEY_key s j _ b).
Qed.

Lemma matchAt_Lit t s i c k :
  matchAt (Lit t) s i c k
    = if JS.startsWith t (drop i s) then k (i + length t) c else None.
Proof.
  revert i. induction t as [|a t IH]; intros i.
  - simpl. by rewrite Nat.add_0_r.
  - change (Lit (a :: t)) with (Seq (Char a) (Lit t)).
    unfold Char. rewrite matchAt_Seq, matchAt_Class, head_drop.
    destruct (drop i s) as [|b r] eqn:E; [reflexivity|].
    change (head (b :: r)) with (Some b). cbv iota beta. simpl JS.startsWith.
    rewrite (bool_decide_ext (b = a) (a = b)) by done.
    destruct (bool_decide (a = b)); [|reflexivity]. simpl andb.
    rewrite IH. replace (drop (S i) s) with r.
    + simpl length. by replace (S i + length t) with (i + S (length t)) by lia.
    + by rewrite <- (Nat.add_1_r i), <- drop_drop, E.
Qed.

(** The optional group, when what follows cannot start at white space. *)
Lemma matchAt_EXPORT s c k :
  (forall j a, s !! j = Some a -> JS.isWhiteSpace a = true -> k j c = None) ->
  matchAt EXPORT s 0 c k
    = match Regex.exportPrefix s with
      | Some rest => k (length s - length rest) c
      | None => None
      end.
Proof.
  intros Hk. unfold EXPORT, Plus, WHITE_SPACE, Regex.exportPrefix.
  rewrite matchAt_Seq, matchAt_Lit, drop_0.
  destruct (JS.startsWith "export" s) eqn:Es; [|reflexivity].
  rewrite matchAt_Seq, matchAt_Class, head_drop.
  change (0 + length "export") with 6.
  destruct (drop 6 s) as [|b r] eqn:E; [reflexivity|].
  change (head (b :: r)) with (Some b). cbv iota beta.
  destruct (JS.isWhiteSpace b) eqn:Eb; [|reflexivity].
  assert (7 <= length s).
  { destruct (decide (length s <= 6)); [|lia]. by rewrite drop_ge in E by lia. }
  assert (drop 7 s = r) as Hr.
  { change 7 with (6 + 1). by rewrite <- drop_drop, E. }
  rewrite matchAt_star_class; rewrite Hr.
  - f_equal. rewrite <- (drop_takeWhile JS.isWhiteSpace r), length_drop.
    pose proof (takeWhile_length JS.isWhiteSpace r).
    assert (length r = length s - 7) by (subst r; apply length_drop). lia.
  - intros j Hj _.
    destruct (takeWhile_inside JS.isWhiteSpace s 7 j) as (a & Ha & Hws).
    { by rewrite Hr. }
    by apply (Hk j a).
Qed.

Lemma matchAt_key_value_space s j c a :
  s !! j = Some a -> JS.isWhiteSpace a = true ->
  matchAt (Seq KEY AFTER_KEY) s j c accept = None.
Proof.
  intros Ha Hws. pose proof (lookup_lt_Some _ _ _ Ha).
  rewrite matchAt_key_value by lia. rewrite head_drop in Ha.
  destruct (drop j s) as [|b r]; [done|].
  change (head (b :: r)) with (Some b) in Ha. injection Ha as ->.
  unfold Regex.keyValue. destruct (Regex.isKeyStart a) eqn:E; [|done].
  apply isKeyStart_not_space in E. congruence.
Qed.

Lemma matchAt_KEY_VALUE_REGEX s :
  matchAt KEY_VALUE_REGEX s 0 [] accept
    = match Regex.exportPrefix s with
      | Some rest =>
          match matchAt (Seq KEY AFTER_KEY) s (length s - length rest) [] accept with
          | Some m => Some m
          | None => matchAt (Seq KEY AFTER_KEY) s 0 [] accept
          end
      | None => matchAt (Seq KEY AFTER_KEY) s 0 [] accept
      end.
Proof.
  unfold KEY_VALUE_REGEX, Opt.
  rewrite matchAt_Seq, matchAt_Start. change (0 =? 0) with true. cbv iota.
  rewrite matchAt_Seq, matchAt_Alt.
  rewrite matchAt_EXPORT.
  - destruct (Regex.exportPrefix s); reflexivity.
  - intros j a Ha Hws. by apply (matchAt_key_value_space s j [] a).
Qed.

Lemma execFrom_eq r s i fuel :
  execFrom r s i fuel
    = match matchAt r s i [] accept with
      | Some (j, c) => Some (i, j, c)
      | None =>
          match fuel with
          | 0 => None
          | S fuel' => execFrom r s (S i) fuel'
          end
      end.
Proof. by destruct fuel. Qed.

Lemma execFrom_KEY_VALUE_REGEX s i fuel :
  0 < i -> execFrom KEY_VALUE_REGEX s i fuel = None.
Proof.
  revert i. induction fuel as [|fuel IH]; intros i Hi; rewrite execFrom_eq;
    unfold KEY_VALUE_REGEX at 1; rewrite matchAt_Seq, matchAt_Start;
    destruct (Nat.eqb_spec i 0); try lia; [done|].
  apply IH. lia.
Qed.

Lemma exec_KEY_VALUE_REGEX s :
  exec KEY_VALUE_REGEX s
    = (fun m => (0, m.1, m.2)) <$> matchAt KEY_VALUE_REGEX s 0 [] accept.
Proof.
  unfold exec. rewrite execFrom_eq.
  destruct (matchAt KEY_VALUE_REGEX s 0 [] accept) as [[j c]|]; [done|].
  destruct (length s); [done|]. apply execFrom_KEY_VALUE_REGEX. lia.
Qed.

Lemma group_1 s c2 a b c : group s (c2 :: (1, (a, b)) :: c) 1
                           = if bool_decide (c2.1 = 1)
                             then take (c2.2.2 - c2.2.1) (drop c2.2.1 s)
                             else take (b - a) (drop a s).
Proof.
  unfold group. destruct c2 as [n [x y]]. simpl.
  case_decide; case_bool_decide; try done.
Qed.

Lemma keyValue_groups s i :
  i <= length s ->
  (fun m => (group s m.2 1, group s m.2 2))
    <$> matchAt (Seq KEY AFTER_KEY) s i [] accept
  = Regex.keyValue (drop i s).
Proof.
  intros Hi. rewrite matchAt_key_value by done.
  destruct (Regex.keyValue (drop i s)) as [[k raw]|] eqn:E; [|done].
  apply keyValue_spec in E as (ws0 & ws1 & Hs & _).
  simpl. f_equal. f_equal.
  - rewrite group_1. simpl.
    replace (i + length k - i) with (length k) by lia.
    by rewrite Hs, take_app_length.
  - unfold group. simpl.
    assert (length (drop i s) = length s - i) as Hl by apply length_drop.
    rewrite Hs, !length_app in Hl. simpl in Hl.
    replace (length s - (length s - length raw)) with (length raw) by lia.
    replace (length s - length raw)
      with (i + length (k ++ ws0 ++ "=" ++ ws1))
      by (rewrite !length_app; simpl; lia).
    rewrite <- drop_drop, Hs.
    replace (k ++ ws0 ++ "=" ++ ws1 ++ raw) with ((k ++ ws0 ++ "=" ++ ws1) ++ raw)
      by (by rewrite <- !app_assoc).
    rewrite drop_app_length. apply firstn_all.
Qed.

(** The match of [KEY_VALUE_REGEX], as [parseLine] reads its groups, is the
    deterministic scan. *)
Lemma KEY_VALUE_REGEX_scan s :
  (fun m => (group s m.2 1, group s m.2 2)) <$> exec KEY_VALUE_REGEX s
  = Regex.scan s.
Proof.
  rewrite exec_KEY_VALUE_REGEX, matchAt_KEY_VALUE_REGEX. unfold Regex.scan.
  pose proof (keyValue_groups s 0 (Nat.le_0_l _)) as H0. rewrite drop_0 in H0.
  destruct (Regex.exportPrefix s) as [rest|] eqn:Ex.
  - apply exportPrefix_spec in Ex as (ws & Hs & _).
    pose proof (keyValue_groups s (length s - length rest)) as H1.
    assert (drop (length s - length rest) s = rest) as Hrest.
    { rewrite Hs at 2. rewrite Hs, !length_app.
      replace (length "export" + (length ws + length rest) - length rest)
        with (length ("export" ++ ws)) by (rewrite length_app; lia).
      by rewrite app_assoc, drop_app_length. }
    rewrite Hrest in H1. rewrite <- H1 by lia.
    destruct (matchAt (Seq KEY AFTER_KEY) s (length s - length rest) [] accept)
      as [[j c]|]; [reflexivity|].
    rewrite <- H0.
    destruct (matchAt (Seq KEY AFTER_KEY) s 0 [] accept) as [[j c]|]; reflexivity.
  - rewrite <- H0.
    destruct (matchAt (Seq KEY AFTER_KEY) s 0 [] accept) as [[j c]|]; reflexivity.
Qed.

(** ** The two global replacements *)

Lemma deleteFrom_eq r s i fuel :
  deleteFrom r s i (S fuel)
    = match matchAt r s i [] accept with
      | Some (j, _) =>
          if i <? j then deleteFrom r s j fuel
          else option_list (s !! i) ++ deleteFrom r s (S i) fuel
      | None => option_list (s !! i) ++ deleteFrom r s (S i) fuel
      end.
Proof. reflexivity. Qed.

Lemma deleteFrom_Char a s i fuel :
  S (length s) - i <= fuel ->
  deleteFrom (Char a) s i fuel = filter (fun b => b <> a) (drop i s).
Proof.
  revert i. induction fuel as [|fuel IH]; intros i Hfuel.
  - by rewrite drop_ge by lia.
  - rewrite deleteFrom_eq. unfold Char at 1. rewrite matchAt_Class.
    destruct (s !! i) as [b|] eqn:Hb.
    + rewrite (drop_S s b i Hb). pose proof (lookup_lt_Some _ _ _ Hb).
      case_bool_decide as E.
      * unfold accept. rewrite (proj2 (Nat.ltb_lt i (S i))) by lia.
        rewrite IH by lia. by rewrite filter_cons_False by (intros ?; done).
      * rewrite IH by lia. by rewrite filter_cons_True.
    + rewrite IH by lia. apply lookup_ge_None in Hb.
      by rewrite !drop_ge by lia.
Qed.

Lemma removeCR_filter s : JS.removeCR s = filter (fun b => b <> CR) s.
Proof.
  unfold JS.removeCR, deleteAll. rewrite deleteFrom_Char by lia.
  by rewrite drop_0.
Qed.

Lemma removeCR_fixed s : CR ∉ s -> JS.removeCR s = s.
Proof.
  intros H. rewrite removeCR_filter. induction s as [|c s IH]; [done|].
  apply not_elem_of_cons in H as [Hc Hs].
  rewrite filter_cons_True by done. by rewrite IH.
Qed.

Lemma list_snoc_cases {A} (l : list A) : l = [] \/ exists r c, l = r ++ [c].
Proof.
  destruct (rev l) as [|c r] eqn:E.
  - left. apply (f_equal (@rev _)) in E. by rewrite rev_involutive in E.
  - right. exists (rev r), c. apply (f_equal (@rev _)) in E.
    by rewrite rev_involutive in E.
Qed.

Lemma dropTrailingQuote_snoc r c :
  JS.dropTrailingQuote (r ++ [c]) = if JS.isQuote c then r else r ++ [c].
Proof.
  unfold JS.dropTrailingQuote. rewrite rev_app_distr. simpl.
  destruct (JS.isQuote c); [apply rev_involutive|done].
Qed.

Lemma dropTrailingQuote_cons a t :
  (t = [] -> JS.isQuote a = false) ->
  JS.dropTrailingQuote (a :: t) = a :: JS.dropTrailingQuote t.
Proof.
  intros H. destruct (list_snoc_cases t) as [->|(t' & d & ->)].
  - change [a] with ([] ++ [a]). rewrite dropTrailingQuote_snoc. by rewrite H.
  - change (a :: t' ++ [d]) with ((a :: t') ++ [d]).
    rewrite !dropTrailingQuote_snoc. by destruct (JS.isQuote d).
Qed.

Lemma matchAt_Finish s i c k :
  matchAt Finish s i c k = if i =? length s then k i c else None.
Proof. reflexivity. Qed.

Lemma matchAt_EDGE_QUOTES s i :
  matchAt JS.EDGE_QUOTES s i [] accept
    = match s !! i with
      | Some a =>
          if JS.isQuote a && ((i =? 0) || (S i =? length s))
          then Some (S i, []) else None
      | None => None
      end.
Proof.
  unfold JS.EDGE_QUOTES.
  rewrite matchAt_Alt, !matchAt_Seq, matchAt_Start, !matchAt_Class.
  destruct (s !! i) as [a|]; [|by destruct (i =? 0)].
  destruct (JS.isQuote a); [|by destruct (i =? 0)].
  rewrite matchAt_Finish. cbv [andb orb accept].
  destruct (i =? 0); [reflexivity|]. destruct (S i =? length s); reflexivity.
Qed.

Lemma deleteFrom_EDGE_QUOTES s i fuel :
  0 < i -> S (length s) - i <= fuel ->
  deleteFrom JS.EDGE_QUOTES s i fuel = JS.dropTrailingQuote (drop i s).
Proof.
  revert i. induction fuel as [|fuel IH]; intros i Hi Hfuel.
  - by rewrite drop_ge by lia.
  - rewrite deleteFrom_eq, matchAt_EDGE_QUOTES.
    destruct (s !! i) as [a|] eqn:Ha.
    + rewrite (drop_S s a i Ha). pose proof (lookup_lt_Some _ _ _ Ha).
      destruct (Nat.eqb_spec i 0); [lia|].
      destruct (JS.isQuote a) eqn:Ea; cbv [andb orb]; cbv iota beta.
      * destruct (Nat.eqb_spec (S i) (length s)) as [Hlast|Hnot]; cbv iota beta.
        -- rewrite (proj2 (Nat.ltb_lt i (S i))) by lia.
           rewrite IH by lia. rewrite drop_ge by lia.
           change [a] with ([] ++ [a]). by rewrite dropTrailingQuote_snoc, Ea.
        -- rewrite IH by lia. simpl. rewrite dropTrailingQuote_cons; [done|].
           intros Hnil. apply (f_equal length) in Hnil.
           rewrite length_drop in Hnil. simpl in Hnil. lia.
      * rewrite IH by lia. simpl. by rewrite dropTrailingQuote_cons.
    + rewrite IH by lia. apply lookup_ge_None in Ha.
      by rewrite !drop_ge by lia.
Qed.

(** The replacement of [stripQuotes] deletes a quote at the start and,
    independently, a quote at the end. *)
Lemma stripQuotes_eq s :
  JS.stripQuotes s = JS.dropTrailingQuote (JS.dropLeadingQuote s).
Proof.
  unfold JS.stripQuotes, deleteAll. rewrite deleteFrom_eq, matchAt_EDGE_QUOTES.
  destruct s as [|a t]; [done|].
  change ((a :: t) !! 0) with (Some a). cbv iota beta. simpl orb. simpl length.
  rewrite andb_true_r. unfold JS.dropLeadingQuote.
  destruct (JS.isQuote a) eqn:Ea.
  - change (0 <? 1) with true. cbv iota.
    rewrite deleteFrom_EDGE_QUOTES by (simpl; lia). done.
  - rewrite deleteFrom_EDGE_QUOTES by (simpl; lia). simpl.
    by rewrite dropTrailingQuote_cons.
Qed.

(** ** Facts about the string methods *)

Lemma trimStart_drop s : exists k, JS.trimStart s = drop k s.
Proof.
  induction s as [|c s [k IH]]; [by exists 0|].
  simpl. destruct (JS.isWhiteSpace c); [by exists (S k)|by exists 0].
Qed.

Lemma trimEnd_take s : exists k, JS.trimEnd s = take k s.
Proof.
  unfold JS.trimEnd. destruct (trimStart_drop (rev s)) as [k ->].
  exists (length s - k). by rewrite skipn_rev, rev_involutive.
Qed.

Lemma trimStart_cut s : cutOf (JS.trimStart s) s.
Proof.
  destruct (trimStart_drop s) as [k ->].
  exists (length s), k. rewrite take_ge; [done|]. rewrite length_drop. lia.
Qed.

Lemma trimEnd_cut s : cutOf (JS.trimEnd s) s.
Proof. destruct (trimEnd_take s) as [k ->]. by exists k, 0. Qed.

Lemma trim_cut s : cutOf (JS.trim s) s.
Proof. eapply cutOf_trans; [apply trimEnd_cut|apply trimStart_cut]. Qed.

Lemma dropLeadingQuote_cut s : cutOf (JS.dropLeadingQuote s) s.
Proof.
  destruct s as [|c s]; [apply cutOf_refl|]. simpl.
  destruct (JS.isQuote c); [apply cutOf_tail|]; apply cutOf_refl.
Qed.

Lemma dropTrailingQuote_cut s : cutOf (JS.dropTrailingQuote s) s.
Proof.
  unfold JS.dropTrailingQuote. destruct (rev s) as [|c r] eqn:E.
  - apply (f_equal (@rev _)) in E. rewrite rev_involutive in E. subst.
    apply cutOf_refl.
  - destruct (JS.isQuote c); [|apply cutOf_refl].
    apply (f_equal (@rev _)) in E. rewrite rev_involutive in E. subst. simpl.
    exists (length (rev r)), 0. by rewrite drop_0, take_app_length.
Qed.

Lemma stripQuotes_cut s : cutOf (JS.stripQuotes s) s.
Proof.
  rewrite stripQuotes_eq. eapply cutOf_trans; [apply dropTrailingQuote_cut|apply dropLeadingQuote_cut].
Qed.

Lemma stripQuotes_quote_shorter c s :
  JS.isQuote c = true -> length (JS.stripQuotes (c :: s)) < length (c :: s).
Proof.
  intros H. rewrite stripQuotes_eq. simpl. rewrite H.
  pose proof (cutOf_length _ _ (dropTrailingQuote_cut s)). simpl. lia.
Qed.

Lemma stripQuotes_trailing_shorter c s :
  JS.isQuote c = true -> length (JS.stripQuotes (s ++ [c])) < length (s ++ [c]).
Proof.
  intros H. rewrite stripQuotes_eq.
  pose proof (cutOf_length _ _ (dropLeadingQuote_cut (s ++ [c]))) as Hle.
  destruct s as [|d s].
  - simpl. rewrite H. simpl. lia.
  - simpl. destruct (JS.isQuote d).
    + pose proof (cutOf_length _ _ (dropTrailingQuote_cut (s ++ [c]))).
      simpl. lia.
    + unfold JS.dropTrailingQuote.
      change (d :: s ++ [c]) with ((d :: s) ++ [c]).
      rewrite rev_app_distr. simpl. rewrite H.
      rewrite rev_app_distr, rev_involutive. simpl.
      rewrite length_app. simpl. lia.
Qed.

(** A plain string is left alone by [trim] and by the quote stripping, and
    carries no quote at either end. *)
Lemma plain_trim s : plain s -> JS.trim s = s.
Proof.
  intros H. apply cutOf_full; [apply trim_cut|].
  pose proof (cutOf_length _ _ (trim_cut s)).
  pose proof (cutOf_length _ _ (stripQuotes_cut (JS.trim s))).
  unfold plain in H. rewrite H in *. lia.
Qed.

Lemma plain_stripQuotes s : plain s -> JS.stripQuotes s = s.
Proof. intros H. pose proof (plain_trim s H) as E. unfold plain in H. by rewrite E in H. Qed.

Lemma startsWith_cons c s : JS.startsWith [c] s = true -> exists r, s = c :: r.
Proof.
  destruct s as [|d r]; simpl; [done|].
  rewrite andb_true_r. intros H%bool_decide_eq_true. subst. by exists r.
Qed.

Lemma endsWith_snoc c s : JS.endsWith [c] s = true -> exists r, s = r ++ [c].
Proof.
  unfold JS.endsWith. simpl. intros [r E]%startsWith_cons.
  exists (rev r). apply (f_equal (@rev _)) in E.
  by rewrite rev_involutive in E.
Qed.

Lemma isQuote_DQ : JS.isQuote DQ = true.
Proof. reflexivity. Qed.

Lemma isQuote_SQ : JS.isQuote SQ = true.
Proof. reflexivity. Qed.

Lemma plain_detectedStyle s : plain s -> detectedStyle s = NoQuotes.
Proof.
  intros H. pose proof (plain_stripQuotes s H) as E.
  unfold detectedStyle.
  destruct (JS.startsWith [DQ] s) eqn:E1.
  { apply startsWith_cons in E1 as [r ->].
    pose proof (stripQuotes_quote_shorter DQ r isQuote_DQ). rewrite E in *. lia. }
  destruct (JS.startsWith [SQ] s) eqn:E2; [|done].
  apply startsWith_cons in E2 as [r ->].
  pose proof (stripQuotes_quote_shorter SQ r isQuote_SQ). rewrite E in *. lia.
Qed.

(** ** [indexOf] on arrays *)

Lemma arrayIndexOfFrom_first (l : list jsstring) x i k :
  l !! i = Some x -> (forall j, j < i -> l !! j <> Some x) ->
  JS.arrayIndexOfFrom x l k = (k + Z.of_nat i)%Z.
Proof.
  revert i k. induction l as [|y l IH]; intros i k Hi Hfirst; [done|].
  simpl. case_bool_decide as E.
  - destruct i as [|i]; [lia|]. exfalso. apply (Hfirst 0); [lia|]. by subst.
  - destruct i as [|i]; [simpl in Hi; congruence|].
    rewrite (IH i); [lia|done|].
    intros j Hj. apply (Hfirst (S j)). lia.
Qed.

Lemma arrayIndexOfFrom_range (l : list jsstring) x k :
  JS.arrayIndexOfFrom x l k = (-1)%Z
  \/ exists i, JS.arrayIndexOfFrom x l k = (k + Z.of_nat i)%Z
               /\ l !! i = Some x /\ forall j, j < i -> l !! j <> Some x.
Proof.
  revert k. induction l as [|y l IH]; intros k; [by left|].
  simpl. case_bool_decide as E.
  - right. exists 0. subst. split; [lia|]. split; [done|]. intros; lia.
  - destruct (IH (k + 1)%Z) as [->|(i & -> & Hi & Hfirst)]; [by left|].
    right. exists (S i). split; [lia|]. split; [done|].
    intros [|j] Hj; simpl; [congruence|]. apply Hfirst. lia.
Qed.

Lemma arrayIndexOf_first (l : list jsstring) x i :
  l !! i = Some x -> (forall j, j < i -> l !! j <> Some x) ->
  JS.arrayIndexOf x l = Z.of_nat i.
Proof. intros. unfold JS.arrayIndexOf. by rewrite (arrayIndexOfFrom_first l x i). Qed.

Lemma arrayIndexOf_found (l : list jsstring) x i :
  JS.arrayIndexOf x l = Z.of_nat i ->
  l !! i = Some x /\ forall j, j < i -> l !! j <> Some x.
Proof.
  unfold JS.arrayIndexOf.
  destruct (arrayIndexOfFrom_range l x 0) as [->|(i' & -> & Hi & Hf)]; [lia|].
  intros H. assert (i' = i) as -> by lia. done.
Qed.

Lemma arrayIndexOfFrom_missing (l : list jsstring) x k :
  (0 <= k)%Z -> JS.arrayIndexOfFrom x l k = (-1)%Z -> x ∉ l.
Proof.
  revert k. induction l as [|y l IH]; intros k Hk; simpl.
  - intros _. apply not_elem_of_nil.
  - case_bool_decide as E; [lia|]. intros H.
    apply not_elem_of_cons. split; [congruence|]. apply (IH (k + 1)%Z); [lia|done].
Qed.

Lemma arrayIndexOf_missing (l : list jsstring) x :
  JS.arrayIndexOf x l = (-1)%Z <-> x ∉ l.
Proof.
  unfold JS.arrayIndexOf. split; [by apply arrayIndexOfFrom_missing|].
  intros Hn. destruct (arrayIndexOfFrom_range l x 0) as [->|(i & _ & Hi & _)]; [done|].
  exfalso. apply Hn. apply list_elem_of_lookup. eauto.
Qed.

Lemma arrayGet_nat {A} (l : list A) (i : nat) : JS.arrayGet l (Z.of_nat i) = l !! i.
Proof.
  unfold JS.arrayGet. destruct (Z.ltb_spec (Z.of_nat i) 0); [lia|].
  by rewrite Nat2Z.id.
Qed.

Lemma rem_successor (i n : nat) :
  0 < n -> Z.rem (Z.of_nat i + 1) (Z.of_nat n) = Z.of_nat ((i + 1) mod n).
Proof.
  intros Hn. rewrite Z.rem_mod_nonneg by lia.
  rewrite Nat2Z.inj_mod. f_equal. lia.
Qed.

(** [getNextValue] in one equation. *)
Lemma getNextValue_eq value G :
  getNextValue value G =
    let t := JS.trim value in
    let i := JS.arrayIndexOf (JS.stripQuotes t) G in
    if (i =? -1)%Z then value
    else wrap (detectedStyle t)
           (default "undefined"
              (JS.arrayGet G (Z.rem (i + 1) (Z.of_nat (length G))))).
Proof.
  unfold getNextValue, detectedStyle. cbv zeta.
  repeat match goal with
         | |- context [if ?b then _ else _] => destruct b
         end; reflexivity.
Qed.

(** The value found at a first index moves to the next slot of the group,
    inside the detected layer. *)
Lemma getNextValue_found value G i :
  JS.arrayIndexOf (JS.stripQuotes (JS.trim value)) G = Z.of_nat i ->
  exists m, G !! ((i + 1) mod length G) = Some m
            /\ getNextValue value G = wrap (detectedStyle (JS.trim value)) m.
Proof.
  intros Hi. pose proof (arrayIndexOf_found _ _ _ Hi) as [Hl _].
  assert (i < length G) as Hlt by (by apply lookup_lt_Some in Hl).
  destruct (lookup_lt_is_Some_2 G ((i + 1) mod length G)) as [m Hm].
  { apply Nat.mod_upper_bound. lia. }
  exists m. split; [done|].
  rewrite getNextValue_eq. simpl. rewrite Hi.
  destruct (Z.eqb_spec (Z.of_nat i) (-1)); [lia|].
  rewrite rem_successor by lia. rewrite arrayGet_nat, Hm. done.
Qed.

Lemma getNextValue_plain_member G v i :
  plain v -> G !! i = Some v -> (forall j, j < i -> G !! j <> Some v) ->
  G !! ((i + 1) mod length G) = Some (getNextValue v G).
Proof.
  intros Hp Hi Hfirst.
  destruct (getNextValue_found v G i) as (m & Hm & ->).
  { rewrite Hp. by apply arrayIndexOf_first. }
  rewrite (plain_trim v Hp), (plain_detectedStyle v Hp). done.
Qed.

Lemma iter_getNextValue G v i k :
  NoDup G -> Forall plain G -> G !! i = Some v ->
  G !! ((i + k) mod length G) = Some (Nat.iter k (fun x => getNextValue x G) v).
Proof.
  intros Hnd Hpl Hi.
  assert (i < length G) as Hlt by (by apply lookup_lt_Some in Hi).
  induction k as [|k IH].
  - rewrite Nat.add_0_r, Nat.mod_small by done. done.
  - simpl. set (x := Nat.iter k _ v) in *.
    replace ((i + S k) mod length G)
      with (((i + k) mod length G + 1) mod length G).
    + apply getNextValue_plain_member; [|done|].
      * rewrite Forall_forall in Hpl. apply Hpl.
        apply list_elem_of_lookup. eauto.
      * intros j Hj Hl.
        pose proof (NoDup_lookup G _ _ _ Hnd Hl IH). lia.
    + rewrite Nat.Div0.add_mod_idemp_l. f_equal. lia.
Qed.

(** ** Quoted values *)

Lemma isWhiteSpace_DQ : JS.isWhiteSpace DQ = false.
Proof. reflexivity. Qed.

Lemma isWhiteSpace_SQ : JS.isWhiteSpace SQ = false.
Proof. reflexivity. Qed.

Lemma trim_edges c d s :
  JS.isWhiteSpace c = false -> JS.isWhiteSpace d = false ->
  JS.trim (c :: s ++ [d]) = c :: s ++ [d].
Proof.
  intros Hc Hd. unfold JS.trim. simpl. rewrite Hc.
  unfold JS.trimEnd. change (c :: s ++ [d]) with ((c :: s) ++ [d]).
  rewrite rev_app_distr. simpl. rewrite Hd.
  change (d :: rev s ++ [c]) with ([d] ++ rev (c :: s)).
  rewrite rev_app_distr, rev_involutive. done.
Qed.

Lemma stripQuotes_edges c d s :
  JS.isQuote c = true -> JS.isQuote d = true ->
  JS.stripQuotes (c :: s ++ [d]) = s.
Proof.
  intros Hc Hd. rewrite stripQuotes_eq. simpl. rewrite Hc.
  unfold JS.dropTrailingQuote. rewrite rev_app_distr. simpl. rewrite Hd.
  apply rev_involutive.
Qed.

Lemma startsWith_head c s : JS.startsWith [c] (c :: s) = true.
Proof. simpl. by rewrite bool_decide_eq_true_2. Qed.

Lemma endsWith_last c s : JS.endsWith [c] (s ++ [c]) = true.
Proof.
  unfold JS.endsWith. rewrite rev_app_distr. simpl.
  by rewrite bool_decide_eq_true_2.
Qed.

Lemma detectedStyle_wrap q u :
  (q = NoQuotes -> plain u) -> detectedStyle (wrap q u) = q.
Proof.
  intros Hp. destruct q; unfold wrap.
  - by apply plain_detectedStyle, Hp.
  - unfold detectedStyle. rewrite startsWith_head.
    change (DQ :: u ++ [DQ]) with ((DQ :: u) ++ [DQ]). by rewrite endsWith_last.
  - unfold detectedStyle.
    change (JS.startsWith [DQ] (SQ :: u ++ [SQ])) with false. cbv iota beta.
    rewrite startsWith_head.
    change (SQ :: u ++ [SQ]) with ((SQ :: u) ++ [SQ]). by rewrite endsWith_last.
Qed.

Lemma trim_wrap q u : (q = NoQuotes -> plain u) -> JS.trim (wrap q u) = wrap q u.
Proof.
  intros Hp. destruct q; unfold wrap.
  - by apply plain_trim, Hp.
  - by apply trim_edges.
  - by apply trim_edges.
Qed.

Lemma stripQuotes_wrap q u :
  (q = NoQuotes -> plain u) -> JS.stripQuotes (wrap q u) = u.
Proof.
  intros Hp. destruct q; unfold wrap.
  - by apply plain_stripQuotes, Hp.
  - by apply stripQuotes_edges.
  - by apply stripQuotes_edges.
Qed.

(** ** The matcher *)

Lemma includes_true x l : JS.includes x l = true <-> x ∈ l.
Proof. unfold JS.includes. apply bool_decide_eq_true. Qed.

Lemma findGroup_step u group rest :
  findGroup u (group :: rest) =
    if bool_decide (groupMatches u group) then Some group else findGroup u rest.
Proof.
  simpl. unfold JS.includes, groupMatches.
  repeat case_bool_decide; tauto || done.
Qed.

Lemma findGroup_Some u groups g :
  findGroup u groups = Some g <->
  exists before after,
    groups = before ++ g :: after /\ groupMatches u g
    /\ Forall (fun g' => ~ groupMatches u g') before.
Proof.
  induction groups as [|group rest IH].
  - split; [done|]. intros (b & a & H & _). by destruct b.
  - rewrite findGroup_step. case_bool_decide as Hm.
    + split.
      * intros [= <-]. exists [], rest. by repeat split.
      * intros (b & a & H & Hg & Hb). destruct b as [|g0 b].
        -- simpl in H. congruence.
        -- simpl in H. injection H as <- _. by apply Forall_cons in Hb as [? _].
    + rewrite IH. split.
      * intros (b & a & -> & Hg & Hb). exists (group :: b), a.
        split; [done|]. split; [done|]. by apply Forall_cons.
      * intros (b & a & H & Hg & Hb). destruct b as [|g0 b].
        -- simpl in H. injection H as <- _. done.
        -- simpl in H. injection H as <- ->. apply Forall_cons in Hb as [_ Hb].
           by exists b, a.
Qed.

Lemma findGroup_None u groups :
  findGroup u groups = None <-> Forall (fun g => ~ groupMatches u g) groups.
Proof.
  induction groups as [|group rest IH]; [by split|].
  rewrite findGroup_step. case_bool_decide as Hm.
  - split; [done|]. by intros [? _]%Forall_cons.
  - rewrite IH. split; [intros H; by apply Forall_cons|by intros [_ ?]%Forall_cons].
Qed.

(** C6: the groups are searched in table order; a group matches when it
    holds the normalized value verbatim or under case-insensitive
    comparison; the first matching group is the one returned, as it is
    configured.  The value yes against the group YES, NO is toggleable with
    that group. *)
Theorem findToggleValues_first_match (value : jsstring) (groups : list (list jsstring)) :
  let u := unquotedValueOf value in
  (forall g, findToggleValues value groups = Some g <->
     u <> [] /\ exists before after,
       groups = before ++ g :: after /\ groupMatches u g
       /\ Forall (fun g' => ~ groupMatches u g') before)
  /\ (findToggleValues value groups = None <->
        u = [] \/ Forall (fun g => ~ groupMatches u g) groups)
  /\ (isToggleable <$> parseLine "FLAG=yes" 0 [["YES"; "NO"]]) = Some true
  /\ (toggleValues <$> parseLine "FLAG=yes" 0 [["YES"; "NO"]])
       = Some (Some ["YES"; "NO"]).
Proof.
  intros u. unfold findToggleValues. fold u. split; [|split; [|split]].
  - intros g. case_bool_decide as Hu.
    + split; [done|by intros [? _]].
    + rewrite findGroup_Some. split; [intros H; by split|by intros [_ H]].
  - case_bool_decide as Hu.
    + split; [by left|done].
    + rewrite findGroup_None. split; [by right|by intros [?|?]].
  - vm_compute. reflexivity.
  - vm_compute. reflexivity.
Qed.

(** ** The resolver *)

(** C3, amended: in a group of distinct plain members (no white space
    around a member, no quote character at either end of it), the member at
    index i moves to the member at index i+1 modulo the size of the group,
    and as many steps as the group has members lead back to it. *)
Theorem getNextValue_cycle (G : list jsstring) (v : jsstring) (i : nat) :
  NoDup G -> Forall plain G -> G !! i = Some v ->
  G !! ((i + 1) mod length G) = Some (getNextValue v G)
  /\ Nat.iter (length G) (fun x => getNextValue x G) v = v.
Proof.
  intros Hnd Hpl Hi. split.
  - apply getNextValue_plain_member; [|done|].
    + rewrite Forall_forall in Hpl. apply Hpl, list_elem_of_lookup. eauto.
    + intros j Hj Hl. pose proof (NoDup_lookup G _ _ _ Hnd Hl Hi). lia.
  - pose proof (iter_getNextValue G v i (length G) Hnd Hpl Hi) as H.
    assert (i < length G) as Hlt by (by apply lookup_lt_Some in Hi).
    replace ((i + length G) mod length G) with i in H.
    + congruence.
    + rewrite <- Nat.Div0.add_mod_idemp_r, Nat.Div0.mod_same, Nat.add_0_r.
      by rewrite Nat.mod_small.
Qed.

Lemma getNextValue_cycle_witness :
  ["true"; "false"] !! ((1 + 1) mod 2) = Some (getNextValue "false" ["true"; "false"])
  /\ Nat.iter 2 (fun x => getNextValue x ["true"; "false"]) "false" = "false".
Proof.
  apply (getNextValue_cycle ["true"; "false"] "false" 1).
  - apply (bool_decide_unpack _). vm_compute. reflexivity.
  - repeat constructor.
  - reflexivity.
Defined.

(** A group of two distinct members whose first member is written with
    quotes: the member is not found and comes back unchanged. *)
Lemma quoted_member_not_advanced :
  ~ (forall (G : list jsstring) v i,
       NoDup G -> 2 <= length G -> G !! i = Some v ->
       G !! ((i + 1) mod length G) = Some (getNextValue v G)).
Proof.
  intros H.
  specialize (H [SQ :: "on" ++ [SQ]; "off"] (SQ :: "on" ++ [SQ]) 0).
  assert (NoDup [SQ :: "on" ++ [SQ]; "off"]) as Hnd.
  { apply (bool_decide_unpack _). vm_compute. reflexivity. }
  specialize (H Hnd ltac:(simpl; lia) eq_refl).
  vm_compute in H. discriminate H.
Qed.

Lemma getNextValue_not_found value G :
  JS.arrayIndexOf (JS.stripQuotes (JS.trim value)) G = (-1)%Z ->
  getNextValue value G = value.
Proof. intros H. rewrite getNextValue_eq. simpl. by rewrite H. Qed.

Lemma keepsQuoteLayer_wrap q u G :
  u ∈ G -> (q = NoQuotes -> plain u) -> keepsQuoteLayer (wrap q u) G.
Proof.
  intros Hu Hp.
  destruct (arrayIndexOfFrom_range G u 0) as [E|(i & E & _)].
  { by apply arrayIndexOf_missing in E. }
  destruct (getNextValue_found (wrap q u) G i) as (m & Hm & Hr).
  { by rewrite (trim_wrap q u Hp), (stripQuotes_wrap q u Hp). }
  exists q, u, m. split; [done|]. split; [done|]. split.
  - apply list_elem_of_lookup. eauto.
  - by rewrite Hr, (trim_wrap q u Hp), (detectedStyle_wrap q u Hp).
Qed.

(** ** Normalization *)

Lemma isQuote_cases c : JS.isQuote c = true -> c = DQ \/ c = SQ.
Proof.
  unfold JS.isQuote. intros [H|H]%orb_true_iff; apply bool_decide_eq_true in H; auto.
Qed.

Lemma startsWith_quote c r :
  (JS.startsWith [DQ] (c :: r) || JS.startsWith [SQ] (c :: r)) = JS.isQuote c.
Proof.
  unfold JS.isQuote. simpl. rewrite !andb_true_r.
  repeat case_bool_decide; subst; done.
Qed.

Lemma endsWith_quote r c :
  (JS.endsWith [DQ] (r ++ [c]) || JS.endsWith [SQ] (r ++ [c])) = JS.isQuote c.
Proof.
  unfold JS.endsWith. rewrite rev_app_distr. apply startsWith_quote.
Qed.

Lemma stripQuotes_edges_spec (t : jsstring) :
  exists a b,
    t = a ++ JS.stripQuotes t ++ b
    /\ (a = [] \/ a = [DQ] \/ a = [SQ])
    /\ (b = [] \/ b = [DQ] \/ b = [SQ])
    /\ (a = [] <-> (JS.startsWith [DQ] t || JS.startsWith [SQ] t) = false)
    /\ (b = [] <->
          (JS.endsWith [DQ] t || JS.endsWith [SQ] t) = false \/ length t <= 1).
Proof.
  rewrite stripQuotes_eq. destruct t as [|c r].
  { exists [], []. repeat split; auto. }
  assert (forall s : jsstring, exists b,
            s = JS.dropTrailingQuote s ++ b
            /\ (b = [] \/ b = [DQ] \/ b = [SQ])
            /\ (b = [] <->
                  (JS.endsWith [DQ] s || JS.endsWith [SQ] s) = false \/ s = []))
    as Htrail.
  { intros s. destruct (list_snoc_cases s) as [->|(r' & d & ->)].
    - exists []. repeat split; auto.
    - rewrite dropTrailingQuote_snoc, endsWith_quote.
      destruct (JS.isQuote d) eqn:Ed.
      + exists [d]. split; [done|]. split.
        * destruct (isQuote_cases d Ed) as [->| ->]; auto.
        * split; [done|]. intros [?|?]; [done|]. by destruct r'.
      + exists []. rewrite app_nil_r. repeat split; auto. }
  rewrite startsWith_quote. simpl. destruct (JS.isQuote c) eqn:Ec.
  - destruct (Htrail r) as (b & Hb & Hb' & Hb'').
    exists [c], b. split; [simpl; by f_equal|]. split.
    { destruct (isQuote_cases c Ec) as [->| ->]; auto. }
    split; [done|]. split; [done|].
    rewrite Hb''. destruct (list_snoc_cases r) as [->|(r' & d & ->)].
    + split; [intros _; right; simpl; lia|by right].
    + change (c :: r' ++ [d]) with ((c :: r') ++ [d]). rewrite !endsWith_quote.
      split.
      * intros [?|?]; [by left|]. by destruct r'.
      * intros [?|Hl]; [by left|]. simpl in Hl. rewrite length_app in Hl.
        simpl in Hl. lia.
  - destruct (Htrail (c :: r)) as (b & Hb & Hb' & Hb'').
    exists [], b. split; [done|]. split; [auto|]. split; [done|].
    split; [done|]. rewrite Hb''. split.
    + intros [?|?]; [by left|done].
    + intros [?|Hl]; [by left|]. left.
      destruct r as [|d r]; [|simpl in Hl; lia].
      change [c] with ([] ++ [c]). by rewrite endsWith_quote.
Qed.

(** ** Searching a string *)

Lemma searchFrom_char c (A B : jsstring) pos :
  c ∉ A -> JS.searchFrom [c] (A ++ c :: B) pos = Some (pos + length A).
Proof.
  revert pos. induction A as [|a A IH]; intros pos Hc.
  - simpl. rewrite bool_decide_eq_true_2 by done. simpl. f_equal. lia.
  - apply not_elem_of_cons in Hc as [Hne Hc]. simpl.
    rewrite bool_decide_eq_false_2 by done. simpl.
    rewrite (IH (S pos) Hc). f_equal. lia.
Qed.

Lemma searchFrom_bound needle hay pos j :
  j <= length hay -> JS.startsWith needle (drop j hay) = true ->
  exists p, JS.searchFrom needle hay pos = Some p /\ pos <= p <= pos + j.
Proof.
  revert hay pos. induction j as [|j IH]; intros hay pos Hj Hs.
  - rewrite drop_0 in Hs. exists pos. destruct hay; simpl in *; rewrite Hs; split; (done || lia).
  - destruct hay as [|h hay]; [simpl in Hj; lia|].
    simpl JS.searchFrom. destruct (JS.startsWith needle (h :: hay)).
    + exists pos. split; [done|lia].
    + destruct (IH hay (S pos)) as (p & Hp & Hb); [simpl in Hj; lia|done|].
      exists p. split; [done|lia].
Qed.

Lemma indexOf_char c (A B : jsstring) (p : nat) :
  c ∉ A -> p <= length A ->
  JS.indexOf [c] (A ++ c :: B) (Z.of_nat p) = Z.of_nat (length A).
Proof.
  intros Hc Hp. unfold JS.indexOf. rewrite Nat2Z.id.
  rewrite Nat.min_l by (rewrite length_app; lia).
  rewrite drop_app_le by done.
  rewrite searchFrom_char.
  - f_equal. rewrite length_drop. lia.
  - intros Hin. apply Hc. by apply (subseteq_drop p A).
Qed.

Lemma indexOf_occurrence needle (A B : jsstring) :
  exists p, JS.indexOf needle (A ++ needle ++ B) 0 = Z.of_nat p /\ p <= length A.
Proof.
  unfold JS.indexOf. simpl. rewrite drop_0.
  destruct (searchFrom_bound needle (A ++ needle ++ B) 0 (length A)) as (p & -> & Hp).
  - rewrite length_app. lia.
  - rewrite drop_app_length. apply startsWith_app. by exists B.
  - exists p. split; [done|lia].
Qed.

(** ** Trimming *)

Lemma trimStart_spec s : exists a, s = a ++ JS.trimStart s /\ blank a.
Proof.
  induction s as [|c s (a & IH & Ha)].
  { exists []. split; [done|constructor]. }
  simpl. destruct (JS.isWhiteSpace c) eqn:E.
  - exists (c :: a). split; [simpl; by f_equal|by constructor].
  - exists []. split; [done|constructor].
Qed.

Lemma trimEnd_spec s : exists b, s = JS.trimEnd s ++ b /\ blank b.
Proof.
  unfold JS.trimEnd. destruct (trimStart_spec (rev s)) as (a & Ha & Hb).
  exists (rev a). split.
  - apply (f_equal (@rev _)) in Ha. by rewrite rev_involutive, rev_app_distr in Ha.
  - by apply List.Forall_rev.
Qed.

Lemma trimStart_snoc s c :
  JS.isWhiteSpace c = false -> exists r, JS.trimStart (s ++ [c]) = r ++ [c].
Proof.
  intros Hc. induction s as [|d s [r IH]].
  - exists []. simpl. by rewrite Hc.
  - simpl. destruct (JS.isWhiteSpace d); [by exists r|by exists (d :: s)].
Qed.

Lemma trimEnd_head c r :
  JS.isWhiteSpace c = false -> exists r', JS.trimEnd (c :: r) = c :: r'.
Proof.
  intros Hc. unfold JS.trimEnd. simpl.
  destruct (trimStart_snoc (rev r) c Hc) as [x ->].
  exists (rev x). by rewrite rev_app_distr.
Qed.

Lemma trimStart_fixed s :
  JS.trimStart s = s <-> s = [] \/ exists c r, s = c :: r /\ JS.isWhiteSpace c = false.
Proof.
  split.
  - destruct s as [|c r]; [by left|]. simpl.
    destruct (JS.isWhiteSpace c) eqn:E.
    + intros H. pose proof (cutOf_length _ _ (trimStart_cut r)) as Hl.
      rewrite H in Hl. simpl in Hl. lia.
    + right. by exists c, r.
  - intros [->|(c & r & -> & Hc)]; [done|]. simpl. by rewrite Hc.
Qed.

Lemma trimStart_idem s : JS.trimStart (JS.trimStart s) = JS.trimStart s.
Proof.
  induction s as [|c s IH]; [done|]. simpl.
  destruct (JS.isWhiteSpace c) eqn:E; [done|]. simpl. by rewrite E.
Qed.

Lemma trimEnd_idem s : JS.trimEnd (JS.trimEnd s) = JS.trimEnd s.
Proof. unfold JS.trimEnd. by rewrite rev_involutive, trimStart_idem. Qed.

(** A string that starts with no white space is trimmed at its end only,
    and trimming it again changes nothing. *)
Lemma trim_of_trimStart_fixed s :
  JS.trimStart s = s ->
  JS.trim s = JS.trimEnd s /\ JS.trim (JS.trimEnd s) = JS.trimEnd s.
Proof.
  intros Hs. unfold JS.trim. rewrite Hs. split; [done|].
  apply trimStart_fixed in Hs as [->|(c & r & -> & Hc)]; [done|].
  destruct (trimEnd_head c r Hc) as [r' E]. rewrite E. simpl. rewrite Hc.
  by rewrite <- E, trimEnd_idem.
Qed.

(** Plain strings are the strings with no white space and no quote
    character at either end. *)
Lemma plain_iff s :
  plain s <->
  (forall c r, s = c :: r -> JS.isWhiteSpace c = false /\ JS.isQuote c = false)
  /\ (forall r c, s = r ++ [c] -> JS.isWhiteSpace c = false /\ JS.isQuote c = false).
Proof.
  split.
  - intros H. pose proof (plain_trim s H) as Ht.
    pose proof (plain_stripQuotes s H) as Hq.
    assert (JS.trimStart s = s) as Hstart.
    { apply cutOf_full; [apply trimStart_cut|].
      pose proof (cutOf_length _ _ (trimStart_cut s)).
      pose proof (cutOf_length _ _ (trimEnd_cut (JS.trimStart s))).
      unfold JS.trim in Ht. rewrite Ht in *. lia. }
    assert (JS.trimEnd s = s) as Hend.
    { unfold JS.trim in Ht. by rewrite Hstart in Ht. }
    split.
    + intros c r ->. split.
      * apply trimStart_fixed in Hstart as [?|(c' & r' & [= <- <-] & ?)]; done.
      * destruct (JS.isQuote c) eqn:E; [|done].
        pose proof (stripQuotes_quote_shorter c r E). rewrite Hq in *. lia.
    + intros r c ->. split.
      * destruct (JS.isWhiteSpace c) eqn:E; [|done].
        unfold JS.trimEnd in Hend. rewrite rev_app_distr in Hend. simpl in Hend.
        rewrite E in Hend. apply (f_equal length) in Hend.
        rewrite length_rev, length_app in Hend. simpl in Hend.
        pose proof (cutOf_length _ _ (trimStart_cut (rev r))) as Hl.
        rewrite length_rev in Hl. lia.
      * destruct (JS.isQuote c) eqn:E; [|done].
        pose proof (stripQuotes_trailing_shorter c r E). rewrite Hq in *. lia.
  - intros [Hhead Hlast]. unfold plain.
    destruct s as [|c r]; [reflexivity|].
    destruct (Hhead c r eq_refl) as [Hcs Hcq].
    destruct (list_snoc_cases (c :: r)) as [?|(r' & d & E)]; [done|].
    destruct (Hlast r' d E) as [Hds Hdq].
    assert (JS.trim (c :: r) = c :: r) as ->.
    { unfold JS.trim. simpl JS.trimStart. rewrite Hcs.
      unfold JS.trimEnd. rewrite E, rev_app_distr. simpl. rewrite Hds.
      simpl. by rewrite rev_involutive. }
    rewrite stripQuotes_eq. simpl JS.dropLeadingQuote. rewrite Hcq.
    by rewrite E, dropTrailingQuote_snoc, Hdq.
Qed.

(** ** The line parser *)

Lemma parseLine_Some text n groups e :
  parseLine text n groups = Some e ->
  exists k raw,
    Regex.scan (JS.removeCR text) = Some (k, raw)
    /\ value e = JS.trim raw
    /\ line e = n
    /\ rawLine e = text
    /\ toggleValues e = findToggleValues (JS.trim raw) groups
    /\ isToggleable e = bool_decide (toggleValues e <> None)
    /\ valueEnd e = (valueStart e + Z.of_nat (length (JS.trim raw)))%Z
    /\ valueStart e =
         (let equalsIndex :=
            JS.indexOf "=" (JS.removeCR text) (JS.indexOf k (JS.removeCR text) 0) in
          let afterEquals := JS.substringFrom (JS.removeCR text) (equalsIndex + 1) in
          equalsIndex + 1
          + (Z.of_nat (length afterEquals)
             - Z.of_nat (length (JS.trimStart afterEquals))))%Z.
Proof.
  unfold parseLine. destruct (_ || _); [done|].
  pose proof (KEY_VALUE_REGEX_scan (JS.removeCR text)) as Hscan.
  destruct (RegExp.exec KEY_VALUE_REGEX (JS.removeCR text)) as [[[i j] c]|];
    [|done].
  intros [= <-].
  exists (RegExp.group (JS.removeCR text) c 1), (RegExp.group (JS.removeCR text) c 2).
  split; [by rewrite <- Hscan|]. done.
Qed.

(** C7: the span of an entry bounds exactly the trimmed value: in the line
    without its carriage returns, the text before the equals sign holds no
    equals sign, only white space stands between the equals sign and
    valueStart, the value fills the span from valueStart to valueEnd and has
    no white space at either end, only white space follows valueEnd, and
    0 <= valueStart <= valueEnd <= the length of that line.  For the line
    FOO = "bar" followed by two spaces the span is 6 to 11. *)
Theorem parseLine_value_span :
  (forall text n groups e,
     parseLine text n groups = Some e ->
     exists before ws1 ws2,
       JS.removeCR text = before ++ "=" ++ ws1 ++ value e ++ ws2
       /\ (EQUALS ∉ before) /\ blank ws1 /\ blank ws2
       /\ JS.trim (value e) = value e
       /\ valueStart e = Z.of_nat (length before + 1 + length ws1)
       /\ valueEnd e = (valueStart e + Z.of_nat (length (value e)))%Z
       /\ (0 <= valueStart e <= valueEnd e)%Z
       /\ (valueEnd e <= Z.of_nat (length (JS.removeCR text)))%Z
       /\ JS.substring (JS.removeCR text) (valueStart e) (valueEnd e) = value e)
  /\ ((fun e => (value e, valueStart e, valueEnd e))
        <$> parseLine ("FOO = " ++ [DQ] ++ "bar" ++ [DQ] ++ "  ") 0 defaultToggleValues)
     = Some (DQ :: "bar" ++ [DQ], 6%Z, 11%Z).
Proof.
  split; [|vm_compute; reflexivity].
  intros text n groups e (k & raw & Hm & Hv & _ & _ & _ & _ & Hend & Hstart)%parseLine_Some.
  apply scan_spec in Hm
    as (pre & ws0 & ws1 & Hs & Hpre & Hk & Hkc & Hws0 & Hws1 & Hraw).
  set (clean := JS.removeCR text) in *.
  set (before := pre ++ k ++ ws0).
  assert (clean = before ++ EQUALS :: (ws1 ++ raw)) as Hclean.
  { rewrite Hs. unfold before. by rewrite <- !app_assoc. }
  assert (EQUALS ∉ before) as Hbefore.
  { unfold before. rewrite !elem_of_app. intros [?|[Hin|Hin]]; [done| |].
    - rewrite Forall_forall in Hkc. by apply Hkc, isKeyChar_not_equals in Hin.
    - unfold blank in Hws0. rewrite Forall_forall in Hws0.
      by apply Hws0, isWhiteSpace_not_equals in Hin. }
  destruct (indexOf_occurrence k pre (ws0 ++ "=" ++ ws1 ++ raw)) as (p & Hp & Hple).
  rewrite <- Hs in Hp. rewrite Hp in Hstart.
  assert (JS.indexOf "=" clean (Z.of_nat p) = Z.of_nat (length before)) as Heq.
  { rewrite Hclean. apply indexOf_char; [done|]. unfold before.
    rewrite length_app. lia. }
  rewrite Heq in Hstart. cbv zeta in Hstart.
  assert (JS.substringFrom clean (Z.of_nat (length before) + 1) = ws1 ++ raw) as Hafter.
  { unfold JS.substringFrom. rewrite Hclean.
    replace (Z.to_nat (Z.of_nat (length before) + 1)) with (length before + 1) by lia.
    rewrite <- drop_drop, drop_app_length. done. }
  rewrite Hafter in Hstart.
  rewrite (trimStart_blank_app ws1 raw Hws1), Hraw, length_app in Hstart.
  destruct (trim_of_trimStart_fixed raw Hraw) as [Htrim Hidem].
  destruct (trimEnd_spec raw) as (ws2 & Hraw2 & Hws2).
  rewrite <- Htrim, <- Hv in Hraw2. rewrite <- Hv in Hend.
  exists before, ws1, ws2.
  assert (clean = (before ++ "=" ++ ws1) ++ value e ++ ws2) as Hsplit.
  { rewrite Hclean, Hraw2 at 1. by rewrite <- !app_assoc. }
  assert (valueStart e = Z.of_nat (length before + 1 + length ws1)) as Hvs by lia.
  split; [by rewrite Hsplit, <- !app_assoc|].
  split; [done|]. split; [done|]. split; [done|].
  split; [by rewrite Hv, Htrim|].
  split; [done|]. split; [done|]. split; [lia|]. split.
  - rewrite Hsplit, !length_app. simpl. lia.
  - unfold JS.substring. rewrite Hend, Hvs.
    replace (Z.to_nat _ - Z.to_nat _) with (length (value e)) by lia.
    rewrite Nat2Z.id, Hsplit.
    replace (length before + 1 + length ws1) with (length (before ++ "=" ++ ws1))
      by (rewrite !length_app; simpl; lia).
    by rewrite drop_app_length, take_app_length.
Qed.

Lemma parseLine_value_span_witness :
  exists e before ws1 ws2,
    parseLine "export  DEBUG = true  " 3 defaultToggleValues = Some e
    /\ JS.removeCR "export  DEBUG = true  " = before ++ "=" ++ ws1 ++ value e ++ ws2
    /\ valueStart e = 16%Z /\ valueEnd e = 20%Z.
Proof.
  destruct (parseLine "export  DEBUG = true  " 3 defaultToggleValues) as [e|] eqn:E;
    [|vm_compute in E; discriminate E].
  destruct (proj1 parseLine_value_span _ _ _ _ E)
    as (before & ws1 & ws2 & H & _).
  exists e, before, ws1, ws2. split; [done|]. split; [done|].
  vm_compute in E. injection E as <-. split; reflexivity.
Defined.

(** ** The toggle service *)

Section ToggleFacts.

Context (vscode : VSCode) (git : GitignoreService).

(** The run of each entry point, step by step, after the warning. *)
Lemma toggle_run uri atLine w :
  toggle vscode git uri atLine w =
    match afterWarning git uri w with
    | None => (Normal cancelled, w)
    | Some w1 =>
        match documents w1 !! uri with
        | None => (Normal (failure (openFailure vscode uri)), w1)
        | Some content =>
            match List.find (fun e => (line e =? atLine)%Z)
                    (parseLines (JS.splitLines content) 0
                       (cfgToggleValues (configuration w1))) with
            | None => (Normal (failure (noEntryMessage atLine)), w1)
            | Some entry =>
                match isToggleable entry, toggleValues entry with
                | true, Some group =>
                    let v := getNextValue (value entry) group in
                    let w2 := setShown (shown w1 ++ [uri]) w1 in
                    match editorEdit vscode content atLine
                            (valueStart entry) (valueEnd entry) v with
                    | Some edited =>
                        (Normal (toggled v),
                         setDocuments (<[uri := edited]> (documents w2)) w2)
                    | None => (Normal (failure "Failed to apply edit"), w2)
                    end
                | _, _ =>
                    (Normal (failure (notToggleableMessage (value entry))), w1)
                end
            end
        end
    end.
Proof.
  unfold toggle, afterWarning, tryCatch, bind, gets, modify, ret, lift,
    openTextDocument, parseFile.
  destruct (cfgShowGitignoreWarning (configuration w)); simpl;
    [destruct (bool_decide (uri ∈ acknowledgedFiles w)); simpl;
     [|destruct (isIgnored git uri w); simpl;
       [|destruct (showWarning git uri w); simpl; [| done |]]]|];
    repeat (match goal with
            | |- context [match ?x with _ => _ end] =>
                lazymatch x with
                | context [match _ with _ => _ end] => fail
                | _ => destruct x eqn:?; simpl
                end
            end); try done; try congruence.
Qed.

Lemma toggleSilent_run uri atLine w :
  toggleSilent vscode git uri atLine w =
    match afterWarning git uri w with
    | None => (Normal cancelled, w)
    | Some w1 =>
        match documents w1 !! uri with
        | None => (Normal (failure (openFailure vscode uri)), w1)
        | Some content =>
            match List.find (fun e => (line e =? atLine)%Z)
                    (parseLines (JS.splitLines content) 0
                       (cfgToggleValues (configuration w1))) with
            | None => (Normal (failure (noEntryMessage atLine)), w1)
            | Some entry =>
                match isToggleable entry, toggleValues entry with
                | true, Some group =>
                    let v := getNextValue (value entry) group in
                    match workspaceApplyEdit vscode content atLine
                            (valueStart entry) (valueEnd entry) v with
                    | Some edited =>
                        (Normal (toggled v),
                         setDocuments (<[uri := edited]> (documents w1)) w1)
                    | None => (Normal (failure "Failed to apply edit"), w1)
                    end
                | _, _ =>
                    (Normal (failure (notToggleableMessage (value entry))), w1)
                end
            end
        end
    end.
Proof.
  unfold toggleSilent, afterWarning, tryCatch, bind, gets, modify, ret, lift,
    openTextDocument, parseFile.
  destruct (cfgShowGitignoreWarning (configuration w)); simpl;
    [destruct (bool_decide (uri ∈ acknowledgedFiles w)); simpl;
     [|destruct (isIgnored git uri w); simpl;
       [|destruct (showWarning git uri w); simpl; [| done |]]]|];
    repeat (match goal with
            | |- context [match ?x with _ => _ end] =>
                lazymatch x with
                | context [match _ with _ => _ end] => fail
                | _ => destruct x eqn:?; simpl
                end
            end); try done; try congruence.
Qed.

End ToggleFacts.

Lemma afterWarning_documents git u w w1 :
  afterWarning git u w = Some w1 ->
  configuration w1 = configuration w /\ shown w1 = shown w
  /\ (documents w1 = documents w
      \/ showWarning git u w = ChoiceGitignore
         /\ documents w1 = addToGitignore git u (documents w)).
Proof.
  unfold afterWarning. destruct (_ && _).
  - destruct (showWarning git u w) eqn:E; intros [= <-]; simpl; auto.
  - intros [= <-]. auto.
Qed.

(** Line numbers below two to the 53 are counted exactly; beyond, the sum
    is rounded to a double and printed with the digits that tell it from
    its neighbours. *)
Lemma plus_exact a b : (Z.abs (a + b) < 2 ^ 53)%Z -> JS.plus a b = (a + b)%Z.
Proof.
  intros H. unfold JS.plus, JS.toNumber.
  destruct (Z.leb_spec (Z.log2 (Z.abs (a + b)) + 1 - 53) 0) as [_|Hlog]; [done|].
  exfalso. destruct (Z.eq_dec (Z.abs (a + b)) 0%Z) as [E|E].
  - rewrite E in Hlog. simpl in Hlog. lia.
  - assert (Z.log2 (Z.abs (a + b)) < 53)%Z; [|lia].
    apply Z.log2_lt_pow2; lia.
Qed.

Lemma noEntryMessage_samples :
  noEntryMessage 5 = "No entry found at line 6"
  /\ noEntryMessage (-1) = "No entry found at line 0"
  /\ noEntryMessage 9007199254740991 = "No entry found at line 9007199254740992"
  /\ noEntryMessage 9007199254740992 = "No entry found at line 9007199254740992"
  /\ noEntryMessage 1152921504606846976
     = "No entry found at line 1152921504606847000".
Proof. repeat split; by vm_compute. Qed.

Lemma addToGitignore_elsewhere host u docs p :
  (forall folder, getWorkspaceFolder host u = Some folder ->
     p <> pathJoin host folder ".gitignore") ->
  (Gitignore.addToGitignore host u docs).2 !! p = docs !! p.
Proof.
  intros Hp. unfold Gitignore.addToGitignore.
  destruct (getWorkspaceFolder host u) as [folder|]; [|done].
  specialize (Hp folder eq_refl). cbv zeta.
  destruct (JS.includes _ _); [done|]. destruct (writeFails _ _); [done|].
  cbn [snd]. by rewrite lookup_insert_ne.
Qed.

(** C2, amended: when the file as it is parsed for the request has no
    entry at the requested line, or the entry there is not toggleable, both
    entry points return a failure result that names the reason, nothing is
    thrown, and the world they leave is the one the warning step left: the
    toggle itself makes no edit and writes no document.  The warning step
    runs before the file is parsed: when the user answers it with Add to
    .gitignore, the gitignore service has written by the time the request
    is rejected.  The content of the toggled file is unchanged whenever that
    write leaves the toggled file alone; with the gitignore service of the
    sources that is every file but the .gitignore of its own workspace
    folder. *)
Theorem toggle_rejected (vscode : VSCode) (git : GitignoreService)
    (u : jsstring) (atLine : Z) (w w1 : World) (content : jsstring) :
  afterWarning git u w = Some w1 ->
  documents w1 !! u = Some content ->
  let found :=
    List.find (fun e => (line e =? atLine)%Z)
      (parseLines (JS.splitLines content) 0 (cfgToggleValues (configuration w1))) in
  (found = None
   \/ exists e, found = Some e /\ (isToggleable e = false \/ toggleValues e = None)) ->
  let message :=
    match found with
    | None => noEntryMessage atLine
    | Some e => notToggleableMessage (value e)
    end in
  toggle vscode git u atLine w = (Normal (failure message), w1)
  /\ toggleSilent vscode git u atLine w = (Normal (failure message), w1)
  /\ (documents w1 = documents w
      \/ showWarning git u w = ChoiceGitignore
         /\ documents w1 = addToGitignore git u (documents w))
  /\ (addToGitignore git u (documents w) !! u = documents w !! u ->
      documents w1 !! u = documents w !! u)
  /\ (forall host,
        (forall docs,
           addToGitignore git u docs = (Gitignore.addToGitignore host u docs).2) ->
        (forall folder, getWorkspaceFolder host u = Some folder ->
           u <> pathJoin host folder ".gitignore") ->
        documents w1 !! u = documents w !! u).
Proof.
  intros Hw Hdoc found Hrej message.
  rewrite toggle_run, toggleSilent_run, Hw, Hdoc. fold found.
  destruct (afterWarning_documents git u w w1 Hw) as (_ & _ & Hdocs).
  split; [|split; [|split; [done|split]]].
  - destruct Hrej as [->|(e & -> & [He|He])]; [done| |]; unfold message.
    + by rewrite He.
    + rewrite He. by destruct (isToggleable e).
  - destruct Hrej as [->|(e & -> & [He|He])]; [done| |]; unfold message.
    + by rewrite He.
    + rewrite He. by destruct (isToggleable e).
  - intros Hsame. rewrite <- Hdoc. destruct Hdocs as [E|[_ E]]; rewrite E; done.
  - intros host Hgit Hother. rewrite <- Hdoc.
    destruct Hdocs as [E|[_ E]]; rewrite E; [done|].
    rewrite Hgit. by apply addToGitignore_elsewhere.
Qed.

(** The toggled file is the .gitignore of its workspace folder, the warning
    is answered with Add to .gitignore and the requested line holds no
    entry: the request is rejected, and the file has been rewritten. *)
Lemma rejected_toggle_rewrites_file :
  let git := gitignoreOf sampleWorkspace ChoiceGitignore in
  let u := "/repo/.gitignore" in
  let w := worldOf {[ u := "node_modules" ++ [LF] ]} in
  (toggle lineHost git u 5 w).1 = Normal (failure "No entry found at line 6")
  /\ (toggleSilent lineHost git u 5 w).1
     = Normal (failure "No entry found at line 6")
  /\ documents w !! u = Some ("node_modules" ++ [LF])
  /\ documents (toggle lineHost git u 5 w).2 !! u
     = Some ("node_modules" ++ [LF] ++ ".gitignore" ++ [LF])
  /\ documents (toggleSilent lineHost git u 5 w).2 !! u
     = Some ("node_modules" ++ [LF] ++ ".gitignore" ++ [LF])
  /\ documents (toggle lineHost git u 5 w).2 !! u <> documents w !! u.
Proof. repeat split; vm_compute; (reflexivity || discriminate). Qed.

(** C9: the two entry points run the same steps.  When the host applies a
    replacement the same way through the editor and through a workspace
    edit, they return the same result and leave the same documents, the same
    acknowledged paths and the same settings; only the interactive one may
    have brought the file into view. *)
Theorem toggle_toggleSilent (vscode : VSCode) (git : GitignoreService)
    (u : jsstring) (atLine : Z) (w : World) :
  (forall d l a b v,
     editorEdit vscode d l a b v = workspaceApplyEdit vscode d l a b v) ->
  let interactive := toggle vscode git u atLine w in
  let silent := toggleSilent vscode git u atLine w in
  interactive.1 = silent.1
  /\ documents interactive.2 = documents silent.2
  /\ acknowledgedFiles interactive.2 = acknowledgedFiles silent.2
  /\ configuration interactive.2 = configuration silent.2
  /\ shown silent.2 = shown w
  /\ (shown interactive.2 = shown w \/ shown interactive.2 = shown w ++ [u]).
Proof.
  intros Hhost interactive silent. unfold interactive, silent.
  rewrite toggle_run, toggleSilent_run.
  destruct (afterWarning git u w) as [w1|] eqn:Hw; [|simpl; auto 10].
  destruct (afterWarning_documents git u w w1 Hw) as (_ & Hshown & _).
  destruct (documents w1 !! u) as [content|]; [|simpl; auto 10].
  destruct (List.find _ _) as [entry|]; [|simpl; auto 10].
  destruct (isToggleable entry); [|simpl; auto 10].
  destruct (toggleValues entry) as [group|]; [|simpl; auto 10].
  cbv zeta. rewrite Hhost.
  destruct (workspaceApplyEdit _ _ _ _ _ _); simpl; rewrite Hshown; auto 10.
Qed.

(** C10: toggling by entry is toggling at the line of the entry; two
    entries with the same line give the same run whatever else they hold;
    and when the toggle succeeds, the value replaced, its group and the
    columns of the edit are those of an entry of the file as it has just
    been parsed, at that line. *)
Theorem toggleEntry_line_only (vscode : VSCode) (git : GitignoreService)
    (u : jsstring) (e e' : DotFileEntry) (w : World) :
  line e = line e' ->
  toggleEntry vscode git u e w = toggle vscode git u (line e) w
  /\ toggleEntry vscode git u e' w = toggleEntry vscode git u e w
  /\ (forall v w',
        toggleEntry vscode git u e w = (Normal (toggled v), w') ->
        exists w1 content fresh group edited,
          afterWarning git u w = Some w1
          /\ documents w1 !! u = Some content
          /\ fresh ∈ parseLines (JS.splitLines content) 0
                       (cfgToggleValues (configuration w1))
          /\ line fresh = line e
          /\ toggleValues fresh = Some group
          /\ v = getNextValue (value fresh) group
          /\ editorEdit vscode content (line e)
               (valueStart fresh) (valueEnd fresh) v = Some edited
          /\ documents w' = <[u := edited]> (documents w1)).
Proof.
  intros Hline. split; [done|]. split; [unfold toggleEntry; by rewrite Hline|].
  intros v w'. unfold toggleEntry. rewrite toggle_run.
  destruct (afterWarning git u w) as [w1|] eqn:Hw; [|done].
  destruct (documents w1 !! u) as [content|] eqn:Hdoc; [|done].
  destruct (List.find _ _) as [fresh|] eqn:Hfind; [|done].
  destruct (isToggleable fresh); [|done].
  destruct (toggleValues fresh) as [group|] eqn:Hg; [|done].
  cbv zeta. destruct (editorEdit _ _ _ _ _ _) as [edited|] eqn:Hedit; [|done].
  intros [= <- <-]. exists w1, content, fresh, group, edited.
  apply find_some in Hfind as [Hin Hl]. apply Z.eqb_eq in Hl.
  repeat split; try done. by apply list_elem_of_In.
Qed.

(** ** The file cache *)

Section RefreshFacts.

Context (vscode : VSCode) (w : World).

Lemma quiet_aret {A} (a : A) : quiet (aret a).
Proof. intros s. simpl. split; [done|constructor]. Qed.

Lemma quiet_abind {A B} (m : Async A) (k : A -> Async B) :
  quiet m -> (forall a, quiet (k a)) -> quiet (abind m k).
Proof.
  intros Hm Hk s. unfold abind. specialize (Hm s).
  destruct (m s) as [seen1 [a s1]]. simpl in Hm. destruct Hm as [-> Hseen1].
  specialize (Hk a s). destruct (k a s) as [seen2 [b s2]]. simpl in *.
  destruct Hk as [-> Hseen2]. split; [done|]. by apply Forall_app.
Qed.

Lemma quiet_await {A} (m : Async A) : quiet m -> quiet (await m).
Proof.
  intros Hm s. unfold await. specialize (Hm s).
  destruct (m s) as [seen [a s1]]. simpl in *. destruct Hm as [-> Hseen].
  split; [done|]. apply Forall_app. split; [done|]. by constructor.
Qed.

Lemma await_seen {A} (m : Async A) s : (await m s).1 <> [].
Proof.
  unfold await. destruct (m s) as [seen [a s1]]. simpl. by destruct seen.
Qed.

Lemma quiet_collectMatches patterns files :
  quiet (collectMatches vscode w patterns files).
Proof.
  revert files. induction patterns as [|p rest IH]; intros files; simpl.
  - apply quiet_aret.
  - apply quiet_abind; [apply quiet_await, quiet_aret|]. intros a. apply IH.
Qed.

Lemma quiet_parseEach uris acc : quiet (parseEach vscode w uris acc).
Proof.
  revert acc. induction uris as [|u rest IH]; intros acc; simpl.
  - apply quiet_aret.
  - apply quiet_abind; [apply quiet_await, quiet_await, quiet_aret|].
    intros [file|msg]; apply IH.
Qed.

Lemma quiet_parseAllFiles : quiet (parseAllFiles vscode w).
Proof.
  unfold parseAllFiles. apply quiet_abind.
  - apply quiet_await. unfold findDotFiles. apply quiet_abind.
    + apply quiet_collectMatches.
    + intros a. apply quiet_aret.
  - intros a. apply quiet_parseEach.
Qed.

(** Every file the rescan returns is the parse of a document of the
    world. *)
Lemma parseEach_parsed uris acc s :
  Forall (fun file => parseFile vscode (uri file) w = Normal file) acc ->
  Forall (fun file => parseFile vscode (uri file) w = Normal file)
    (parseEach vscode w uris acc s).2.1.
Proof.
  revert acc s. induction uris as [|u rest IH]; intros acc s Hacc; [done|].
  simpl. unfold abind, await, aret. simpl.
  destruct (parseFile vscode u w) as [file|msg] eqn:E.
  - specialize (IH (acc ++ [file]) s).
    destruct (parseEach vscode w rest (acc ++ [file]) s) as [seen [r s1]].
    simpl in *. apply IH. apply Forall_app. split; [done|]. constructor; [|done].
    assert (uri file = u) as ->; [|done].
    unfold parseFile in E. destruct (documents w !! u); [|done].
    by injection E as <-.
  - specialize (IH acc s).
    destruct (parseEach vscode w rest acc s) as [seen [r s1]]. simpl in *.
    by apply IH.
Qed.

Lemma parseAllFiles_parsed s :
  Forall (fun file => parseFile vscode (uri file) w = Normal file)
    (parseAllFiles vscode w s).2.1.
Proof.
  unfold parseAllFiles, abind.
  destruct (await (findDotFiles vscode w) s) as [seen1 [uris s1]].
  pose proof (parseEach_parsed uris [] s1 (Forall_nil_2 _)) as H.
  destruct (parseEach vscode w uris [] s1) as [seen2 [r s2]]. done.
Qed.

End RefreshFacts.

Lemma toggle_rejected_witness :
  let git := gitignoreOf sampleWorkspace ChoiceGitignore in
  let w := worldOf {[ "/repo/.env" := sampleContent ]} in
  toggle lineHost git "/repo/.env" 1 w
    = (Normal (failure "No entry found at line 2"),
       default w (afterWarning git "/repo/.env" w))
  /\ toggleSilent lineHost git "/repo/.env" 1 w
       = (Normal (failure "No entry found at line 2"),
          default w (afterWarning git "/repo/.env" w))
  /\ documents (default w (afterWarning git "/repo/.env" w)) !! "/repo/.env"
     = documents w !! "/repo/.env".
Proof.
  intros git w.
  destruct (toggle_rejected lineHost git "/repo/.env" 1 w
              (default w (afterWarning git "/repo/.env" w)) sampleContent)
    as (Ht & Hs & _ & _ & Hsame).
  - reflexivity.
  - by vm_compute.
  - left. by vm_compute.
  - split; [exact Ht|]. split; [exact Hs|].
    apply (Hsame sampleWorkspace); [reflexivity|].
    intros folder [= <-]. by vm_compute.
Defined.

Lemma toggle_toggleSilent_witness :
  (toggle lineHost allIgnored ".env" 0 sampleWorld).1
    = (toggleSilent lineHost allIgnored ".env" 0 sampleWorld).1
  /\ documents (toggle lineHost allIgnored ".env" 0 sampleWorld).2
       = documents (toggleSilent lineHost allIgnored ".env" 0 sampleWorld).2.
Proof.
  destruct (toggle_toggleSilent lineHost allIgnored ".env" 0 sampleWorld)
    as (H1 & H2 & _).
  - reflexivity.
  - split; [exact H1|exact H2].
Defined.

Lemma toggleEntry_line_only_witness :
  toggleEntry lineHost allIgnored ".env" (staleEntry 0 "off" 40 43) sampleWorld
    = toggleEntry lineHost allIgnored ".env" (staleEntry 0 "true" 6 10) sampleWorld.
Proof.
  apply (toggleEntry_line_only lineHost allIgnored ".env"
           (staleEntry 0 "true" 6 10) (staleEntry 0 "off" 40 43) sampleWorld).
  reflexivity.
Defined.

(** C1, at the input where the code departs from it: with the default
    groups the value True is flagged toggleable with the group true, false;
    the resolver looks it up with exact comparison, does not find it and
    returns it unchanged; and both entry points report success with the
    unchanged value, leaving the file as it was.  So it is not the case that
    the lookup succeeds for every value the matcher flags. *)
Theorem toggle_case_variant_unchanged :
  let content := "DEBUG=True" ++ [LF] in
  let w := worldOf {[ ".env" := content ]} in
  ~ (forall value groups G,
       findToggleValues value groups = Some G ->
       JS.arrayIndexOf (JS.stripQuotes (JS.trim value)) G <> (-1)%Z)
  /\ (toggleValues <$> parseLine "DEBUG=True" 0 defaultToggleValues)
    = Some (Some ["true"; "false"])
  /\ JS.arrayIndexOf (JS.stripQuotes (JS.trim "True")) ["true"; "false"] = (-1)%Z
  /\ getNextValue "True" ["true"; "false"] = "True"
  /\ (toggle lineHost allIgnored ".env" 0 w).1 = Normal (toggled "True")
  /\ documents (toggle lineHost allIgnored ".env" 0 w).2 !! ".env" = Some content
  /\ (toggleSilent lineHost allIgnored ".env" 0 w).1 = Normal (toggled "True")
  /\ documents (toggleSilent lineHost allIgnored ".env" 0 w).2 !! ".env" = Some content.
Proof.
  intros content w. split.
  - intros H. apply (H "True" defaultToggleValues ["true"; "false"]); reflexivity.
  - repeat split; vm_compute; reflexivity.
Qed.

(** ** Quote characters without a partner *)

Lemma isQuote_not_space c : JS.isQuote c = true -> JS.isWhiteSpace c = false.
Proof. by intros [-> | ->]%isQuote_cases. Qed.

Lemma leading_quote c v :
  JS.isQuote c = true -> plain v -> v <> [] ->
  JS.trim (c :: v) = c :: v
  /\ detectedStyle (c :: v) = NoQuotes
  /\ JS.stripQuotes (c :: v) = v.
Proof.
  intros Hc Hp Hne.
  destruct (list_snoc_cases v) as [->|(r & d & ->)]; [done|].
  destruct (proj1 (plain_iff _) Hp) as [_ Hlast].
  destruct (Hlast r d eq_refl) as [Hws Hq].
  split; [apply trim_edges; [by apply isQuote_not_space|done]|].
  split.
  - unfold detectedStyle. change (c :: r ++ [d]) with ((c :: r) ++ [d]).
    pose proof (endsWith_quote (c :: r) d) as He. rewrite Hq in He.
    apply orb_false_iff in He as [-> ->]. by rewrite !andb_false_r.
  - rewrite stripQuotes_eq. unfold JS.dropLeadingQuote. rewrite Hc.
    by rewrite dropTrailingQuote_snoc, Hq.
Qed.

Lemma trailing_quote c v :
  JS.isQuote c = true -> plain v -> v <> [] ->
  JS.trim (v ++ [c]) = v ++ [c]
  /\ detectedStyle (v ++ [c]) = NoQuotes
  /\ JS.stripQuotes (v ++ [c]) = v.
Proof.
  intros Hc Hp Hne. destruct v as [|a r]; [done|].
  destruct (proj1 (plain_iff _) Hp) as [Hhead _].
  destruct (Hhead a r eq_refl) as [Hws Hq].
  split; [apply trim_edges; [done|by apply isQuote_not_space]|].
  split.
  - unfold detectedStyle.
    pose proof (startsWith_quote a (r ++ [c])) as Hs. rewrite Hq in Hs.
    apply orb_false_iff in Hs as [Hs1 Hs2].
    change ((a :: r) ++ [c]) with (a :: r ++ [c]). by rewrite Hs1, Hs2.
  - rewrite stripQuotes_eq. change ((a :: r) ++ [c]) with (a :: r ++ [c]).
    unfold JS.dropLeadingQuote. rewrite Hq.
    change (a :: r ++ [c]) with ((a :: r) ++ [c]).
    by rewrite dropTrailingQuote_snoc, Hc.
Qed.

Lemma stripMatchingPair_wrap q u :
  (q = NoQuotes -> plain u) -> stripMatchingPair (wrap q u) = u.
Proof.
  intros Hp. unfold stripMatchingPair. rewrite (detectedStyle_wrap q u Hp).
  destruct q; unfold wrap; [done| |]; apply removelast_last.
Qed.

Lemma wrap_no_CR q u : CR ∉ u -> CR ∉ wrap q u.
Proof.
  intros Hu. destruct q; unfold wrap; [done| |];
    rewrite not_elem_of_cons, not_elem_of_app, not_elem_of_cons;
    (split; [done|]); (split; [done|]); (split; [done|]); apply not_elem_of_nil.
Qed.

Lemma not_keepsQuoteLayer_unpaired :
  ~ keepsQuoteLayer (DQ :: "true") ["true"; "false"].
Proof.
  intros (q & u & m & Hv & Hu & _ & _). destruct q; unfold wrap in Hv.
  - subst u. revert Hu. apply (bool_decide_unpack _). vm_compute. reflexivity.
  - injection Hv as Hv. apply (f_equal (@rev _)) in Hv.
    rewrite rev_app_distr in Hv. simpl in Hv. discriminate Hv.
  - discriminate Hv.
Qed.

(** C4, at the input where the code departs from it: the value made of a
    double quote and the member true has no white space to trim and no
    closing quote; the resolver detects no quote layer on it, deletes the
    quote for the lookup all the same, finds the member and returns the
    bare next member false: a quote character of the input is gone although
    no layer was detected, and the input is not a member inside a layer with
    the result a member inside the same layer.  So it is not the case that
    every value that is found keeps its quote layer.  The same happens for
    every quote character put before or after a member without white space
    or quote characters at its ends.  For a member inside one layer of
    matching quotes, or such a member bare, the layer is the one detected
    and it is kept; the three examples of the specification hold. *)
Theorem getNextValue_unpaired_quote :
  let value := DQ :: "true" in
  let G := ["true"; "false"] in
  JS.trim value = value
  /\ detectedStyle (JS.trim value) = NoQuotes
  /\ JS.stripQuotes (JS.trim value) = "true"
  /\ JS.arrayIndexOf (JS.stripQuotes (JS.trim value)) G = 0%Z
  /\ getNextValue value G = "false"
  /\ DQ ∈ value
  /\ (DQ ∉ getNextValue value G)
  /\ ~ keepsQuoteLayer value G
  /\ ~ (forall value G,
          JS.arrayIndexOf (JS.stripQuotes (JS.trim value)) G <> (-1)%Z ->
          keepsQuoteLayer value G)
  /\ (forall c v (G : list jsstring) i,
        JS.isQuote c = true -> plain v -> v <> [] ->
        JS.arrayIndexOf v G = Z.of_nat i ->
        exists m, G !! ((i + 1) mod length G) = Some m
                  /\ detectedStyle (JS.trim (c :: v)) = NoQuotes
                  /\ getNextValue (c :: v) G = m
                  /\ detectedStyle (JS.trim (v ++ [c])) = NoQuotes
                  /\ getNextValue (v ++ [c]) G = m)
  /\ (forall q u (G : list jsstring),
        u ∈ G -> (q = NoQuotes -> plain u) ->
        detectedStyle (JS.trim (wrap q u)) = q /\ keepsQuoteLayer (wrap q u) G)
  /\ getNextValue (DQ :: "true" ++ [DQ]) ["true"; "false"] = DQ :: "false" ++ [DQ]
  /\ getNextValue (SQ :: "ON" ++ [SQ]) ["ON"; "OFF"] = SQ :: "OFF" ++ [SQ]
  /\ getNextValue "true" ["true"; "false"] = "false".
Proof.
  intros value G.
  do 5 (split; [reflexivity|]).
  split; [apply list_elem_of_here|].
  split; [apply (bool_decide_unpack _); by vm_compute|].
  split; [exact not_keepsQuoteLayer_unpaired|].
  split.
  { intros H. apply not_keepsQuoteLayer_unpaired, H. by vm_compute. }
  split.
  { intros c v G' i Hc Hp Hne Hi.
    destruct (leading_quote c v Hc Hp Hne) as (Ht & Hd & Hs).
    destruct (trailing_quote c v Hc Hp Hne) as (Ht' & Hd' & Hs').
    destruct (getNextValue_found (c :: v) G' i) as (m & Hm & Hr).
    { by rewrite Ht, Hs. }
    destruct (getNextValue_found (v ++ [c]) G' i) as (m' & Hm' & Hr').
    { by rewrite Ht', Hs'. }
    assert (m' = m) as -> by congruence.
    rewrite Ht, Hd in Hr. rewrite Ht', Hd' in Hr'.
    exists m. rewrite Ht, Ht'. by repeat split. }
  split.
  { intros q u G' Hu Hp. split; [|by apply keepsQuoteLayer_wrap].
    by rewrite (trim_wrap q u Hp), (detectedStyle_wrap q u Hp). }
  repeat split.
Qed.

Lemma getNextValue_unpaired_quote_witness :
  exists m, ["true"; "false"] !! ((0 + 1) mod 2) = Some m
            /\ detectedStyle (JS.trim (DQ :: "true")) = NoQuotes
            /\ getNextValue (DQ :: "true") ["true"; "false"] = m
            /\ detectedStyle (JS.trim ("true" ++ [DQ])) = NoQuotes
            /\ getNextValue ("true" ++ [DQ]) ["true"; "false"] = m.
Proof.
  pose proof getNextValue_unpaired_quote as H. cbv zeta in H.
  destruct H as (_ & _ & _ & _ & _ & _ & _ & _ & _ & H & _).
  apply (H DQ "true" ["true"; "false"] 0).
  - reflexivity.
  - reflexivity.
  - discriminate.
  - reflexivity.
Defined.

(** C5, at the input where the code departs from it: the value made of a
    double quote and the text true has nothing to trim, no carriage return
    and no closing quote; stripping a matching pair leaves it as it is, but
    the normalization of the matcher deletes the quote, the value matches
    the group true, false, and the parser flags the entry toggleable.  So it
    is not the case that the normalization strips a matching pair only.  The
    same happens for every quote character put before or after a text
    without white space or quote characters at its ends.  What the
    normalization does is delete a quote character at the start if there is
    one and a quote character at the end if there is one, each whether or
    not the other end has a quote and whatever its kind.  For a text inside
    a matching pair, or bare, the two agree; and a value whose normalized
    form is empty never matches a group. *)
Theorem unquotedValueOf_unpaired_quote :
  let value := DQ :: "true" in
  JS.removeCR (JS.trim value) = value
  /\ stripMatchingPair (JS.trim value) = value
  /\ unquotedValueOf value = "true"
  /\ findToggleValues value [["true"; "false"]] = Some ["true"; "false"]
  /\ (toggleValues <$> parseLine ("DEBUG=" ++ value) 0 defaultToggleValues)
     = Some (Some ["true"; "false"])
  /\ ~ (forall value,
          CR ∉ value ->
          unquotedValueOf value = stripMatchingPair (JS.trim value))
  /\ (forall c v,
        JS.isQuote c = true -> plain v -> v <> [] -> CR ∉ v ->
        unquotedValueOf (c :: v) = v
        /\ stripMatchingPair (JS.trim (c :: v)) = c :: v
        /\ unquotedValueOf (v ++ [c]) = v
        /\ stripMatchingPair (JS.trim (v ++ [c])) = v ++ [c])
  /\ (forall value,
        let t := JS.removeCR (JS.trim value) in
        let u := unquotedValueOf value in
        exists a b,
          t = a ++ u ++ b
          /\ (a = [] \/ a = [DQ] \/ a = [SQ])
          /\ (b = [] \/ b = [DQ] \/ b = [SQ])
          /\ (a = [] <-> (JS.startsWith [DQ] t || JS.startsWith [SQ] t) = false)
          /\ (b = [] <->
                (JS.endsWith [DQ] t || JS.endsWith [SQ] t) = false
                \/ length t <= 1))
  /\ (forall q u,
        (q = NoQuotes -> plain u) -> CR ∉ u ->
        unquotedValueOf (wrap q u) = u
        /\ stripMatchingPair (JS.trim (wrap q u)) = u)
  /\ (forall value groups,
        unquotedValueOf value = [] -> findToggleValues value groups = None).
Proof.
  intros value.
  do 5 (split; [by vm_compute|]).
  split.
  { intros H. specialize (H value). vm_compute in H.
    assert (CR ∉ value) as Hcr.
    { apply (bool_decide_unpack _). by vm_compute. }
    specialize (H Hcr). discriminate H. }
  split.
  { intros c v Hc Hp Hne Hcr.
    destruct (leading_quote c v Hc Hp Hne) as (Ht & Hd & Hs).
    destruct (trailing_quote c v Hc Hp Hne) as (Ht' & Hd' & Hs').
    assert (c <> CR) as Hc'.
    { intros ->. by vm_compute in Hc. }
    unfold unquotedValueOf, stripMatchingPair. rewrite Ht, Ht', Hd, Hd'.
    rewrite !removeCR_fixed, Hs, Hs'; [done| |].
    - rewrite not_elem_of_app, not_elem_of_cons. split; [done|].
      split; [done|apply not_elem_of_nil].
    - rewrite not_elem_of_cons. by split. }
  split; [intros v; apply stripQuotes_edges_spec|].
  split.
  { intros q u Hp Hcr. unfold unquotedValueOf.
    rewrite (trim_wrap q u Hp), (removeCR_fixed _ (wrap_no_CR q u Hcr)).
    split; [by apply stripQuotes_wrap|by apply stripMatchingPair_wrap]. }
  intros v groups Hu. unfold findToggleValues.
  by rewrite Hu, bool_decide_eq_true_2.
Qed.

Lemma unquotedValueOf_unpaired_quote_witness :
  unquotedValueOf (SQ :: "on") = "on"
  /\ stripMatchingPair (JS.trim (SQ :: "on")) = SQ :: "on"
  /\ unquotedValueOf ("on" ++ [SQ]) = "on"
  /\ stripMatchingPair (JS.trim ("on" ++ [SQ])) = "on" ++ [SQ].
Proof.
  pose proof unquotedValueOf_unpaired_quote as H. cbv zeta in H.
  destruct H as (_ & _ & _ & _ & _ & _ & H & _).
  apply (H SQ "on").
  - reflexivity.
  - reflexivity.
  - discriminate.
  - apply (bool_decide_unpack _). by vm_compute.
Defined.

(** * Further properties *)

(** ** The scanner, in both directions *)

Lemma takeWhile_app_stop p (a b : jsstring) :
  Forall (fun c => p c = true) a ->
  (forall c r, b = c :: r -> p c = false) ->
  Regex.takeWhile p (a ++ b) = a /\ Regex.dropWhile p (a ++ b) = b.
Proof.
  intros Ha Hb. induction Ha as [|c a Hc _ [IH1 IH2]].
  - destruct b as [|c r]; [done|]. simpl. by rewrite (Hb c r eq_refl).
  - simpl. rewrite Hc. by rewrite IH1, IH2.
Qed.

Lemma trimStart_eq_dropWhile s : JS.trimStart s = Regex.dropWhile JS.isWhiteSpace s.
Proof. induction s as [|c s IH]; [done|]. simpl. by rewrite IH. Qed.

Lemma trimStart_fixed_head s c r :
  JS.trimStart s = s -> s = c :: r -> JS.isWhiteSpace c = false.
Proof.
  intros Hs ->. apply trimStart_fixed in Hs as [?|(c' & r' & [= <- <-] & ?)]; done.
Qed.

Lemma keyText_head k : keyText k -> exists c r, k = c :: r /\ JS.isWhiteSpace c = false.
Proof.
  intros (c & r & -> & Hc & _). exists c, r. split; [done|].
  by apply isKeyStart_not_space.
Qed.

Lemma keyText_chars k : keyText k -> Forall (fun a => Regex.isKeyChar a = true) k.
Proof.
  intros (c & r & -> & Hc & Hr). constructor; [by apply isKeyStart_isKeyChar|done].
Qed.

Lemma keyValue_shape s k raw :
  Regex.keyValue s = Some (k, raw) ->
  exists ws0 ws1,
    s = k ++ ws0 ++ "=" ++ ws1 ++ raw
    /\ keyText k /\ blank ws0 /\ blank ws1
    /\ JS.trimStart raw = raw /\ forallb Regex.isDot raw = true.
Proof.
  intros H. destruct (keyValue_spec _ _ _ H)
    as (ws0 & ws1 & Hs & _ & _ & Hws0 & Hws1 & Hraw).
  exists ws0, ws1. repeat split; try done.
  - revert H. unfold Regex.keyValue. destruct s as [|c r]; [done|].
    destruct (Regex.isKeyStart c) eqn:Ec; [|done].
    destruct (Regex.dropWhile _ _) as [|e afterEquals]; [done|].
    case_bool_decide; [|done]. destruct (forallb _ _); [|done].
    intros [= <- _]. exists c, (Regex.takeWhile Regex.isKeyChar r).
    split; [done|]. split; [done|]. apply takeWhile_all.
  - revert H. unfold Regex.keyValue. destruct s as [|c r]; [done|].
    destruct (Regex.isKeyStart c); [|done].
    destruct (Regex.dropWhile _ _) as [|e afterEquals]; [done|].
    case_bool_decide; [|done]. destruct (forallb _ _) eqn:E; [|done].
    by intros [= _ <-].
Qed.

Lemma blank_equals_stop (p : ascii -> bool) ws (rest : jsstring) :
  blank ws -> p EQUALS = false ->
  (forall a, JS.isWhiteSpace a = true -> p a = false) ->
  forall c r, ws ++ EQUALS :: rest = c :: r -> p c = false.
Proof.
  intros Hws He Hp c r. destruct Hws as [|a ws Ha _]; simpl.
  - by intros [= <- _].
  - intros [= <- _]. by apply Hp.
Qed.

Lemma keyValue_complete k ws0 ws1 raw :
  keyText k -> blank ws0 -> blank ws1 ->
  JS.trimStart raw = raw -> forallb Regex.isDot raw = true ->
  Regex.keyValue (k ++ ws0 ++ "=" ++ ws1 ++ raw) = Some (k, raw).
Proof.
  intros (c & r & -> & Hc & Hr) Hws0 Hws1 Hraw Hdot.
  change ("=" ++ ws1 ++ raw) with (EQUALS :: (ws1 ++ raw)).
  unfold Regex.keyValue. simpl. rewrite Hc.
  destruct (takeWhile_app_stop Regex.isKeyChar r (ws0 ++ EQUALS :: (ws1 ++ raw)) Hr)
    as [Ht Hd].
  { apply blank_equals_stop; [done|done|].
    intros a Ha. destruct (Regex.isKeyChar a) eqn:E; [|done].
    apply isKeyChar_not_space in E. congruence. }
  rewrite Ht, Hd.
  destruct (takeWhile_app_stop JS.isWhiteSpace ws0 (EQUALS :: (ws1 ++ raw)) Hws0)
    as [_ Hd0].
  { by intros c' r' [= <- _]. }
  rewrite Hd0. rewrite bool_decide_eq_true_2 by done.
  destruct (takeWhile_app_stop JS.isWhiteSpace ws1 raw Hws1) as [_ Hd1].
  { intros c' r'. by apply trimStart_fixed_head. }
  by rewrite Hd1, Hdot.
Qed.

Lemma exportPrefix_shape s rest :
  Regex.exportPrefix s = Some rest ->
  exists ws, s = "export" ++ ws ++ rest /\ ws <> [] /\ blank ws
             /\ JS.trimStart rest = rest.
Proof.
  unfold Regex.exportPrefix. destruct (JS.startsWith "export" s) eqn:E; [|done].
  apply startsWith_app in E as [r ->].
  change (drop 6 ("export" ++ r)) with r.
  destruct r as [|c r]; [done|]. destruct (JS.isWhiteSpace c) eqn:Ec; [|done].
  intros [= <-]. exists (c :: Regex.takeWhile JS.isWhiteSpace r). split.
  { simpl. by rewrite takeWhile_dropWhile. }
  split; [done|]. split.
  { constructor; [done|apply takeWhile_all]. }
  apply trimStart_dropWhile.
Qed.

Lemma exportPrefix_complete ws rest :
  ws <> [] -> blank ws -> JS.trimStart rest = rest ->
  Regex.exportPrefix ("export" ++ ws ++ rest) = Some rest.
Proof.
  intros Hne Hws Hrest. unfold Regex.exportPrefix.
  change (JS.startsWith "export" ("export" ++ ws ++ rest)) with true.
  change (drop 6 ("export" ++ ws ++ rest)) with (ws ++ rest).
  destruct Hws as [|c ws Hc Hws]; [done|]. simpl. rewrite Hc.
  destruct (takeWhile_app_stop JS.isWhiteSpace ws rest Hws) as [_ Hd].
  { intros c' r'. by apply trimStart_fixed_head. }
  by rewrite Hd.
Qed.

Lemma scan_shape s k raw :
  Regex.scan s = Some (k, raw) ->
  exists pre ws0 ws1,
    s = pre ++ k ++ ws0 ++ "=" ++ ws1 ++ raw
    /\ exportLead pre /\ keyText k /\ blank ws0 /\ blank ws1
    /\ JS.trimStart raw = raw /\ forallb Regex.isDot raw = true.
Proof.
  unfold Regex.scan.
  assert (Regex.keyValue s = Some (k, raw) ->
          exists pre ws0 ws1,
            s = pre ++ k ++ ws0 ++ "=" ++ ws1 ++ raw
            /\ exportLead pre /\ keyText k /\ blank ws0 /\ blank ws1
            /\ JS.trimStart raw = raw /\ forallb Regex.isDot raw = true) as Hplain.
  { intros (ws0 & ws1 & H)%keyValue_shape. exists [], ws0, ws1.
    destruct H as (? & ? & ? & ? & ? & ?). repeat split; try done. by left. }
  destruct (Regex.exportPrefix s) as [rest|] eqn:Ex; [|done].
  destruct (Regex.keyValue rest) as [m|] eqn:Ek; [|done].
  intros [= ->]. apply exportPrefix_shape in Ex as (ws & -> & Hne & Hws & _).
  apply keyValue_shape in Ek as (ws0 & ws1 & -> & ? & ? & ? & ? & ?).
  exists ("export" ++ ws), ws0, ws1. split; [by rewrite <- app_assoc|].
  split; [|done]. right. by exists ws.
Qed.

Lemma keyValue_equals rest : Regex.keyValue (EQUALS :: rest) = None.
Proof. reflexivity. Qed.

Lemma scan_complete pre k ws0 ws1 raw :
  exportLead pre -> keyText k -> blank ws0 -> blank ws1 ->
  JS.trimStart raw = raw -> forallb Regex.isDot raw = true ->
  Regex.scan (pre ++ k ++ ws0 ++ "=" ++ ws1 ++ raw) = Some (k, raw).
Proof.
  intros Hpre Hk Hws0 Hws1 Hraw Hdot.
  pose proof (keyValue_complete k ws0 ws1 raw Hk Hws0 Hws1 Hraw Hdot) as Hkv.
  change ("=" ++ ws1 ++ raw) with (EQUALS :: (ws1 ++ raw)) in *.
  unfold Regex.scan. destruct Hpre as [->|(ws & -> & Hne & Hws)].
  - rewrite app_nil_l.
    destruct (Regex.exportPrefix _) as [rest|] eqn:Ex; [|done].
    apply exportPrefix_shape in Ex as (ws & Hs & Hne & Hws & Hrest).
    assert (rest = EQUALS :: (ws1 ++ raw)) as ->; [|by rewrite keyValue_equals].
    assert (Forall (fun a => Regex.isKeyChar a = true) "export") as Hex.
    { repeat constructor. }
    destruct (takeWhile_app_stop Regex.isKeyChar "export" (ws ++ rest) Hex)
      as [Ht Hd].
    { intros c r E. destruct Hws as [|a ws Ha _]; [done|].
      injection E as <- _. destruct (Regex.isKeyChar a) eqn:Ea; [|done].
      apply isKeyChar_not_space in Ea. congruence. }
    destruct (takeWhile_app_stop Regex.isKeyChar k (ws0 ++ EQUALS :: (ws1 ++ raw))
                (keyText_chars k Hk)) as [Ht' Hd'].
    { apply blank_equals_stop; [done|done|].
      intros a Ha. destruct (Regex.isKeyChar a) eqn:E; [|done].
      apply isKeyChar_not_space in E. congruence. }
    rewrite Hs in Hd'. rewrite Hd in Hd'.
    destruct (takeWhile_app_stop JS.isWhiteSpace ws rest Hws) as [_ Hr].
    { intros c' r'. by apply trimStart_fixed_head. }
    destruct (takeWhile_app_stop JS.isWhiteSpace ws0 (EQUALS :: (ws1 ++ raw)) Hws0)
      as [_ Hr0].
    { by intros c' r' [= <- _]. }
    by rewrite <- Hr, Hd', Hr0.
  - rewrite <- (app_assoc "export" ws).
    rewrite exportPrefix_complete; [by rewrite Hkv|done|done|].
    destruct (keyText_head k Hk) as (c & r & -> & Hc). simpl. by rewrite Hc.
Qed.

(** ** The line parser, through the scanner *)

Lemma parseLine_eq text n groups :
  parseLine text n groups
  = if bool_decide (JS.trim text = []) || JS.startsWith "#" (JS.trim text)
    then None
    else (fun m => entryOf text n groups m.1 m.2) <$> Regex.scan (JS.removeCR text).
Proof.
  unfold parseLine. destruct (_ || _); [done|].
  rewrite <- KEY_VALUE_REGEX_scan.
  by destruct (exec KEY_VALUE_REGEX (JS.removeCR text)) as [[[i j] c]|].
Qed.

Lemma exportLead_no_equals pre : exportLead pre -> EQUALS ∉ pre.
Proof.
  intros [->|(ws & -> & _ & Hws)]; [apply not_elem_of_nil|].
  rewrite elem_of_app. intros [Hin|Hin].
  - revert Hin. apply (bool_decide_unpack _). vm_compute. reflexivity.
  - unfold blank in Hws. rewrite Forall_forall in Hws.
    by apply Hws, isWhiteSpace_not_equals in Hin.
Qed.

Lemma before_no_equals pre k ws0 :
  exportLead pre -> keyText k -> blank ws0 -> EQUALS ∉ pre ++ k ++ ws0.
Proof.
  intros Hpre Hk Hws0. rewrite !elem_of_app. intros [Hin|[Hin|Hin]].
  - by apply exportLead_no_equals in Hpre.
  - pose proof (keyText_chars k Hk) as Hkc. rewrite Forall_forall in Hkc.
    by apply Hkc, isKeyChar_not_equals in Hin.
  - unfold blank in Hws0. rewrite Forall_forall in Hws0.
    by apply Hws0, isWhiteSpace_not_equals in Hin.
Qed.

Lemma valueStartOf_split pre k ws0 ws1 raw :
  EQUALS ∉ pre ++ k ++ ws0 -> blank ws1 -> JS.trimStart raw = raw ->
  valueStartOf (pre ++ k ++ ws0 ++ "=" ++ ws1 ++ raw) k
  = Z.of_nat (length (pre ++ k ++ ws0) + 1 + length ws1).
Proof.
  intros Hbefore Hws1 Hraw. unfold valueStartOf.
  set (before := pre ++ k ++ ws0) in *.
  set (clean := pre ++ k ++ ws0 ++ "=" ++ ws1 ++ raw).
  assert (clean = before ++ EQUALS :: (ws1 ++ raw)) as Hclean.
  { unfold clean, before. by rewrite <- !app_assoc. }
  destruct (indexOf_occurrence k pre (ws0 ++ "=" ++ ws1 ++ raw)) as (p & Hp & Hple).
  fold clean in Hp. rewrite Hp.
  assert (JS.indexOf "=" clean (Z.of_nat p) = Z.of_nat (length before)) as Heq.
  { rewrite Hclean. apply indexOf_char; [done|]. unfold before.
    rewrite length_app. lia. }
  rewrite Heq. cbv zeta.
  assert (JS.substringFrom clean (Z.of_nat (length before) + 1) = ws1 ++ raw) as Hafter.
  { unfold JS.substringFrom. rewrite Hclean.
    replace (Z.to_nat (Z.of_nat (length before) + 1)) with (length before + 1) by lia.
    rewrite <- drop_drop, drop_app_length. done. }
  rewrite Hafter, (trimStart_blank_app ws1 raw Hws1), Hraw, length_app. lia.
Qed.

(** What a match gives: the split of the line without its carriage returns
    and the fields of the entry. *)
Lemma parseLine_split text n groups e :
  parseLine text n groups = Some e ->
  exists pre ws0 ws1 ws2,
    JS.removeCR text = pre ++ key e ++ ws0 ++ "=" ++ ws1 ++ value e ++ ws2
    /\ exportLead pre /\ keyText (key e)
    /\ blank ws0 /\ blank ws1 /\ blank ws2
    /\ JS.trim (value e) = value e
    /\ forallb Regex.isDot (value e ++ ws2) = true
    /\ valueStart e = Z.of_nat (length (pre ++ key e ++ ws0) + 1 + length ws1)
    /\ valueEnd e = (valueStart e + Z.of_nat (length (value e)))%Z
    /\ line e = n /\ rawLine e = text
    /\ toggleValues e = findToggleValues (value e) groups
    /\ isToggleable e = bool_decide (toggleValues e <> None).
Proof.
  rewrite parseLine_eq. destruct (_ || _); [done|].
  destruct (Regex.scan (JS.removeCR text)) as [[k raw]|] eqn:Hscan; [|done].
  intros [= <-]. simpl.
  destruct (scan_shape _ _ _ Hscan)
    as (pre & ws0 & ws1 & Hs & Hpre & Hk & Hws0 & Hws1 & Hraw & Hdot).
  destruct (trim_of_trimStart_fixed raw Hraw) as [Htrim Hidem].
  destruct (trimEnd_spec raw) as (ws2 & Hraw2 & Hws2).
  rewrite <- Htrim in Hraw2.
  exists pre, ws0, ws1, ws2.
  split; [by rewrite Hs, Hraw2 at 1|].
  do 5 (split; [done|]).
  split; [by rewrite Htrim|].
  split; [by rewrite <- Hraw2|].
  split; [|done].
  rewrite Hs. apply valueStartOf_split; [|done|done].
  by apply before_no_equals.
Qed.

Lemma trim_head c r :
  JS.isWhiteSpace c = false -> exists r', JS.trim (c :: r) = c :: r'.
Proof.
  intros Hc. unfold JS.trim. simpl JS.trimStart. rewrite Hc.
  by apply trimEnd_head.
Qed.

Lemma trim_fixed_head c r : JS.trim (c :: r) = c :: r -> JS.isWhiteSpace c = false.
Proof.
  intros H. destruct (JS.isWhiteSpace c) eqn:Ec; [|done]. exfalso.
  unfold JS.trim in H. simpl in H. rewrite Ec in H.
  pose proof (cutOf_length _ _
                (cutOf_trans _ _ _ (trimEnd_cut (JS.trimStart r)) (trimStart_cut r)))
    as Hl.
  rewrite H in Hl. simpl in Hl. lia.
Qed.

Lemma trim_fixed_trimStart v : JS.trim v = v -> JS.trimStart v = v.
Proof.
  destruct v as [|c r]; [done|]. intros H. simpl.
  by rewrite (trim_fixed_head c r H).
Qed.

Lemma trim_fixed_trimEnd v : JS.trim v = v -> JS.trimEnd v = v.
Proof.
  intros H. pose proof (trim_fixed_trimStart v H) as Hs.
  unfold JS.trim in H. by rewrite Hs in H.
Qed.

Lemma trimEnd_blank_app s ws : blank ws -> JS.trimEnd (s ++ ws) = JS.trimEnd s.
Proof.
  intros Hws. unfold JS.trimEnd. rewrite rev_app_distr.
  rewrite trimStart_blank_app; [done|]. by apply Forall_rev.
Qed.

Lemma exportLead_key_head pre k rest :
  exportLead pre -> keyText k ->
  exists c r, pre ++ k ++ rest = c :: r /\ Regex.isKeyStart c = true.
Proof.
  intros [->|(ws & -> & _ & _)] (c & r & -> & Hc & _).
  - by exists c, (r ++ rest).
  - by exists "e"%char, ("xport" ++ ws ++ (c :: r) ++ rest).
Qed.

Lemma isKeyStart_not_hash c : Regex.isKeyStart c = true -> c <> "#"%char.
Proof. intros H ->. vm_compute in H. discriminate. Qed.

Lemma removeCR_head text c r :
  JS.removeCR text = c :: r ->
  exists crs rest, text = crs ++ c :: rest /\ Forall (fun a => a = CR) crs.
Proof.
  rewrite removeCR_filter. induction text as [|a text IH]; [done|].
  destruct (decide (a = CR)) as [->|Ha].
  - rewrite filter_cons_False by (by intros ?). intros H.
    destruct (IH H) as (crs & rest & -> & Hcrs).
    exists (CR :: crs), rest. split; [done|]. by constructor.
  - rewrite filter_cons_True by done. intros [= <- _].
    by exists [], text.
Qed.

(** The test for blank lines and comments never decides: a line that the
    expression matches passes it. *)
Lemma skipTest_false text k raw :
  Regex.scan (JS.removeCR text) = Some (k, raw) ->
  bool_decide (JS.trim text = []) || JS.startsWith "#" (JS.trim text) = false.
Proof.
  intros (pre & ws0 & ws1 & Hs & Hpre & Hk & _)%scan_shape.
  destruct (exportLead_key_head pre k (ws0 ++ "=" ++ ws1 ++ raw) Hpre Hk)
    as (c & r & Hhead & Hc).
  rewrite <- Hs in Hhead.
  destruct (removeCR_head _ _ _ Hhead) as (crs & rest & -> & Hcrs).
  assert (blank crs) as Hblank.
  { eapply Forall_impl; [exact Hcrs|]. by intros a ->. }
  pose proof (isKeyStart_not_space c Hc) as Hsp.
  unfold JS.trim. rewrite trimStart_blank_app by done. simpl. rewrite Hsp.
  destruct (trimEnd_head c rest Hsp) as [r' ->]. simpl.
  rewrite bool_decide_eq_false_2; [done|].
  intros <-. by apply isKeyStart_not_hash in Hc.
Qed.

Lemma parseLine_scan text n groups :
  parseLine text n groups
  = (fun m => entryOf text n groups m.1 m.2) <$> Regex.scan (JS.removeCR text).
Proof.
  rewrite parseLine_eq.
  destruct (Regex.scan (JS.removeCR text)) as [[k raw]|] eqn:E.
  - by rewrite (skipTest_false text k raw E).
  - by destruct (_ || _).
Qed.

Lemma entryOf_shape (pre k ws0 ws1 v ws2 : jsstring) (n : Z)
    (groups : list (list jsstring)) :
  exportLead pre -> keyText k -> blank ws0 -> blank ws1 -> blank ws2 ->
  JS.trim v = v -> (v = [] -> ws2 = []) ->
  let text := pre ++ k ++ ws0 ++ "=" ++ ws1 ++ v ++ ws2 in
  CR ∉ text ->
  let start := Z.of_nat (length (pre ++ k ++ ws0) + 1 + length ws1) in
  JS.trimStart (v ++ ws2) = v ++ ws2
  /\ entryOf text n groups k (v ++ ws2)
     = {| key := k; value := v; line := n;
          valueStart := start;
          valueEnd := (start + Z.of_nat (length v))%Z;
          isToggleable := bool_decide (findToggleValues v groups <> None);
          toggleValues := findToggleValues v groups;
          rawLine := text |}.
Proof.
  intros Hpre Hk Hws0 Hws1 Hws2 Hv Hempty text Hcr start.
  assert (JS.trimStart (v ++ ws2) = v ++ ws2) as Hraw.
  { destruct v as [|c r]; [by rewrite (Hempty eq_refl)|].
    simpl. by rewrite (trim_fixed_head c r Hv). }
  split; [done|].
  assert (JS.trim (v ++ ws2) = v) as Htrim.
  { unfold JS.trim. rewrite Hraw, trimEnd_blank_app by done.
    by apply trim_fixed_trimEnd. }
  unfold entryOf. rewrite Htrim, removeCR_fixed by done.
  subst start. unfold text.
  rewrite (valueStartOf_split pre k ws0 ws1 (v ++ ws2));
    [done|by apply before_no_equals|done|done].
Qed.

(** X1: an entry is the exact picture of its line.  In the line without its
    carriage returns the key stands at the very start, or after the word
    export and white space; only white space separates it from the first
    equals sign; the key is a letter or an underscore followed by letters,
    digits, underscores, dots and hyphens; the entry carries the number and
    the text of the line it was given; it is flagged toggleable exactly
    when it carries a group, and that group is one of the configured table.
    A line whose first character is not a letter or an underscore (blank
    lines, comments, indented assignments) gives no entry. *)
Theorem parseLine_entry_shape (text : jsstring) (n : Z)
    (groups : list (list jsstring)) (e : DotFileEntry) :
  parseLine text n groups = Some e ->
  (exists pre ws0 rest,
     JS.removeCR text = pre ++ key e ++ ws0 ++ "=" ++ rest
     /\ exportLead pre /\ blank ws0)
  /\ keyText (key e)
  /\ (exists c rest, JS.removeCR text = c :: rest /\ Regex.isKeyStart c = true)
  /\ line e = n /\ rawLine e = text
  /\ toggleValues e = findToggleValues (value e) groups
  /\ (isToggleable e = true <-> is_Some (toggleValues e))
  /\ (forall G, toggleValues e = Some G -> G ∈ groups).
Proof.
  intros (pre & ws0 & ws1 & ws2 & Hs & Hpre & Hk & Hws0 & _ & _ & _ & _ & _ & _
          & Hn & Hraw & Htv & Hflag)%parseLine_split.
  split; [by exists pre, ws0, (ws1 ++ value e ++ ws2)|].
  split; [done|]. split.
  { rewrite Hs. by apply exportLead_key_head. }
  split; [done|]. split; [done|]. split; [done|]. split.
  - rewrite Hflag, bool_decide_eq_true. by rewrite not_eq_None_Some.
  - intros G HG. rewrite Htv in HG. unfold findToggleValues in HG.
    case_bool_decide; [done|].
    apply findGroup_Some in HG as (before & after & -> & _).
    rewrite elem_of_app, elem_of_cons. tauto.
Qed.

Lemma parseLine_entry_shape_witness :
  exists e, parseLine "export  DEBUG = true  " 3 defaultToggleValues = Some e
            /\ keyText (key e) /\ line e = 3%Z
            /\ (isToggleable e = true <-> is_Some (toggleValues e)).
Proof.
  destruct (parseLine "export  DEBUG = true  " 3 defaultToggleValues) as [e|] eqn:E;
    [|vm_compute in E; discriminate E].
  destruct (parseLine_entry_shape _ _ _ _ E) as (_ & Hk & _ & Hn & _ & _ & Hf & _).
  by exists e.
Defined.

(** X2: the converse.  Every line without carriage returns of the shape:
    optional export and white space, a key, optional white space, the equals
    sign, optional white space, a value without white space at its ends,
    optional white space, with no line terminator in the value and after
    it, is parsed, and the entry holds that key, that value and the two
    offsets of the value in the line. *)
Theorem parseLine_complete (pre k ws0 ws1 v ws2 : jsstring) (n : Z)
    (groups : list (list jsstring)) :
  exportLead pre -> keyText k -> blank ws0 -> blank ws1 -> blank ws2 ->
  JS.trim v = v -> (v = [] -> ws2 = []) ->
  forallb Regex.isDot (v ++ ws2) = true ->
  let text := pre ++ k ++ ws0 ++ "=" ++ ws1 ++ v ++ ws2 in
  CR ∉ text ->
  let start := Z.of_nat (length (pre ++ k ++ ws0) + 1 + length ws1) in
  parseLine text n groups
  = Some {| key := k; value := v; line := n;
            valueStart := start;
            valueEnd := (start + Z.of_nat (length v))%Z;
            isToggleable := bool_decide (findToggleValues v groups <> None);
            toggleValues := findToggleValues v groups;
            rawLine := text |}.
Proof.
  intros Hpre Hk Hws0 Hws1 Hws2 Hv Hempty Hdot text Hcr start.
  destruct (entryOf_shape pre k ws0 ws1 v ws2 n groups Hpre Hk Hws0 Hws1 Hws2
              Hv Hempty Hcr) as [Hraw Hentry].
  subst text start. rewrite parseLine_scan, removeCR_fixed by done.
  rewrite (scan_complete pre k ws0 ws1 (v ++ ws2)) by done.
  cbn [fmap option_fmap option_map fst snd]. by rewrite Hentry.
Qed.

Lemma parseLine_complete_witness :
  (key <$> parseLine ("export " ++ "API_URL" ++ " " ++ "=" ++ "  " ++ "prod" ++ " ")
             7 defaultToggleValues) = Some "API_URL"
  /\ (valueStart <$> parseLine ("export " ++ "API_URL" ++ " " ++ "=" ++ "  " ++ "prod" ++ " ")
                      7 defaultToggleValues) = Some 18%Z.
Proof.
  assert (exportLead "export ") as Hpre.
  { right. exists " ". split; [done|]. split; [done|]. by repeat constructor. }
  assert (keyText "API_URL") as Hk.
  { exists "A"%char, "PI_URL". split; [done|]. split; [done|]. by repeat constructor. }
  assert (blank " " /\ blank "  ") as [Hb1 Hb2] by (split; by repeat constructor).
  pose proof (parseLine_complete "export " "API_URL" " " "  " "prod" " " 7
                defaultToggleValues Hpre Hk Hb1 Hb2 Hb1 eq_refl) as H.
  cbv zeta in H. rewrite H; [split; reflexivity|done|reflexivity|].
  apply (bool_decide_unpack _). by vm_compute.
Defined.

Lemma removeCR_length s : length (JS.removeCR s) <= length s.
Proof. rewrite removeCR_filter. apply length_filter. Qed.

Lemma removeCR_app a b : JS.removeCR (a ++ b) = JS.removeCR a ++ JS.removeCR b.
Proof. rewrite !removeCR_filter. apply filter_app. Qed.

Lemma removeCR_take s m :
  CR ∉ take m s -> m <= length (JS.removeCR s) ->
  take m (JS.removeCR s) = take m s.
Proof.
  intros Hcr Hm. pose proof (removeCR_length s) as Hl.
  rewrite <- (take_drop m s) at 1.
  rewrite removeCR_app, (removeCR_fixed _ Hcr).
  rewrite take_app_length'; [done|]. rewrite length_take. lia.
Qed.

(** X3: the span of an entry is measured in the line without its carriage
    returns, and the edit is applied to the line as it is in the file.  When
    no carriage return stands before the end of the span (files with line
    feed or carriage return and line feed endings), the span cuts the value
    out of the line as it is: replacing the columns from valueStart up to
    valueEnd by a text exchanges the value for it and leaves the key, the
    equals sign, the white space and the rest of the line alone. *)
Theorem parseLine_raw_span (text : jsstring) (n : Z)
    (groups : list (list jsstring)) (e : DotFileEntry) :
  parseLine text n groups = Some e ->
  CR ∉ take (Z.to_nat (valueEnd e)) text ->
  exists a b,
    text = a ++ value e ++ b
    /\ valueStart e = Z.of_nat (length a)
    /\ valueEnd e = Z.of_nat (length (a ++ value e))
    /\ JS.substring text (valueStart e) (valueEnd e) = value e
    /\ forall newText,
         take (Z.to_nat (valueStart e)) text ++ newText
           ++ drop (Z.to_nat (valueEnd e)) text
         = a ++ newText ++ b.
Proof.
  intros (pre & ws0 & ws1 & ws2 & Hs & _ & _ & _ & _ & _ & _ & _ & Hstart & Hend
          & _)%parseLine_split Hcr.
  set (a := pre ++ key e ++ ws0 ++ "=" ++ ws1).
  assert (JS.removeCR text = (a ++ value e) ++ ws2) as Hclean.
  { rewrite Hs. unfold a. by rewrite <- !app_assoc. }
  assert (valueStart e = Z.of_nat (length a)) as Hstart'.
  { rewrite Hstart. unfold a. rewrite !length_app. simpl. lia. }
  assert (Z.to_nat (valueEnd e) = length (a ++ value e)) as Hend'.
  { rewrite Hend, Hstart', length_app. lia. }
  rewrite Hend' in Hcr.
  assert (take (length (a ++ value e)) text = a ++ value e) as Htake.
  { rewrite <- removeCR_take; [|done|].
    - by rewrite Hclean, take_app_length.
    - rewrite Hclean, !length_app. lia. }
  assert (text = a ++ value e ++ drop (length (a ++ value e)) text) as Htext.
  { rewrite <- (take_drop (length (a ++ value e)) text) at 1.
    by rewrite Htake, <- app_assoc. }
  exists a, (drop (length (a ++ value e)) text).
  split; [done|]. split; [done|]. split; [lia|].
  assert (take (length a) text = a) as Ha.
  { rewrite Htext. by rewrite take_app_length. }
  split.
  - unfold JS.substring. rewrite Hend', Hstart', Nat2Z.id.
    rewrite Htext at 1. rewrite drop_app_length, length_app.
    replace (length a + length (value e) - length a) with (length (value e)) by lia.
    by rewrite take_app_length.
  - intros newText. by rewrite Hend', Hstart', Nat2Z.id, Ha.
Qed.

Lemma parseLine_raw_span_witness :
  exists e a b,
    parseLine ("DEBUG = true" ++ [CR]) 0 defaultToggleValues = Some e
    /\ "DEBUG = true" ++ [CR] = a ++ value e ++ b
    /\ valueStart e = Z.of_nat (length a)
    /\ JS.substring ("DEBUG = true" ++ [CR]) (valueStart e) (valueEnd e) = value e.
Proof.
  destruct (parseLine ("DEBUG = true" ++ [CR]) 0 defaultToggleValues) as [e|] eqn:E;
    [|vm_compute in E; discriminate E].
  destruct (parseLine_raw_span _ _ _ _ E) as (a & b & Ht & Hs & _ & Hsub & _).
  { vm_compute in E. injection E as <-. apply (bool_decide_unpack _). by vm_compute. }
  by exists e, a, b.
Defined.

(** ** The entries of a file *)

Lemma splitLines_no_LF s : Forall (fun l => LF ∉ l) (JS.splitLines s).
Proof.
  induction s as [|c s IH]; simpl.
  - apply Forall_cons. split; [apply not_elem_of_nil|apply Forall_nil_2].
  - case_bool_decide as Ec.
    + apply Forall_cons. split; [apply not_elem_of_nil|done].
    + revert IH. destruct (JS.splitLines s) as [|l ls]; intros IH.
      { apply Forall_singleton. rewrite not_elem_of_cons. split; [by intros <-|].
        apply not_elem_of_nil. }
      apply Forall_cons in IH as [Hl Hls]. apply Forall_cons. split; [|done].
      rewrite not_elem_of_cons. split; [by intros <-|done].
Qed.

Lemma parseLine_line text n groups e :
  parseLine text n groups = Some e -> line e = n /\ rawLine e = text.
Proof. by intros (k & raw & _ & _ & Hn & Hraw & _)%parseLine_Some. Qed.

Lemma parseLines_spec lines i groups :
  StronglySorted Z.lt (map line (parseLines lines i groups))
  /\ Forall (fun e =>
       (i <= line e < i + Z.of_nat (length lines))%Z
       /\ lines !! Z.to_nat (line e - i) = Some (rawLine e)
       /\ parseLine (rawLine e) (line e) groups = Some e)
       (parseLines lines i groups).
Proof.
  revert i. induction lines as [|l rest IH]; intros i; simpl.
  - split; constructor.
  - destruct (IH (i + 1)%Z) as [IHs IHf].
    assert (Forall (fun e =>
       (i <= line e < i + Z.of_nat (length (l :: rest)))%Z
       /\ (l :: rest) !! Z.to_nat (line e - i) = Some (rawLine e)
       /\ parseLine (rawLine e) (line e) groups = Some e)
       (parseLines rest (i + 1) groups)) as Hrest.
    { eapply Forall_impl; [exact IHf|]. simpl. intros e (Hb & Hl & Hp).
      split; [lia|]. split; [|done].
      replace (Z.to_nat (line e - i)) with (S (Z.to_nat (line e - (i + 1)))) by lia.
      done. }
    destruct (parseLine l i groups) as [e|] eqn:E; [|done].
    destruct (parseLine_line _ _ _ _ E) as [Hn Hraw].
    split.
    + simpl. constructor; [done|]. rewrite Forall_map.
      eapply Forall_impl; [exact IHf|]. simpl. intros e' (Hb & _). lia.
    + constructor; [|done]. rewrite Hn, Hraw, Z.sub_diag.
      split; [simpl length; lia|]. by split.
Qed.

Lemma find_parseLines lines groups i n :
  List.find (fun e => (line e =? n)%Z) (parseLines lines i groups)
  = if (n <? i)%Z then None
    else match lines !! Z.to_nat (n - i) with
         | Some l => parseLine l n groups
         | None => None
         end.
Proof.
  revert i. induction lines as [|l rest IH]; intros i; simpl.
  - by destruct (n <? i)%Z.
  - assert (List.find (fun e => (line e =? n)%Z) (parseLines rest (i + 1) groups)
            = if (n <? i)%Z then None
              else if (n =? i)%Z then None
              else (l :: rest) !! Z.to_nat (n - i)
                     ≫= (fun l' => parseLine l' n groups)) as Hrest.
    { rewrite IH. destruct (Z.ltb_spec n i), (Z.ltb_spec n (i + 1)),
        (Z.eqb_spec n i); try lia; try done.
      replace (Z.to_nat (n - i)) with (S (Z.to_nat (n - (i + 1)))) by lia.
      simpl. by destruct (rest !! _). }
    destruct (parseLine l i groups) as [e|] eqn:E.
    + destruct (parseLine_line _ _ _ _ E) as [Hn _].
      simpl. rewrite Hn, Hrest.
      destruct (Z.ltb_spec n i), (Z.eqb_spec i n), (Z.eqb_spec n i);
        try lia; try done.
      all: try (subst n; rewrite Z.sub_diag; simpl; by rewrite ?E).
      all: simpl; by destruct (_ !! _).
    + rewrite Hrest.
      destruct (Z.ltb_spec n i), (Z.eqb_spec n i); try lia; try done.
      all: try (subst n; rewrite Z.sub_diag; simpl; by rewrite ?E).
      all: simpl; by destruct (_ !! _).
Qed.

(** X4: looking an entry up by its line number, as the toggle service does
    on the entries of a fresh parse, is parsing that one line: the entries
    found for line n of a text is the parse of its line n, nothing for a
    negative n and for an n past the last line.  The outcome for a line
    does not depend on the other lines.  [parseFile] is [parseDocument] on
    the saved text and fails with the error of the host when the document
    cannot be opened. *)
Theorem parseDocument_entry_at (vscode : VSCode) (config : DotfileToggleConfig)
    (u text : jsstring) (n : Z) :
  List.find (fun e => (line e =? n)%Z) (entries (parseDocument vscode config u text))
  = (if (n <? 0)%Z then None
     else match JS.splitLines text !! Z.to_nat n with
          | Some l => parseLine l n (cfgToggleValues config)
          | None => None
          end)
  /\ forall w, configuration w = config ->
       parseFile vscode u w
       = match documents w !! u with
         | Some content => Normal (parseDocument vscode config u content)
         | None => Thrown (openFailure vscode u)
         end.
Proof.
  split.
  - unfold parseDocument. simpl. rewrite find_parseLines.
    by rewrite Z.sub_0_r.
  - intros w <-. unfold parseFile, parseDocument. by destruct (documents w !! u).
Qed.

(** X5: the entries of a parsed text stand in the order of their lines,
    with strictly increasing line numbers (so no two entries share a line);
    every entry names a line of the text, carries that line as rawLine, and
    is the parse of it; no rawLine holds a line feed; the toggleable entries
    are the flagged entries, in the same order. *)
Theorem parseDocument_entries (vscode : VSCode) (config : DotfileToggleConfig)
    (u text : jsstring) :
  let file := parseDocument vscode config u text in
  StronglySorted Z.lt (map line (entries file))
  /\ (forall e, e ∈ entries file ->
        (0 <= line e < Z.of_nat (length (JS.splitLines text)))%Z
        /\ JS.splitLines text !! Z.to_nat (line e) = Some (rawLine e)
        /\ (LF ∉ rawLine e)
        /\ parseLine (rawLine e) (line e) (cfgToggleValues config) = Some e)
  /\ (forall e, e ∈ toggleableEntries file <->
                e ∈ entries file /\ isToggleable e = true)
  /\ sublist (toggleableEntries file) (entries file).
Proof.
  unfold parseDocument. simpl.
  destruct (parseLines_spec (JS.splitLines text) 0 (cfgToggleValues config))
    as [Hs Hf].
  split; [done|]. split.
  - intros e He. rewrite Forall_forall in Hf.
    destruct (Hf e He) as (Hb & Hl & Hp). rewrite Z.sub_0_r in Hl.
    split; [lia|]. split; [done|]. split; [|done].
    pose proof (splitLines_no_LF text) as Hlf. rewrite Forall_forall in Hlf.
    apply Hlf. by eapply list_elem_of_lookup_2.
  - split.
    + intros e. by rewrite list_elem_of_filter, (comm and).
    + apply sublist_filter.
Qed.

(** ** The cycle resolver *)

Lemma NoDup_first (G : list jsstring) i v :
  NoDup G -> G !! i = Some v -> forall j, j < i -> G !! j <> Some v.
Proof.
  intros Hnd Hi j Hj Hjv. pose proof (NoDup_lookup _ _ _ _ Hnd Hi Hjv). lia.
Qed.

Lemma successor_mod_neq i n : 2 <= n -> i < n -> (i + 1) mod n <> i.
Proof.
  intros Hn Hi. destruct (decide (i + 1 < n)) as [Hlt|Hge].
  - rewrite Nat.mod_small by done. lia.
  - replace (i + 1) with n by lia. rewrite Nat.Div0.mod_same. lia.
Qed.

Lemma getNextValue_member value (G : list jsstring) i :
  NoDup G -> Forall plain G -> G !! i = Some (JS.stripQuotes (JS.trim value)) ->
  exists m, G !! ((i + 1) mod length G) = Some m /\ plain m
            /\ getNextValue value G = wrap (detectedStyle (JS.trim value)) m
            /\ JS.stripQuotes (JS.trim (getNextValue value G)) = m.
Proof.
  intros Hnd Hplain Hi.
  pose proof (arrayIndexOf_first G _ i Hi (NoDup_first G i _ Hnd Hi)) as Hidx.
  destruct (getNextValue_found value G i Hidx) as (m & Hm & Hnext).
  assert (plain m) as Hpm.
  { rewrite Forall_forall in Hplain. apply Hplain.
    by eapply list_elem_of_lookup_2. }
  exists m. split; [done|]. split; [done|]. split; [done|].
  rewrite Hnext. rewrite trim_wrap, stripQuotes_wrap; done.
Qed.

(** X6: toggling a value really changes it.  For a group of at least two
    distinct members without white space or quote characters at their ends,
    and a value whose trimmed, quote-stripped form is a member, the result of
    getNextValue differs from the value, and its own trimmed, quote-stripped
    form is the next member of the group. *)
Theorem getNextValue_changes (value : jsstring) (G : list jsstring) (i : nat) :
  NoDup G -> 2 <= length G -> Forall plain G ->
  G !! i = Some (JS.stripQuotes (JS.trim value)) ->
  getNextValue value G <> value
  /\ G !! ((i + 1) mod length G)
     = Some (JS.stripQuotes (JS.trim (getNextValue value G))).
Proof.
  intros Hnd Hlen Hplain Hi.
  destruct (getNextValue_member value G i Hnd Hplain Hi) as (m & Hm & _ & _ & Hu).
  split; [|by rewrite Hu].
  intros Heq. rewrite Heq in Hu. rewrite Hu in Hi.
  pose proof (NoDup_lookup _ _ _ _ Hnd Hi Hm) as Hij.
  pose proof (lookup_lt_Some _ _ _ Hi).
  by apply (successor_mod_neq i (length G)).
Qed.

Lemma getNextValue_changes_witness :
  getNextValue (SQ :: "off" ++ [SQ]) ["on"; "off"] <> SQ :: "off" ++ [SQ].
Proof.
  refine (proj1 (getNextValue_changes (SQ :: "off" ++ [SQ]) ["on"; "off"] 1 _ _ _ _)).
  - apply (bool_decide_unpack _). by vm_compute.
  - simpl. lia.
  - repeat constructor.
  - by vm_compute.
Defined.

Lemma getNextValue_wrap q u (G : list jsstring) i :
  NoDup G -> Forall plain G -> G !! i = Some u ->
  getNextValue (wrap q u) G = wrap q (getNextValue u G).
Proof.
  intros Hnd Hplain Hi.
  assert (plain u) as Hu.
  { rewrite Forall_forall in Hplain. apply Hplain. by eapply list_elem_of_lookup_2. }
  pose proof (getNextValue_plain_member G u i Hu Hi (NoDup_first G i u Hnd Hi)) as Hm.
  destruct (getNextValue_member (wrap q u) G i Hnd Hplain) as (m & Hm' & _ & Hnext & _).
  { by rewrite trim_wrap, stripQuotes_wrap. }
  rewrite Hnext, trim_wrap, detectedStyle_wrap by done.
  rewrite Hm in Hm'. by injection Hm' as ->.
Qed.

(** X7: the cycle closes through a layer of quotes.  For a group of distinct
    members without white space or quote characters at their ends, a member
    written inside double or single quotes (or bare) moves to the next member
    inside the same quotes, and after as many steps as the group has members
    the value is the one it started from. *)
Theorem getNextValue_cycle_quoted (G : list jsstring) (v : jsstring) (i : nat)
    (q : QuoteStyle) :
  NoDup G -> Forall plain G -> G !! i = Some v ->
  (exists m, G !! ((i + 1) mod length G) = Some m
             /\ getNextValue (wrap q v) G = wrap q m)
  /\ Nat.iter (length G) (fun x => getNextValue x G) (wrap q v) = wrap q v.
Proof.
  intros Hnd Hplain Hi. split.
  - exists (getNextValue v G). split.
    + apply getNextValue_plain_member; [|done|by apply NoDup_first].
      rewrite Forall_forall in Hplain. apply Hplain.
      by eapply list_elem_of_lookup_2.
    + by eapply getNextValue_wrap.
  - assert (forall k, Nat.iter k (fun x => getNextValue x G) (wrap q v)
                      = wrap q (Nat.iter k (fun x => getNextValue x G) v)) as Hiter.
    { induction k as [|k IH]; [done|]. simpl. rewrite IH.
      eapply getNextValue_wrap; [done|done|].
      by apply (iter_getNextValue G v i k). }
    rewrite Hiter. f_equal.
    pose proof (iter_getNextValue G v i (length G) Hnd Hplain Hi) as Hn.
    pose proof (lookup_lt_Some _ _ _ Hi) as Hlt.
    replace ((i + length G) mod length G) with i in Hn.
    2:{ rewrite <- (Nat.mul_1_l (length G)) at 1.
        rewrite Nat.Div0.mod_add. by rewrite Nat.mod_small. }
    rewrite Hi in Hn. by injection Hn.
Qed.

Lemma getNextValue_cycle_quoted_witness :
  Nat.iter 2 (fun x => getNextValue x ["enabled"; "disabled"])
    (DQ :: "disabled" ++ [DQ])
  = DQ :: "disabled" ++ [DQ].
Proof.
  refine (proj2 (getNextValue_cycle_quoted ["enabled"; "disabled"] "disabled" 1
                   DoubleQuotes _ _ _)).
  - apply (bool_decide_unpack _). by vm_compute.
  - repeat constructor.
  - done.
Defined.

(** ** The cycle matcher *)

Lemma groupMatches_lower u g :
  groupMatches u g <-> JS.toLowerCase u ∈ map JS.toLowerCase g.
Proof.
  split; [|by right]. intros [Hin|Hin]; [|done].
  by apply (list_elem_of_fmap_2 JS.toLowerCase).
Qed.

Lemma findGroup_lower u u' groups :
  JS.toLowerCase u = JS.toLowerCase u' -> findGroup u groups = findGroup u' groups.
Proof.
  intros Hl. induction groups as [|g rest IH]; [done|].
  rewrite !findGroup_step, IH.
  assert (groupMatches u g <-> groupMatches u' g) as Hiff.
  { by rewrite !groupMatches_lower, Hl. }
  by rewrite (bool_decide_ext _ _ Hiff).
Qed.

Lemma toLowerCase_nil u : JS.toLowerCase u = [] <-> u = [].
Proof. by destruct u. Qed.

Lemma findToggleValues_case_lower value groups g :
  findToggleValues value groups = Some g ->
  JS.toLowerCase (unquotedValueOf value) ∈ map JS.toLowerCase g.
Proof.
  unfold findToggleValues. case_bool_decide; [done|].
  intros (before & after & _ & Hm & _)%findGroup_Some.
  by apply groupMatches_lower.
Qed.

(** X8: the matcher is blind to case.  Two values whose normalized forms
    are equal up to case get the same answer from findToggleValues, for
    every table; and the group returned holds the normalized value up to
    case.  The comparison without lower-casing never changes the answer. *)
Theorem findToggleValues_case_blind (value value' : jsstring)
    (groups : list (list jsstring)) :
  JS.toLowerCase (unquotedValueOf value) = JS.toLowerCase (unquotedValueOf value') ->
  findToggleValues value groups = findToggleValues value' groups
  /\ forall g, findToggleValues value groups = Some g ->
       JS.toLowerCase (unquotedValueOf value) ∈ map JS.toLowerCase g.
Proof.
  intros Hl. unfold findToggleValues. split.
  - assert (unquotedValueOf value = [] <-> unquotedValueOf value' = []) as Hiff.
    { rewrite <- (toLowerCase_nil (unquotedValueOf value)).
      rewrite <- (toLowerCase_nil (unquotedValueOf value')). by rewrite Hl. }
    rewrite (bool_decide_ext _ _ Hiff). case_bool_decide; [done|].
    by apply findGroup_lower.
  - intros g. case_bool_decide; [done|].
    intros (before & after & _ & Hm & _)%findGroup_Some.
    by apply groupMatches_lower.
Qed.

Lemma findToggleValues_case_blind_witness :
  findToggleValues "Yes" defaultToggleValues
  = findToggleValues (DQ :: "YES" ++ [DQ]) defaultToggleValues.
Proof.
  refine (proj1 (findToggleValues_case_blind "Yes" (DQ :: "YES" ++ [DQ])
                   defaultToggleValues _)).
  by vm_compute.
Defined.

Lemma trimStart_blank ws : blank ws -> JS.trimStart ws = [].
Proof. induction 1 as [|c ws Hc _ IH]; [done|]. simpl. by rewrite Hc. Qed.

Lemma trim_padding ws1 x ws2 :
  blank ws1 -> blank ws2 -> JS.trim x = x -> JS.trim (ws1 ++ x ++ ws2) = x.
Proof.
  intros H1 H2 Hx. unfold JS.trim. rewrite trimStart_blank_app by done.
  destruct x as [|c r].
  - simpl. by rewrite trimStart_blank.
  - assert (JS.trimStart ((c :: r) ++ ws2) = (c :: r) ++ ws2) as ->.
    { simpl. by rewrite (trim_fixed_head c r Hx). }
    rewrite trimEnd_blank_app by done. by apply trim_fixed_trimEnd.
Qed.

Lemma removeCR_wrap q v : JS.removeCR (wrap q v) = wrap q (JS.removeCR v).
Proof.
  destruct q; simpl; [done| |].
  - change (DQ :: v ++ [DQ]) with ([DQ] ++ v ++ [DQ]). by rewrite !removeCR_app.
  - change (SQ :: v ++ [SQ]) with ([SQ] ++ v ++ [SQ]). by rewrite !removeCR_app.
Qed.

Lemma isWhiteSpace_CR : JS.isWhiteSpace CR = true.
Proof. reflexivity. Qed.

Lemma plain_removeCR v : plain v -> plain (JS.removeCR v).
Proof.
  rewrite !plain_iff. intros [Hhead Hlast]. rewrite removeCR_filter. split.
  - intros c r E. destruct v as [|c0 r0]; [done|].
    destruct (Hhead c0 r0 eq_refl) as [Hw Hq].
    rewrite filter_cons_True in E.
    + by injection E as <- _.
    + intros ->. by rewrite isWhiteSpace_CR in Hw.
  - intros r c E. destruct (list_snoc_cases v) as [->|(r0 & c0 & ->)].
    + by destruct r.
    + destruct (Hlast r0 c0 eq_refl) as [Hw Hq].
      rewrite filter_app, filter_cons_True in E.
      * simpl in E. by apply app_inj_tail in E as [_ <-].
      * intros ->. by rewrite isWhiteSpace_CR in Hw.
Qed.

Lemma unquotedValueOf_padded ws1 q v ws2 :
  blank ws1 -> blank ws2 -> plain v ->
  unquotedValueOf (ws1 ++ wrap q v ++ ws2) = JS.removeCR v.
Proof.
  intros H1 H2 Hv. unfold unquotedValueOf.
  rewrite trim_padding by (done || by apply trim_wrap).
  rewrite removeCR_wrap. apply stripQuotes_wrap. intros _. by apply plain_removeCR.
Qed.

(** X9: the matcher does not see white space around a value nor one layer
    of quotes.  For a value without white space or quote characters at its
    ends, writing it inside double or single quotes, with any white space
    before and after, gives the same answer from findToggleValues as the
    bare value. *)
Theorem findToggleValues_padding (ws1 ws2 v : jsstring) (q : QuoteStyle)
    (groups : list (list jsstring)) :
  blank ws1 -> blank ws2 -> plain v ->
  findToggleValues (ws1 ++ wrap q v ++ ws2) groups = findToggleValues v groups.
Proof.
  intros H1 H2 Hv. unfold findToggleValues.
  rewrite (unquotedValueOf_padded ws1 q v ws2) by done.
  pose proof (unquotedValueOf_padded [] NoQuotes v [] (Forall_nil_2 _)
                (Forall_nil_2 _) Hv) as H0.
  simpl in H0. rewrite app_nil_r in H0. by rewrite H0.
Qed.

Lemma findToggleValues_padding_witness :
  findToggleValues ("  " ++ wrap SingleQuotes "off" ++ " ") defaultToggleValues
  = findToggleValues "off" defaultToggleValues.
Proof.
  refine (findToggleValues_padding "  " " " "off" SingleQuotes defaultToggleValues
            _ _ _).
  - by repeat constructor.
  - by repeat constructor.
  - by vm_compute.
Defined.

Lemma findGroup_app u before rest :
  findGroup u (before ++ rest)
  = match findGroup u before with
    | Some g => Some g
    | None => findGroup u rest
    end.
Proof.
  induction before as [|g before IH]; [done|].
  rewrite <- app_comm_cons, !findGroup_step. by case_bool_decide.
Qed.

Lemma findGroup_shadowed u before g after :
  shadowedBy before g ->
  findGroup u (before ++ g :: after) = findGroup u (before ++ after).
Proof.
  intros Hsh. rewrite !findGroup_app.
  destruct (findGroup u before) eqn:E; [done|].
  rewrite findGroup_step. case_bool_decide as Hm; [|done]. exfalso.
  apply findGroup_None in E. apply groupMatches_lower in Hm.
  apply list_elem_of_fmap in Hm as (x & Hx & Hin).
  unfold shadowedBy in Hsh. rewrite Forall_forall in Hsh.
  apply Hsh, Exists_exists in Hin as (g' & Hg' & Hlow).
  rewrite Forall_forall in E. apply (E g' Hg').
  apply groupMatches_lower. by rewrite Hx.
Qed.

Lemma findToggleValues_defaults value :
  findToggleValues value defaultToggleValues
  = findToggleValues value reachableDefaults.
Proof.
  unfold findToggleValues. case_bool_decide; [done|].
  set (u := unquotedValueOf value).
  change defaultToggleValues with
    ([["true"; "false"]] ++ ["TRUE"; "FALSE"]
       :: [["yes"; "no"]; ["YES"; "NO"]; ["1"; "0"]; ["on"; "off"]; ["ON"; "OFF"];
           ["enabled"; "disabled"]; ["ENABLED"; "DISABLED"];
           ["production"; "development"]; ["prod"; "dev"]]).
  rewrite findGroup_shadowed by (apply (bool_decide_unpack _); by vm_compute).
  change ([["true"; "false"]] ++ _) with
    ([["true"; "false"]; ["yes"; "no"]] ++ ["YES"; "NO"]
       :: [["1"; "0"]; ["on"; "off"]; ["ON"; "OFF"];
           ["enabled"; "disabled"]; ["ENABLED"; "DISABLED"];
           ["production"; "development"]; ["prod"; "dev"]]).
  rewrite findGroup_shadowed by (apply (bool_decide_unpack _); by vm_compute).
  change ([["true"; "false"]; ["yes"; "no"]] ++ _) with
    ([["true"; "false"]; ["yes"; "no"]; ["1"; "0"]; ["on"; "off"]] ++ ["ON"; "OFF"]
       :: [["enabled"; "disabled"]; ["ENABLED"; "DISABLED"];
           ["production"; "development"]; ["prod"; "dev"]]).
  rewrite findGroup_shadowed by (apply (bool_decide_unpack _); by vm_compute).
  change ([["true"; "false"]; ["yes"; "no"]; ["1"; "0"]; ["on"; "off"]] ++ _) with
    ([["true"; "false"]; ["yes"; "no"]; ["1"; "0"]; ["on"; "off"];
      ["enabled"; "disabled"]] ++ ["ENABLED"; "DISABLED"]
       :: [["production"; "development"]; ["prod"; "dev"]]).
  by rewrite findGroup_shadowed by (apply (bool_decide_unpack _); by vm_compute).
Qed.

Lemma findToggleValues_member value groups G :
  findToggleValues value groups = Some G -> G ∈ groups.
Proof.
  unfold findToggleValues. case_bool_decide; [done|].
  intros (before & after & -> & _)%findGroup_Some.
  rewrite elem_of_app, elem_of_cons. tauto.
Qed.

Lemma defaults_lower value G :
  findToggleValues value defaultToggleValues = Some G ->
  Forall (fun m => JS.toLowerCase m = m) G.
Proof.
  rewrite findToggleValues_defaults. intros HG%findToggleValues_member.
  revert G HG. apply Forall_forall. repeat constructor.
Qed.

(** X10: a group that a table lists after groups which hold all its members
    up to case is never returned: the table answers as it does without that
    group.  In the default table this is the case of the four groups in
    capitals: findToggleValues answers as for the table of the seven other
    groups, and every group it returns is in lower case. *)
Theorem findToggleValues_shadowed :
  (forall before g after value,
     shadowedBy before g ->
     findToggleValues value (before ++ g :: after)
     = findToggleValues value (before ++ after))
  /\ (forall value,
        findToggleValues value defaultToggleValues
        = findToggleValues value reachableDefaults)
  /\ (forall value G,
        findToggleValues value defaultToggleValues = Some G ->
        G ∈ reachableDefaults /\ Forall (fun m => JS.toLowerCase m = m) G).
Proof.
  split; [|split].
  - intros before g after value Hsh. unfold findToggleValues.
    case_bool_decide; [done|]. by apply findGroup_shadowed.
  - apply findToggleValues_defaults.
  - intros value G HG. split; [|by eapply defaults_lower].
    rewrite findToggleValues_defaults in HG. by eapply findToggleValues_member.
Qed.

Lemma findToggleValues_shadowed_witness :
  findToggleValues "ON" [["on"; "off"]; ["ON"; "OFF"]]
  = findToggleValues "ON" [["on"; "off"]].
Proof.
  refine (proj1 findToggleValues_shadowed [["on"; "off"]] ["ON"; "OFF"] [] "ON" _).
  apply (bool_decide_unpack _). by vm_compute.
Defined.

(** X11: with the default table, a value that holds a capital letter is
    never changed.  When findToggleValues returns a group of the default
    table for a value and the trimmed, quote-stripped value is not in lower
    case, getNextValue with that group returns the value as it is: the
    values TRUE, Yes or ON are flagged toggleable and toggle to
    themselves. *)
Theorem getNextValue_default_capitals (value : jsstring) (G : list jsstring) :
  findToggleValues value defaultToggleValues = Some G ->
  JS.toLowerCase (JS.stripQuotes (JS.trim value)) <> JS.stripQuotes (JS.trim value) ->
  getNextValue value G = value.
Proof.
  intros HG Hcap. apply getNextValue_not_found, arrayIndexOf_missing.
  intros Hin. apply defaults_lower in HG. rewrite Forall_forall in HG.
  by apply Hcap, HG.
Qed.

Lemma getNextValue_default_capitals_witness :
  findToggleValues "TRUE" defaultToggleValues = Some ["true"; "false"]
  /\ getNextValue "TRUE" ["true"; "false"] = "TRUE".
Proof.
  split; [by vm_compute|].
  apply (getNextValue_default_capitals "TRUE" ["true"; "false"]);
    by vm_compute.
Defined.

(** ** The next value the views announce *)

Lemma findIndexFrom_indexOf x (l : list jsstring) k :
  Lib.findIndexFrom (fun v => bool_decide (v = x)) l k = JS.arrayIndexOfFrom x l k.
Proof. revert k. induction l as [|y l IH]; intros k; [done|]. simpl. by rewrite IH. Qed.

Lemma findIndex_indexOf x (l : list jsstring) :
  Lib.findIndex (fun v => bool_decide (v = x)) l = JS.arrayIndexOf x l.
Proof. apply findIndexFrom_indexOf. Qed.

Lemma findIndexFrom_found {A} (test : A -> bool) (l : list A) k :
  Exists (fun x => test x = true) l ->
  exists i x, Lib.findIndexFrom test l k = (k + Z.of_nat i)%Z
              /\ l !! i = Some x /\ test x = true
              /\ forall j y, j < i -> l !! j = Some y -> test y = false.
Proof.
  revert k. induction l as [|y l IH]; intros k Hex; [by inversion Hex|].
  simpl. destruct (test y) eqn:Ey.
  - exists 0, y. split; [lia|]. split; [done|]. split; [done|]. lia.
  - apply Exists_cons in Hex as [Hy|Hex]; [congruence|].
    destruct (IH (k + 1)%Z Hex) as (i & x & Hi & Hx & Ht & Hfirst).
    exists (S i), x. split; [lia|]. split; [done|]. split; [done|].
    intros [|j] y' Hj; simpl; [by intros [= <-]|]. apply Hfirst. lia.
Qed.

Lemma remainder_successor (i n : nat) :
  i < n -> Lib.remainder (Z.of_nat i + 1) (Z.of_nat n)
           = Some (Z.of_nat ((i + 1) mod n)).
Proof.
  intros Hi. unfold Lib.remainder.
  destruct (Z.eqb_spec (Z.of_nat n) 0); [lia|].
  rewrite rem_successor by lia. done.
Qed.

Lemma elementAt_nat {A} (l : list A) (i : nat) :
  Lib.elementAt l (Some (Z.of_nat i)) = l !! i.
Proof. apply arrayGet_nat. Qed.

(** X12: when the quote-stripped value of a toggleable entry is a member of
    its group verbatim, the quick pick of the status bar and the code lens
    announce the same next value, the member after the first occurrence of
    the value, wrapping around; the toggle writes that member, inside the
    quote layer of the value. *)
Theorem previews_agree (file : ParsedDotFile) (e : DotFileEntry)
    (u : jsstring) (G : list jsstring) (i : nat) :
  isToggleable e = true -> toggleValues e = Some G ->
  JS.arrayIndexOf (JS.stripQuotes (value e)) G = Z.of_nat i ->
  JS.trim (value e) = value e ->
  exists m,
    G !! ((i + 1) mod length G) = Some m
    /\ detail (StatusBarProvider.createQuickPickItem file e) = (value e, m)
    /\ (lensNextValue <$> CodeLensProvider.createCodeLens e u) = Some (Some m)
    /\ getNextValue (value e) G = wrap (detectedStyle (value e)) m.
Proof.
  intros Hflag HG Hidx Htrim.
  destruct (getNextValue_found (value e) G i) as (m & Hm & Hnext).
  { by rewrite Htrim. }
  rewrite Htrim in Hnext.
  destruct (arrayIndexOf_found G _ i Hidx) as [Hi _].
  pose proof (lookup_lt_Some _ _ _ Hi) as Hlt.
  exists m. split; [done|]. split; [|split; [|done]].
  - unfold StatusBarProvider.createQuickPickItem. simpl. rewrite HG, Hidx.
    destruct (Z.leb_spec 0 (Z.of_nat i)); [|lia].
    by rewrite remainder_successor, elementAt_nat, Hm.
  - unfold CodeLensProvider.createCodeLens. rewrite Hflag, HG. simpl.
    by rewrite findIndex_indexOf, Hidx, remainder_successor, elementAt_nat, Hm.
Qed.

Lemma previews_agree_witness :
  detail (StatusBarProvider.createQuickPickItem
            {| uri := ".env"; relativePath := ".env"; entries := [];
               toggleableEntries := [] |}
            (staleEntry 0 (DQ :: "off" ++ [DQ]) 6 11))
  = (DQ :: "off" ++ [DQ], "on")
  /\ getNextValue (DQ :: "off" ++ [DQ]) ["on"; "off"] = DQ :: "on" ++ [DQ].
Proof.
  destruct (previews_agree
              {| uri := ".env"; relativePath := ".env"; entries := [];
                 toggleableEntries := [] |}
              (staleEntry 0 (DQ :: "off" ++ [DQ]) 6 11) ".env" ["on"; "off"] 1)
    as (m & Hm & Hq & _ & Hn); [done|done|by vm_compute|by vm_compute|].
  injection Hm as <-. by split.
Defined.

(** X13: when the quote-stripped value of a toggleable entry is not a
    member of its group verbatim (a value that matched up to case only),
    the quick pick of the status bar and the code lens announce the first
    member of the group, while getNextValue returns the value as it is: what
    the views announce is not what the toggle writes. *)
Theorem previews_first_member (file : ParsedDotFile) (e : DotFileEntry)
    (u first : jsstring) (others : list jsstring) :
  isToggleable e = true -> toggleValues e = Some (first :: others) ->
  JS.stripQuotes (value e) ∉ first :: others ->
  JS.trim (value e) = value e ->
  detail (StatusBarProvider.createQuickPickItem file e) = (value e, first)
  /\ (lensNextValue <$> CodeLensProvider.createCodeLens e u) = Some (Some first)
  /\ getNextValue (value e) (first :: others) = value e.
Proof.
  intros Hflag HG Hout Htrim.
  apply arrayIndexOf_missing in Hout. split; [|split].
  - unfold StatusBarProvider.createQuickPickItem. simpl. by rewrite HG, Hout.
  - unfold CodeLensProvider.createCodeLens. rewrite Hflag, HG. simpl.
    rewrite findIndex_indexOf, Hout. unfold Lib.remainder.
    destruct (Z.eqb_spec (Z.of_nat (length (first :: others))) 0) as [E|_];
      [simpl in E; lia|].
    done.
  - apply getNextValue_not_found. by rewrite Htrim.
Qed.

Lemma previews_first_member_witness :
  exists e,
    parseLine "DEBUG=False" 0 defaultToggleValues = Some e
    /\ (lensNextValue <$> CodeLensProvider.createCodeLens e ".env")
       = Some (Some "true")
    /\ getNextValue (value e) ["true"; "false"] = value e.
Proof.
  destruct (parseLine "DEBUG=False" 0 defaultToggleValues) as [e|] eqn:E;
    [|vm_compute in E; discriminate E].
  vm_compute in E. injection E as <-. eexists. split; [reflexivity|].
  refine (proj2 (previews_first_member
                   {| uri := ".env"; relativePath := ".env"; entries := [];
                      toggleableEntries := [] |} _ ".env" "true" ["false"]
                   _ _ _ _)).
  - done.
  - done.
  - apply (bool_decide_unpack _). by vm_compute.
  - by vm_compute.
Defined.

Lemma isDot_no_CR s : forallb Regex.isDot s = true -> CR ∉ s.
Proof.
  intros H Hin. rewrite forallb_forall in H.
  apply list_elem_of_In, H in Hin. by vm_compute in Hin.
Qed.

Lemma parseLine_value_normal text n groups e :
  parseLine text n groups = Some e ->
  unquotedValueOf (value e) = JS.stripQuotes (value e)
  /\ JS.trim (value e) = value e.
Proof.
  intros (pre & ws0 & ws1 & ws2 & _ & _ & _ & _ & _ & _ & Htrim & Hdot
          & _)%parseLine_split.
  split; [|done]. unfold unquotedValueOf. rewrite Htrim, removeCR_fixed; [done|].
  apply isDot_no_CR in Hdot. rewrite elem_of_app in Hdot. tauto.
Qed.

(** X14: the hover text of a decoration always names a member of the group.
    For every entry that parseLine flags toggleable, with its group G, the
    next value of the decoration provider is defined: it is the member after
    the first member equal to the quote-stripped value up to case, wrapping
    around and without quotes.  When the value is not a member verbatim, the
    toggle leaves it as it is, so that the hover announces a change that
    does not happen. *)
Theorem hover_next_value (text : jsstring) (n : Z)
    (groups : list (list jsstring)) (e : DotFileEntry) :
  parseLine text n groups = Some e -> isToggleable e = true ->
  exists G i x m,
    toggleValues e = Some G
    /\ G !! i = Some x
    /\ JS.toLowerCase x = JS.toLowerCase (JS.stripQuotes (value e))
    /\ (forall j y, j < i -> G !! j = Some y ->
          JS.toLowerCase y <> JS.toLowerCase (JS.stripQuotes (value e)))
    /\ G !! ((i + 1) mod length G) = Some m
    /\ DecorationProvider.getNextValue (value e) G = Some m
    /\ (JS.stripQuotes (value e) ∉ G -> getNextValue (value e) G = value e).
Proof.
  intros Hparse Hflag.
  destruct (parseLine_value_normal _ _ _ _ Hparse) as [Hnorm Htrim].
  apply parseLine_split in Hparse
    as (pre & ws0 & ws1 & ws2 & _ & _ & _ & _ & _ & _ & _ & _ & _ & _ & _ & _
        & Htv & Hbool).
  rewrite Hbool, bool_decide_eq_true in Hflag.
  destruct (toggleValues e) as [G|] eqn:HG; [|done].
  symmetry in Htv.
  pose proof (findToggleValues_case_lower _ _ _ Htv) as Hin.
  rewrite Hnorm in Hin.
  set (test := fun v : jsstring =>
         bool_decide (JS.toLowerCase v = JS.toLowerCase (JS.stripQuotes (value e)))).
  assert (Exists (fun x => test x = true) G) as Hex.
  { apply list_elem_of_fmap in Hin as (x & Hx & Hxin).
    apply Exists_exists. exists x. split; [done|].
    unfold test. by rewrite bool_decide_eq_true. }
  destruct (findIndexFrom_found test G 0 Hex) as (i & x & Hi & Hx & Ht & Hfirst).
  pose proof (lookup_lt_Some _ _ _ Hx) as Hlt.
  destruct (lookup_lt_is_Some_2 G ((i + 1) mod length G)) as [m Hm].
  { apply Nat.mod_upper_bound. lia. }
  exists G, i, x, m. split; [done|]. split; [done|].
  split; [by apply bool_decide_eq_true in Ht|]. split.
  { intros j y Hj Hy. specialize (Hfirst j y Hj Hy).
    by apply bool_decide_eq_false in Hfirst. }
  split; [done|]. split.
  - unfold DecorationProvider.getNextValue. fold test.
    unfold Lib.findIndex. rewrite Hi, Z.add_0_l.
    by rewrite remainder_successor, elementAt_nat.
  - intros Hout. apply getNextValue_not_found. rewrite Htrim.
    by apply arrayIndexOf_missing.
Qed.

Lemma hover_next_value_witness :
  exists e,
    parseLine "DEBUG=False" 0 defaultToggleValues = Some e
    /\ DecorationProvider.getNextValue (value e) ["true"; "false"] = Some "true"
    /\ getNextValue (value e) ["true"; "false"] = value e.
Proof.
  destruct (parseLine "DEBUG=False" 0 defaultToggleValues) as [e|] eqn:E;
    [|vm_compute in E; discriminate E].
  destruct (hover_next_value _ _ _ _ E) as (G & i & x & m & HG & _ & _ & _ & _ & Hh & Hn).
  { vm_compute in E. by injection E as <-. }
  exists e. split; [done|].
  vm_compute in E. injection E as <-. simpl in HG. injection HG as <-.
  split; [by vm_compute|]. apply Hn.
  apply (bool_decide_unpack _). by vm_compute.
Defined.

(** ** The toggle service and the warning *)

Lemma afterWarning_due git u w :
  afterWarning git u w
  = if warningDue git u w then
      match showWarning git u w with
      | ChoiceCancel => None
      | ChoiceToggle =>
          Some (setAcknowledgedFiles ({[u]} ∪ acknowledgedFiles w) w)
      | ChoiceGitignore =>
          Some (setAcknowledgedFiles ({[u]} ∪ acknowledgedFiles w)
                  (setDocuments (addToGitignore git u (documents w)) w))
      end
    else Some w.
Proof. done. Qed.

Lemma afterWarning_None git u w :
  afterWarning git u w = None
  <-> warningDue git u w = true /\ showWarning git u w = ChoiceCancel.
Proof.
  rewrite afterWarning_due. destruct (warningDue git u w); [|by split; [|intros []]].
  destruct (showWarning git u w); split; (done || by intros []).
Qed.

Lemma afterWarning_acknowledged git u w w1 :
  afterWarning git u w = Some w1 ->
  (warningDue git u w = true -> u ∈ acknowledgedFiles w1)
  /\ (acknowledgedFiles w1 = acknowledgedFiles w
      \/ acknowledgedFiles w1 = {[u]} ∪ acknowledgedFiles w).
Proof.
  rewrite afterWarning_due. destruct (warningDue git u w).
  - destruct (showWarning git u w); [|done|]; intros [= <-]; simpl;
      (split; [intros _; set_solver|by right]).
  - intros [= <-]. split; [done|by left].
Qed.

Lemma toggle_cases vscode git u atLine w :
  let res := toggle vscode git u atLine w in
  (afterWarning git u w = None /\ res = (Normal cancelled, w))
  \/ exists w1 result,
       afterWarning git u w = Some w1
       /\ res.1 = Normal result /\ result <> cancelled
       /\ configuration res.2 = configuration w1
       /\ acknowledgedFiles res.2 = acknowledgedFiles w1
       /\ (forall p, p <> u -> documents res.2 !! p = documents w1 !! p)
       /\ (success result = false -> documents res.2 = documents w1).
Proof.
  intros res. subst res. rewrite toggle_run.
  destruct (afterWarning git u w) as [w1|]; [right|by left].
  exists w1.
  destruct (documents w1 !! u) as [content|]; [|by eexists].
  destruct (List.find _ _) as [entry|]; [|by eexists].
  destruct (isToggleable entry); [|by eexists].
  destruct (toggleValues entry) as [group|]; [|by eexists].
  simpl. destruct (editorEdit _ _ _ _ _ _) as [edited|]; [|by eexists].
  eexists. simpl. repeat split; try done.
  intros p Hp. by rewrite lookup_insert_ne.
Qed.

Lemma toggleSilent_cases vscode git u atLine w :
  let res := toggleSilent vscode git u atLine w in
  (afterWarning git u w = None /\ res = (Normal cancelled, w))
  \/ exists w1 result,
       afterWarning git u w = Some w1
       /\ res.1 = Normal result /\ result <> cancelled
       /\ configuration res.2 = configuration w1
       /\ acknowledgedFiles res.2 = acknowledgedFiles w1
       /\ (forall p, p <> u -> documents res.2 !! p = documents w1 !! p)
       /\ (success result = false -> documents res.2 = documents w1).
Proof.
  intros res. subst res. rewrite toggleSilent_run.
  destruct (afterWarning git u w) as [w1|]; [right|by left].
  exists w1.
  destruct (documents w1 !! u) as [content|]; [|by eexists].
  destruct (List.find _ _) as [entry|]; [|by eexists].
  destruct (isToggleable entry); [|by eexists].
  destruct (toggleValues entry) as [group|]; [|by eexists].
  simpl. destruct (workspaceApplyEdit _ _ _ _ _ _) as [edited|]; [|by eexists].
  eexists. simpl. repeat split; try done.
  intros p Hp. by rewrite lookup_insert_ne.
Qed.

Lemma framed_of_cases git u w (res : completion ToggleResult * World) :
  ((afterWarning git u w = None /\ res = (Normal cancelled, w))
   \/ exists w1 result,
        afterWarning git u w = Some w1
        /\ res.1 = Normal result /\ result <> cancelled
        /\ configuration res.2 = configuration w1
        /\ acknowledgedFiles res.2 = acknowledgedFiles w1
        /\ (forall p, p <> u -> documents res.2 !! p = documents w1 !! p)
        /\ (success result = false -> documents res.2 = documents w1)) ->
  framed git u w res.
Proof.
  intros [[_ ->]|(w1 & result & Haw & Hres & _ & Hcfg & Hack & Hdocs & Hfail)].
  - split; [exists cancelled; split; [done|by left]|].
    split; [done|]. split; [by left|]. intros p _. by left.
  - destruct (afterWarning_documents _ _ _ _ Haw) as (Hc1 & _ & Hd1).
    destruct (afterWarning_acknowledged _ _ _ _ Haw) as [_ Ha1].
    split.
    { exists result. split; [done|]. intros Hf. rewrite (Hfail Hf).
      destruct Hd1 as [->|[? ->]]; [by left|by right]. }
    split; [by rewrite Hcfg|]. split; [by rewrite Hack|].
    intros p Hp. rewrite (Hdocs p Hp).
    destruct Hd1 as [->|[? ->]]; [by left|by right].
Qed.

(** X15: the answer Cancel to the warning is a clean stop.  Either entry
    point returns the cancelled result exactly when the warning is due (the
    setting asks for it, the file is not acknowledged, git does not ignore
    it) and the user answers Cancel; the world is then exactly as before:
    nothing is written, the file is not recorded as acknowledged, and the
    next toggle of the file asks again. *)
Theorem toggle_cancelled (vscode : VSCode) (git : GitignoreService)
    (u : jsstring) (atLine : Z) (w : World) :
  let due := warningDue git u w = true /\ showWarning git u w = ChoiceCancel in
  ((toggle vscode git u atLine w).1 = Normal cancelled <-> due)
  /\ ((toggleSilent vscode git u atLine w).1 = Normal cancelled <-> due)
  /\ (due -> toggle vscode git u atLine w = (Normal cancelled, w)
             /\ toggleSilent vscode git u atLine w = (Normal cancelled, w)).
Proof.
  intros due.
  pose proof (toggle_cases vscode git u atLine w) as Ht.
  pose proof (toggleSilent_cases vscode git u atLine w) as Hs.
  cbv zeta in Ht, Hs. unfold due. rewrite <- afterWarning_None.
  split; [|split].
  - destruct Ht as [[Haw ->]|(w1 & r & Haw & Hr & Hne & _)]; [done|].
    rewrite Hr, Haw. split; [|done]. by intros [= ->].
  - destruct Hs as [[Haw ->]|(w1 & r & Haw & Hr & Hne & _)]; [done|].
    rewrite Hr, Haw. split; [|done]. by intros [= ->].
  - intros Haw.
    destruct Ht as [[_ ->]|(w1 & r & Haw' & _)]; [|congruence].
    destruct Hs as [[_ ->]|(w1 & r & Haw' & _)]; [done|congruence].
Qed.

Lemma toggle_cancelled_witness :
  toggle lineHost (prompting ChoiceCancel) ".env" 0 sampleWorld
  = (Normal cancelled, sampleWorld).
Proof.
  refine (proj1 (proj2 (proj2 (toggle_cancelled lineHost (prompting ChoiceCancel)
                                 ".env" 0 sampleWorld)) _)).
  by vm_compute.
Defined.

(** X16: what a toggle can touch.  A run of either entry point on a file
    always ends normally with a result; it leaves the settings alone; it
    adds at most the toggled file to the acknowledged paths; a document
    other than the toggled file keeps its text, unless the user answered
    the warning with Add to .gitignore, in which case it has the text the
    gitignore service gave it; and a run whose result is not a success
    leaves every document as the warning step left it. *)
Theorem toggle_frame (vscode : VSCode) (git : GitignoreService)
    (u : jsstring) (atLine : Z) (w : World) :
  framed git u w (toggle vscode git u atLine w)
  /\ framed git u w (toggleSilent vscode git u atLine w).
Proof.
  split; apply framed_of_cases.
  - apply toggle_cases.
  - apply toggleSilent_cases.
Qed.

Lemma afterWarning_settled git u w :
  cfgShowGitignoreWarning (configuration w) = false \/ u ∈ acknowledgedFiles w ->
  afterWarning git u w = Some w.
Proof.
  intros Hq. rewrite afterWarning_due. unfold warningDue.
  destruct Hq as [->|Hin]; [done|].
  rewrite (bool_decide_eq_true_2 _ Hin). by rewrite andb_false_r.
Qed.

(** X17: when the warning is switched off or the file is acknowledged, a
    toggle does not consult the gitignore service at all: its run is the
    same whatever git says and whatever the user would answer.  When the warning is due and the answer
    is not Cancel, the file is acknowledged after the run, whether or not
    the toggle itself succeeds, so that the next toggle of the file runs
    without the service.  After clearAcknowledgedFiles no file is
    acknowledged. *)
Theorem toggle_acknowledged_once (vscode : VSCode) (git git' : GitignoreService)
    (u : jsstring) (atLine atLine' : Z) (w : World) :
  (cfgShowGitignoreWarning (configuration w) = false \/ u ∈ acknowledgedFiles w ->
   toggle vscode git u atLine w = toggle vscode git' u atLine w
   /\ toggleSilent vscode git u atLine w = toggleSilent vscode git' u atLine w)
  /\ (warningDue git u w = true -> showWarning git u w <> ChoiceCancel ->
      let w' := (toggle vscode git u atLine w).2 in
      let w'' := (toggleSilent vscode git u atLine w).2 in
      (isAcknowledged u w').1 = Normal true
      /\ (isAcknowledged u w'').1 = Normal true
      /\ toggle vscode git u atLine' w' = toggle vscode git' u atLine' w'
      /\ toggleSilent vscode git u atLine' w'' = toggleSilent vscode git' u atLine' w'')
  /\ (isAcknowledged u (clearAcknowledgedFiles w).2).1 = Normal false.
Proof.
  assert (forall w0,
            cfgShowGitignoreWarning (configuration w0) = false
            \/ u ∈ acknowledgedFiles w0 ->
            forall l, toggle vscode git u l w0 = toggle vscode git' u l w0
                      /\ toggleSilent vscode git u l w0
                         = toggleSilent vscode git' u l w0) as Hsame.
  { intros w0 Hq l. rewrite !toggle_run, !toggleSilent_run.
    by rewrite (afterWarning_settled git u w0 Hq),
               (afterWarning_settled git' u w0 Hq). }
  split; [intros Hq; apply Hsame, Hq|]. split.
  - intros Hdue Hchoice.
    assert (u ∈ acknowledgedFiles (toggle vscode git u atLine w).2) as Hin.
    { destruct (toggle_cases vscode git u atLine w)
        as [[Haw _]|(w1 & r & Haw & _ & _ & _ & Hack & _)].
      - apply afterWarning_None in Haw as [_ ?]. done.
      - rewrite Hack. by apply (afterWarning_acknowledged _ _ _ _ Haw). }
    assert (u ∈ acknowledgedFiles (toggleSilent vscode git u atLine w).2) as Hin'.
    { destruct (toggleSilent_cases vscode git u atLine w)
        as [[Haw _]|(w1 & r & Haw & _ & _ & _ & Hack & _)].
      - apply afterWarning_None in Haw as [_ ?]. done.
      - rewrite Hack. by apply (afterWarning_acknowledged _ _ _ _ Haw). }
    cbv zeta. unfold isAcknowledged, gets. simpl.
    rewrite !bool_decide_eq_true_2 by done.
    split; [done|]. split; [done|]. split.
    + apply Hsame. by right.
    + apply Hsame. by right.
  - unfold isAcknowledged, clearAcknowledgedFiles, gets, modify. simpl.
    rewrite bool_decide_eq_false_2; [done|]. set_solver.
Qed.

Lemma toggle_acknowledged_once_witness :
  let w' := (toggle lineHost (prompting ChoiceToggle) ".env" 1 sampleWorld).2 in
  (isAcknowledged ".env" w').1 = Normal true
  /\ toggle lineHost (prompting ChoiceToggle) ".env" 0 w'
     = toggle lineHost allIgnored ".env" 0 w'.
Proof.
  destruct (proj1 (proj2 (toggle_acknowledged_once lineHost (prompting ChoiceToggle)
                            allIgnored ".env" 1 0 sampleWorld)))
    as (H1 & _ & H2 & _); [by vm_compute|done|].
  by split.
Defined.

(** ** The workspace scan and the cache *)

Lemma uniquePaths_spec files seen :
  NoDup (uniquePaths files seen)
  /\ (forall x, x ∈ uniquePaths files seen <-> x ∈ files /\ x ∉ seen)
  /\ sublist (uniquePaths files seen) files.
Proof.
  revert seen. induction files as [|u rest IH]; intros seen; simpl.
  - split; [constructor|]. split; [|done]. intros x. rewrite elem_of_nil. tauto.
  - case_bool_decide as Hu.
    + destruct (IH seen) as (Hnd & Hin & Hsub).
      split; [done|]. split; [|by apply sublist_cons].
      intros x. rewrite Hin, elem_of_cons. split; [tauto|].
      intros [[->|Hx] Hn]; [done|tauto].
    + destruct (IH ({[u]} ∪ seen)) as (Hnd & Hin & Hsub).
      split; [|split; [|by apply sublist_skip]].
      * constructor; [|done]. rewrite Hin, elem_of_union, elem_of_singleton. tauto.
      * intros x. rewrite !elem_of_cons, Hin, elem_of_union, elem_of_singleton.
        split.
        -- intros [->|[Hx Hn]]; [by split; [left|]|]. tauto.
        -- intros [[->|Hx] Hn]; [by left|].
           destruct (decide (x = u)) as [->|Hne]; [by left|]. tauto.
Qed.

Lemma uniquePaths_order files seen i j a b :
  uniquePaths files seen !! i = Some a ->
  uniquePaths files seen !! j = Some b ->
  i < j ->
  exists i', files !! i' = Some a
             /\ forall j', files !! j' = Some b -> i' < j'.
Proof.
  revert seen i j. induction files as [|u rest IH]; intros seen i j; [done|].
  simpl. case_bool_decide as Hu.
  - intros Ha Hb Hij. destruct (IH seen i j Ha Hb Hij) as (i' & Hi' & Hlater).
    exists (S i'). split; [done|]. intros [|j'] Hj'.
    + injection Hj' as ->. exfalso.
      apply list_elem_of_lookup_2 in Hb.
      by apply (uniquePaths_spec rest seen) in Hb as [_ ?].
    + apply Hlater in Hj'. lia.
  - assert (forall k, uniquePaths rest ({[u]} ∪ seen) !! k = Some b -> b <> u)
      as Hfresh.
    { intros k Hk ->. apply list_elem_of_lookup_2 in Hk.
      apply (uniquePaths_spec rest ({[u]} ∪ seen)) in Hk as [_ Hk].
      apply Hk. rewrite elem_of_union, elem_of_singleton. by left. }
    destruct i as [|i]; destruct j as [|j]; try lia; intros Ha Hb Hij.
    + injection Ha as ->. exists 0. split; [done|]. intros [|j'] Hj'; [|lia].
      injection Hj' as ->. by destruct (Hfresh j Hb).
    + destruct (IH ({[u]} ∪ seen) i j Ha Hb ltac:(lia)) as (i' & Hi' & Hlater).
      exists (S i'). split; [done|]. intros [|j'] Hj'.
      * injection Hj' as ->. by destruct (Hfresh j Hb).
      * apply Hlater in Hj'. lia.
Qed.

Lemma elem_of_concat_map {A B} (f : A -> list B) (l : list A) (x : B) :
  x ∈ concat (map f l) <-> exists a, a ∈ l /\ x ∈ f a.
Proof.
  induction l as [|a l IH]; simpl.
  - split; [by intros ?%elem_of_nil|]. by intros (a & ?%elem_of_nil & _).
  - rewrite elem_of_app, IH. split.
    + intros [Hx|(a' & Ha' & Hx)].
      * exists a. split; [apply list_elem_of_here|done].
      * exists a'. split; [by apply list_elem_of_further|done].
    + intros (a' & [->|Ha']%elem_of_cons & Hx); [by left|].
      right. by exists a'.
Qed.

Section CacheFacts.

Context (vscode : VSCode) (w : World).

Lemma collectMatches_result patterns files s :
  (collectMatches vscode w patterns files s).2.1
  = files ++ concat (map (findFiles vscode (documents w)) patterns).
Proof.
  revert files s. induction patterns as [|pattern rest IH]; intros files s; simpl.
  - by rewrite app_nil_r.
  - unfold abind, await, aret. simpl.
    pose proof (IH (files ++ findFiles vscode (documents w) pattern) s) as H.
    destruct (collectMatches vscode w rest _ s) as [seen [r s']].
    simpl in *. by rewrite H, <- app_assoc.
Qed.

Lemma findDotFiles_result s :
  (findDotFiles vscode w s).2.1 = uniquePaths (allMatches vscode w) ∅.
Proof.
  unfold findDotFiles, abind, aret.
  pose proof (collectMatches_result (cfgFilePatterns (configuration w)) [] s) as H.
  destruct (collectMatches vscode w _ [] s) as [seen [r s']].
  simpl in *. by rewrite H.
Qed.

Lemma findDotFiles_state s : (findDotFiles vscode w s).2.2 = s.
Proof.
  assert (quiet (findDotFiles vscode w)) as Hq.
  { unfold findDotFiles. apply quiet_abind; [apply quiet_collectMatches|].
    intros files. apply quiet_aret. }
  apply Hq.
Qed.

(** X18: the workspace scan returns every file once.  The list of
    findDotFiles has no duplicates; it holds exactly the files that the
    workspace search finds for at least one of the configured patterns; it
    keeps them in the order of their first occurrence in the findings taken
    pattern by pattern: it is a sublist of them, and of two files of the
    list the one that stands first has an occurrence in the findings before
    every occurrence of the other; and the scan leaves the cache service as
    it was. *)
Theorem findDotFiles_unique (s : FileWatcherService) :
  let found := (findDotFiles vscode w s).2.1 in
  NoDup found
  /\ (forall u, u ∈ found <->
        exists pattern, pattern ∈ cfgFilePatterns (configuration w)
                        /\ u ∈ findFiles vscode (documents w) pattern)
  /\ sublist found (allMatches vscode w)
  /\ (forall i j a b,
        found !! i = Some a -> found !! j = Some b -> i < j ->
        exists i', allMatches vscode w !! i' = Some a
                   /\ forall j', allMatches vscode w !! j' = Some b -> i' < j')
  /\ (findDotFiles vscode w s).2.2 = s.
Proof.
  cbv zeta. rewrite findDotFiles_result, findDotFiles_state.
  destruct (uniquePaths_spec (allMatches vscode w) ∅) as (Hnd & Hin & Hsub).
  split; [done|]. split; [|split; [done|split; [|done]]].
  - intros u. rewrite Hin. unfold allMatches. rewrite elem_of_concat_map. split.
    + by intros [? _].
    + intros H. split; [done|apply not_elem_of_empty].
  - intros i j a b. apply uniquePaths_order.
Qed.

Lemma parseEach_result uris acc s :
  (parseEach vscode w uris acc s).2.1 = acc ++ omap (freshParse vscode w) uris.
Proof.
  revert acc s. induction uris as [|u rest IH]; intros acc s; simpl.
  - by rewrite app_nil_r.
  - unfold abind, await, aret, freshParse. simpl.
    destruct (parseFile vscode u w) as [file|message].
    + pose proof (IH (acc ++ [file]) s) as H.
      destruct (parseEach vscode w rest (acc ++ [file]) s) as [seen [r s']].
      simpl in *. by rewrite H, <- app_assoc.
    + pose proof (IH acc s) as H.
      destruct (parseEach vscode w rest acc s) as [seen [r s']].
      simpl in *. by rewrite H.
Qed.

Lemma parseAllFiles_result s :
  (parseAllFiles vscode w s).2.1
  = omap (freshParse vscode w) (uniquePaths (allMatches vscode w) ∅).
Proof.
  unfold parseAllFiles, abind, await.
  pose proof (findDotFiles_result s) as Hr.
  pose proof (findDotFiles_state s) as Hs.
  destruct (findDotFiles vscode w s) as [seen [uris s1]]. simpl in *. subst.
  pose proof (parseEach_result (uniquePaths (allMatches vscode w) ∅) [] s) as H.
  destruct (parseEach vscode w _ [] s) as [seen' [r s']]. simpl in *. done.
Qed.

Lemma parseAllFiles_state s : (parseAllFiles vscode w s).2.2 = s.
Proof. apply quiet_parseAllFiles. Qed.

(** X19: one unreadable file does not stop the batch.  parseAllFiles
    returns, in the order of the scan, the parse of every found file that
    can be opened, and skips the others: a file is in the result exactly
    when the scan finds it and it parses, and then it is its fresh parse. *)
Theorem parseAllFiles_skips_failures (s : FileWatcherService) :
  (parseAllFiles vscode w s).2.1
  = omap (freshParse vscode w) (findDotFiles vscode w s).2.1
  /\ forall file,
       file ∈ (parseAllFiles vscode w s).2.1 <->
       uri file ∈ (findDotFiles vscode w s).2.1
       /\ parseFile vscode (uri file) w = Normal file.
Proof.
  rewrite parseAllFiles_result, findDotFiles_result. split; [done|].
  intros file. rewrite list_elem_of_omap. unfold freshParse. split.
  - intros (u & Hu & Hp). destruct (parseFile vscode u w) as [f|] eqn:E; [|done].
    injection Hp as ->.
    assert (uri file = u) as ->; [|done].
    revert E. unfold parseFile. destruct (documents w !! u); [|done].
    by intros [= <-].
  - intros [Hu Hp]. exists (uri file). by rewrite Hp.
Qed.

Lemma freshParse_uri u file : freshParse vscode w u = Some file -> uri file = u.
Proof.
  unfold freshParse, parseFile. destruct (documents w !! u); [|done].
  by intros [= <-].
Qed.

Lemma foldl_set_lookup (uris : list jsstring) (m : gmap jsstring ParsedDotFile)
    (u : jsstring) :
  foldl (fun m file => <[uri file := file]> m) m (omap (freshParse vscode w) uris)
    !! u
  = if bool_decide (u ∈ uris)
    then match freshParse vscode w u with
         | Some file => Some file
         | None => m !! u
         end
    else m !! u.
Proof.
  revert m. induction uris as [|a rest IH]; intros m; [done|]. simpl.
  destruct (freshParse vscode w a) as [file|] eqn:E; simpl.
  - rewrite IH. rewrite (freshParse_uri a file E).
    destruct (decide (u = a)) as [->|Hne].
    + rewrite E, lookup_insert_eq.
      rewrite (bool_decide_eq_true_2 (a ∈ a :: rest)) by apply list_elem_of_here.
      by case_bool_decide.
    + rewrite lookup_insert_ne by done.
      assert (u ∈ a :: rest <-> u ∈ rest) as Hiff.
      { rewrite elem_of_cons. split; [by intros [?|?]|by right]. }
      by rewrite (bool_decide_ext _ _ Hiff).
  - rewrite IH. destruct (decide (u = a)) as [->|Hne].
    + rewrite E.
      rewrite (bool_decide_eq_true_2 (a ∈ a :: rest)) by apply list_elem_of_here.
      by case_bool_decide.
    + assert (u ∈ a :: rest <-> u ∈ rest) as Hiff.
      { rewrite elem_of_cons. split; [by intros [?|?]|by right]. }
      by rewrite (bool_decide_ext _ _ Hiff).
Qed.

Lemma refresh_state s :
  (refresh vscode w s).2.2
  = {| parsedFiles :=
         foldl (fun m file => <[uri file := file]> m) ∅
           (omap (freshParse vscode w) (uniquePaths (allMatches vscode w) ∅));
       changeEvents := S (changeEvents s) |}.
Proof.
  unfold refresh, abind, await, update. simpl.
  pose proof (parseAllFiles_result
                {| parsedFiles := ∅; changeEvents := changeEvents s |}) as Hr.
  pose proof (parseAllFiles_state
                {| parsedFiles := ∅; changeEvents := changeEvents s |}) as Hs.
  destruct (parseAllFiles vscode w _) as [seen [files s1]]. simpl in *.
  by subst.
Qed.

(** X20: after a refresh the cache is the picture of the workspace.  The
    cache holds a file exactly when the workspace search finds it for one
    of the configured patterns and it can be parsed, and what it holds is
    the fresh parse; nothing of the cache as it was before the refresh
    survives, whatever it held. *)
Theorem refresh_result (s : FileWatcherService) (u : jsstring) :
  getParsedFile u (refresh vscode w s).2.2
  = if bool_decide (u ∈ allMatches vscode w) then freshParse vscode w u else None.
Proof.
  unfold getParsedFile. rewrite refresh_state. simpl.
  rewrite foldl_set_lookup, lookup_empty.
  destruct (uniquePaths_spec (allMatches vscode w) ∅) as (_ & Hin & _).
  assert (u ∈ uniquePaths (allMatches vscode w) ∅ <-> u ∈ allMatches vscode w)
    as Hiff.
  { rewrite Hin. split; [by intros [? _]|]. intros H.
    split; [done|apply not_elem_of_empty]. }
  rewrite (bool_decide_ext _ _ Hiff). case_bool_decide; [|done].
  by destruct (freshParse vscode w u).
Qed.

Lemma updateFile_run u s :
  updateFile vscode w u s
  = ([s; s],
     (tt, {| parsedFiles :=
               match freshParse vscode w u with
               | Some file => <[u := file]> (parsedFiles s)
               | None => delete u (parsedFiles s)
               end;
             changeEvents := changeEvents s |})).
Proof.
  unfold updateFile, abind, await, aret, freshParse. simpl.
  by destruct (parseFile vscode u w).
Qed.

(** X21: the watcher keeps one file of the cache up to date and leaves the
    others alone.  After updateFile the cache holds for the file its fresh
    parse, and nothing when the file cannot be parsed (never the stale
    parse); every other file is as before; no event fires.  The handlers
    for a change and for a creation do this and fire exactly one event; the
    handler for a deletion removes the file, leaves the others and fires
    one event.  While the parse is awaited the cache is the old one. *)
Theorem updateFile_lookup (u : jsstring) (s : FileWatcherService) :
  let s' := (updateFile vscode w u s).2.2 in
  getParsedFile u s' = freshParse vscode w u
  /\ (forall p, p <> u -> getParsedFile p s' = getParsedFile p s)
  /\ changeEvents s' = changeEvents s
  /\ Forall (fun o => o = s) (updateFile vscode w u s).1
  /\ (watcherDidChange vscode w u s).2.2
     = {| parsedFiles := parsedFiles s'; changeEvents := S (changeEvents s) |}
  /\ watcherDidCreate vscode w u s = watcherDidChange vscode w u s
  /\ (let d := (watcherDidDelete u s).2.2 in
      getParsedFile u d = None
      /\ (forall p, p <> u -> getParsedFile p d = getParsedFile p s)
      /\ changeEvents d = S (changeEvents s)).
Proof.
  cbv zeta. unfold watcherDidChange, watcherDidCreate, watcherDidDelete,
    abind, await, fire, deleteParsedFile, update, getParsedFile.
  rewrite updateFile_run. simpl. split.
  { destruct (freshParse vscode w u); [apply lookup_insert_eq|apply lookup_delete_eq]. }
  split.
  { intros p Hp. destruct (freshParse vscode w u);
      [by rewrite lookup_insert_ne|by rewrite lookup_delete_ne]. }
  split; [done|]. split; [by repeat constructor|]. split; [done|].
  split; [done|]. split; [apply lookup_delete_eq|].
  split; [|done]. intros p Hp. by rewrite lookup_delete_ne.
Qed.

(** X22: getOrParseFile trusts the cache.  When the cache holds the file it
    returns what the cache holds, without parsing and without a suspension
    point, also when the file has changed since; when it does not, it
    returns the fresh parse and stores it, or returns nothing and stores
    nothing when the file cannot be parsed; it never fires an event and
    never touches another file; and a call that returned a file returns the
    same file when it is repeated. *)
Theorem getOrParseFile_cache (u : jsstring) (s : FileWatcherService) :
  let res := getOrParseFile vscode w u s in
  (forall file, getParsedFile u s = Some file -> res = ([], (Some file, s)))
  /\ (getParsedFile u s = None ->
      res.2.1 = freshParse vscode w u
      /\ getParsedFile u res.2.2 = freshParse vscode w u)
  /\ (forall p, p <> u -> getParsedFile p res.2.2 = getParsedFile p s)
  /\ changeEvents res.2.2 = changeEvents s
  /\ (forall file, res.2.1 = Some file ->
        getOrParseFile vscode w u res.2.2 = ([], (Some file, res.2.2))).
Proof.
  cbv zeta. unfold getOrParseFile, getParsedFile, abind, inspect, await, aret,
    setParsedFile, update, freshParse.
  destruct (parsedFiles s !! u) as [cached|] eqn:Hc; simpl.
  - split; [by intros file [= <-]|]. split; [done|]. split; [done|].
    split; [done|]. intros file [= <-]. by rewrite Hc.
  - split; [done|].
    destruct (parseFile vscode u w) as [parsed|message]; simpl.
    + split; [by rewrite lookup_insert_eq|].
      split; [intros p Hp; by rewrite lookup_insert_ne|]. split; [done|].
      intros file [= <-]. by rewrite lookup_insert_eq.
    + by rewrite Hc.
Qed.

End CacheFacts.

Lemma findDotFiles_unique_witness :
  let s := {| parsedFiles := ∅; changeEvents := 0 |} in
  (findDotFiles overlapHost (worldOf ∅) s).2.1 = [".env"; ".env.local"; ".flags"]
  /\ exists i',
       allMatches overlapHost (worldOf ∅) !! i' = Some ".env"
       /\ forall j', allMatches overlapHost (worldOf ∅) !! j' = Some ".flags" ->
                     i' < j'.
Proof.
  intros s. split; [by vm_compute|].
  destruct (findDotFiles_unique overlapHost (worldOf ∅) s)
    as (_ & _ & _ & Horder & _).
  apply (Horder 0 2); [by vm_compute|by vm_compute|lia].
Defined.

(** ** The refresh, from start to end *)

(** C8, amended: in a run of refresh during which no other task writes the
    cache, the map is emptied first; at every suspension point of the
    rescan, and there is at least one, a reader finds the map empty and no
    notification fired yet; when the rescan is over the files it returned
    are set in one uninterrupted step: each of them is in the map under its
    path, and the map holds a path exactly when the workspace search finds
    it and it parses, with its fresh parse; and the change event fires
    once. *)
Theorem refresh_clears_then_fills (vscode : VSCode) (w : World)
    (s : FileWatcherService) :
  let res := refresh vscode w s in
  let rescan :=
    parseAllFiles vscode w {| parsedFiles := ∅; changeEvents := changeEvents s |} in
  res.1 <> []
  /\ Forall (fun o => parsedFiles o = ∅ /\ changeEvents o = changeEvents s) res.1
  /\ changeEvents res.2.2 = S (changeEvents s)
  /\ parsedFiles res.2.2
     = foldl (fun m file => <[uri file := file]> m) ∅ rescan.2.1
  /\ Forall (fun file => parseFile vscode (uri file) w = Normal file) rescan.2.1
  /\ (forall file, file ∈ rescan.2.1 -> parsedFiles res.2.2 !! uri file = Some file)
  /\ (forall u,
        parsedFiles res.2.2 !! u
        = if bool_decide (u ∈ allMatches vscode w) then freshParse vscode w u
          else None).
Proof.
  intros res rescan.
  set (s0 := {| parsedFiles := ∅; changeEvents := changeEvents s |}).
  assert (res.1 <> []
          /\ Forall (fun o => parsedFiles o = ∅ /\ changeEvents o = changeEvents s)
               res.1) as [Hne Hseen].
  { subst res. unfold refresh, abind, update. fold s0.
    pose proof (await_seen (parseAllFiles vscode w) s0) as Hne.
    pose proof (quiet_await _ (quiet_parseAllFiles vscode w) s0) as [Hs Hseen].
    destruct (await (parseAllFiles vscode w) s0) as [seen [files s1]].
    simpl in *. subst s1. rewrite !app_nil_r. split; [done|].
    eapply Forall_impl; [exact Hseen|]. by intros o ->. }
  assert (forall u,
            parsedFiles res.2.2 !! u
            = if bool_decide (u ∈ allMatches vscode w) then freshParse vscode w u
              else None) as Hlookup.
  { intros u. subst res. rewrite refresh_state. cbn [parsedFiles].
    rewrite foldl_set_lookup, lookup_empty.
    destruct (uniquePaths_spec (allMatches vscode w) ∅) as (_ & Hin & _).
    assert (u ∈ uniquePaths (allMatches vscode w) ∅ <-> u ∈ allMatches vscode w)
      as Hiff.
    { rewrite Hin. split; [by intros [? _]|]. intros H.
      split; [done|apply not_elem_of_empty]. }
    rewrite (bool_decide_ext _ _ Hiff). case_bool_decide; [|done].
    by destruct (freshParse vscode w u). }
  split; [done|]. split; [done|].
  split; [subst res; by rewrite refresh_state|].
  split.
  { subst res rescan. by rewrite refresh_state, parseAllFiles_result. }
  split; [apply parseAllFiles_parsed|].
  split; [|done].
  intros file. subst rescan. rewrite parseAllFiles_result.
  intros (u & Hu & Hfresh)%list_elem_of_omap.
  rewrite (freshParse_uri vscode w u file Hfresh), Hlookup.
  rewrite bool_decide_eq_true_2; [done|].
  by apply (uniquePaths_spec (allMatches vscode w) ∅) in Hu as [? _].
Qed.

Lemma refresh_clears_then_fills_witness :
  let w := worldOf {[ ".env" := "DEBUG=true" ++ [LF] ]} in
  let s := {| parsedFiles := ∅; changeEvents := 0 |} in
  exists file,
    parseFile lineHost ".env" w = Normal file
    /\ parsedFiles (refresh lineHost w s).2.2 !! ".env" = Some file.
Proof.
  intros w s.
  destruct (refresh_clears_then_fills lineHost w s)
    as (_ & _ & _ & _ & _ & Hset & _).
  destruct (parseFile lineHost ".env" w) as [file|] eqn:E; [|by vm_compute in E].
  exists file. split; [done|].
  assert (uri file = ".env") as Huri.
  { unfold parseFile in E. destruct (documents w !! ".env"); [|done].
    by injection E as <-. }
  rewrite <- Huri at 1. apply Hset.
  rewrite (parseAllFiles_result lineHost w).
  apply list_elem_of_omap. exists ".env". split.
  - apply (bool_decide_unpack _). by vm_compute.
  - unfold freshParse. by rewrite E.
Defined.

(** A file that is in the cache before the refresh and, unchanged, after
    it is missing from the cache at a suspension point in between. *)
Lemma refresh_not_atomic :
  let w := worldOf {[ ".env" := "DEBUG=true" ++ [LF] ]} in
  let s := (refresh lineHost w {| parsedFiles := ∅; changeEvents := 0 |}).2.2 in
  let res := refresh lineHost w s in
  is_Some (parsedFiles s !! ".env")
  /\ parsedFiles res.2.2 !! ".env" = parsedFiles s !! ".env"
  /\ ~ atomicSwap s res.2.2 res.1.
Proof.
  intros w s res.
  assert (is_Some (parsedFiles s !! ".env")) as Hs.
  { vm_compute. eauto. }
  assert (parsedFiles res.2.2 !! ".env" = parsedFiles s !! ".env") as Hr.
  { vm_compute. reflexivity. }
  assert (exists o seen, res.1 = o :: seen /\ parsedFiles o !! ".env" = None)
    as (o & seen & E & Ho).
  { vm_compute. eauto. }
  split; [done|]. split; [done|].
  unfold atomicSwap. rewrite E. intros [[Ha|Ha] _]%Forall_cons.
  - rewrite Ha in Ho. rewrite Ho in Hs. by destruct Hs.
  - rewrite Ha, Hr in Ho. rewrite Ho in Hs. by destruct Hs.
Qed.


Lemma getOrParseFile_cache_witness :
  let s := {| parsedFiles := ∅; changeEvents := 0 |} in
  (getOrParseFile lineHost sampleWorld ".env" s).2.1
  = freshParse lineHost sampleWorld ".env".
Proof.
  refine (proj1 (proj1 (proj2 (getOrParseFile_cache lineHost sampleWorld ".env"
                                 {| parsedFiles := ∅; changeEvents := 0 |})) _)).
  done.
Defined.

(** ** Which files are watched *)

Lemma watchedBy_step pattern rest name (e f c d : bool) base :
  Lib.includes ".env" pattern = e ->
  JS.endsWith ".flags" pattern || Lib.includes "/.flags" pattern = f ->
  JS.endsWith ".config" pattern || Lib.includes "/.config" pattern = c ->
  JS.startsWith "." (Lib.lastSegment pattern) = d ->
  Lib.removeFirst "*" (Lib.lastSegment pattern) = base ->
  watchedBy (pattern :: rest) name
  = (e && (bool_decide (name = ".env") || JS.startsWith ".env." name))
    || (f && bool_decide (name = ".flags"))
    || (c && bool_decide (name = ".config"))
    || (d && JS.startsWith base name)
    || watchedBy rest name.
Proof.
  intros <- <- <- <- <-. cbn [watchedBy].
  destruct (Lib.includes ".env" pattern && _); [done|].
  destruct ((JS.endsWith ".flags" pattern || _) && _); [done|].
  destruct ((JS.endsWith ".config" pattern || _) && _); [done|].
  by destruct (JS.startsWith "." (Lib.lastSegment pattern) && _).
Qed.

Lemma startsWith_refl p : JS.startsWith p p = true.
Proof. apply startsWith_app. exists []. by rewrite app_nil_r. Qed.

Lemma startsWith_shorter p q s :
  JS.startsWith (p ++ q) s = true -> JS.startsWith p s = true.
Proof.
  rewrite !startsWith_app. intros [r ->]. exists (q ++ r). by rewrite app_assoc.
Qed.

Lemma startsWith_false_eq p s :
  JS.startsWith p s = false -> bool_decide (s = p) = false.
Proof.
  intros H. apply bool_decide_eq_false_2. intros ->.
  by rewrite startsWith_refl in H.
Qed.

Lemma startsWith_false_longer p q s :
  JS.startsWith p s = false -> JS.startsWith (p ++ q) s = false.
Proof.
  intros H. destruct (JS.startsWith (p ++ q) s) eqn:E; [|done].
  apply startsWith_shorter in E. congruence.
Qed.

(** X23: what isWatchedFile makes of the default patterns.  With the
    patterns of the default configuration a file is watched exactly when the
    part of its path after the last slash or backslash starts with .env,
    with .flags or with .config: the directory plays no role, and names such
    as .envrc, .flags.bak or .configure are watched although the patterns
    for .flags and .config name one file each. *)
Theorem isWatchedFile_defaults (w : World) (fsPath : jsstring) :
  cfgFilePatterns (configuration w) = cfgFilePatterns defaultConfig ->
  isWatchedFile w fsPath
  = let fileName := Lib.lastSegment fsPath in
    JS.startsWith ".env" fileName || JS.startsWith ".flags" fileName
    || JS.startsWith ".config" fileName.
Proof.
  intros Hcfg. unfold isWatchedFile. rewrite Hcfg. cbv zeta.
  set (name := Lib.lastSegment fsPath).
  change (cfgFilePatterns defaultConfig)
    with ["**/.env*"; "**/.flags"; "**/.config"].
  rewrite (watchedBy_step "**/.env*" _ name true false false true ".env")
    by (by vm_compute).
  rewrite (watchedBy_step "**/.flags" _ name false true false true ".flags")
    by (by vm_compute).
  rewrite (watchedBy_step "**/.config" _ name false false true true ".config")
    by (by vm_compute).
  cbn [watchedBy andb orb].
  rewrite !orb_false_r.
  destruct (JS.startsWith ".env" name) eqn:E1.
  { by rewrite orb_true_r. }
  rewrite (startsWith_false_eq _ _ E1).
  change (JS.startsWith ".env." name) with (JS.startsWith (".env" ++ ".") name).
  rewrite (startsWith_false_longer ".env" "." name E1). cbn [orb].
  destruct (JS.startsWith ".flags" name) eqn:E2.
  { by rewrite orb_true_r. }
  rewrite (startsWith_false_eq _ _ E2). cbn [orb].
  destruct (JS.startsWith ".config" name) eqn:E3.
  { by rewrite orb_true_r. }
  by rewrite (startsWith_false_eq _ _ E3).
Qed.

Lemma isWatchedFile_defaults_witness :
  isWatchedFile sampleWorld "/repo/node_modules/pkg/.flags.bak" = true.
Proof.
  rewrite (isWatchedFile_defaults sampleWorld "/repo/node_modules/pkg/.flags.bak");
    by vm_compute.
Defined.

(** ** The ignore list *)

Lemma splitLines_cons_inv s : exists l ls, JS.splitLines s = l :: ls.
Proof.
  destruct s as [|c s]; simpl; [by eexists _, _|].
  case_bool_decide; [by eexists _, _|].
  destruct (JS.splitLines s); by eexists _, _.
Qed.

Lemma splitLines_app_LF a b :
  JS.splitLines (a ++ LF :: b) = JS.splitLines a ++ JS.splitLines b.
Proof.
  induction a as [|c a IH]; simpl.
  - by rewrite ?bool_decide_eq_true_2.
  - case_bool_decide; [by rewrite IH|]. rewrite IH.
    by destruct (splitLines_cons_inv a) as (l & ls & ->).
Qed.

Lemma splitLines_one s : LF ∉ s -> JS.splitLines s = [s].
Proof.
  induction s as [|c s IH]; [done|]. intros [Hc Hs]%not_elem_of_cons. simpl.
  rewrite bool_decide_eq_false_2 by done. by rewrite IH.
Qed.

Lemma splitLines_appended old rel :
  LF ∉ rel ->
  JS.splitLines (old ++ LF :: rel ++ [LF]) = JS.splitLines old ++ [rel; []].
Proof.
  intros Hrel. rewrite splitLines_app_LF. f_equal.
  change (rel ++ [LF]) with (rel ++ LF :: []).
  by rewrite splitLines_app_LF, splitLines_one.
Qed.

Lemma newContent_lines old rel :
  LF ∉ rel ->
  let newContent :=
    if JS.endsWith [LF] old || bool_decide (old = [])
    then old ++ rel ++ [LF]
    else old ++ [LF] ++ rel ++ [LF] in
  exists before, JS.splitLines newContent = before ++ [rel; []].
Proof.
  intros Hrel. cbv zeta.
  destruct (JS.endsWith [LF] old) eqn:E; simpl.
  - apply endsWith_snoc in E as [o ->]. exists (JS.splitLines o).
    rewrite <- app_assoc. by apply splitLines_appended.
  - case_bool_decide as Ho.
    + subst old. exists []. simpl.
      change (rel ++ [LF]) with (rel ++ LF :: []).
      by rewrite splitLines_app_LF, splitLines_one.
    + exists (JS.splitLines old). by apply splitLines_appended.
Qed.

(** X24: what adding a file to the ignore list writes.  Outside every
    workspace folder the answer is false and nothing is written; a run that
    answers false writes nothing; a run writes no file but the .gitignore of
    the folder.  When that file exists and can be read, and its stored form
    is valid UTF-8 that coding carries over piece by piece, the run only
    appends: what was stored is a prefix of what is stored afterwards.  When
    the file is missing, or exists and cannot be read, a run that answers
    true leaves it holding the one new entry: the read error is swallowed
    and the text of an unreadable file is lost.  When the relative path
    holds no line feed and no white space at its ends, and the file as
    written decodes to the text that was written, a second run after a run
    that answered true answers true and changes nothing. *)
Theorem addToGitignore_appends (host : Workspace) (u : jsstring)
    (docs : gmap jsstring jsstring) :
  let res := Gitignore.addToGitignore host u docs in
  (getWorkspaceFolder host u = None -> res = (false, docs))
  /\ (res.1 = false -> res.2 = docs)
  /\ forall folder, getWorkspaceFolder host u = Some folder ->
       let gitignorePath := pathJoin host folder ".gitignore" in
       let rel := relativeTo host u in
       (forall p, p <> gitignorePath -> res.2 !! p = docs !! p)
       /\ (forall stored,
             docs !! gitignorePath = Some stored ->
             readFails host gitignorePath = false ->
             (forall added,
                utf8Encode host (utf8Decode host stored ++ added)
                = stored ++ utf8Encode host added) ->
             exists added, res.2 !! gitignorePath = Some (stored ++ added))
       /\ (docs !! gitignorePath = None \/ readFails host gitignorePath = true ->
           rel <> [] -> res.1 = true ->
           res.2 !! gitignorePath = Some (utf8Encode host (rel ++ [LF])))
       /\ (LF ∉ rel -> JS.trim rel = rel -> res.1 = true ->
           (forall text,
              res.2 !! gitignorePath = Some (utf8Encode host text) ->
              utf8Decode host (utf8Encode host text) = text) ->
           Gitignore.addToGitignore host u res.2 = (true, res.2)).
Proof.
  cbv zeta. unfold Gitignore.addToGitignore.
  destruct (getWorkspaceFolder host u) as [folder|] eqn:Hf; [|done].
  set (path := pathJoin host folder ".gitignore").
  set (rel := relativeTo host u).
  set (content := match docs !! path with
                  | Some existingContent =>
                      if readFails host path then []
                      else utf8Decode host existingContent
                  | None => []
                  end).
  set (new := if JS.endsWith [LF] content || bool_decide (content = [])
              then content ++ rel ++ [LF] else content ++ [LF] ++ rel ++ [LF]).
  split; [done|].
  destruct (JS.includes rel (map JS.trim (JS.splitLines content))) eqn:Hinc.
  { cbn [fst snd]. split; [done|]. intros ? [= <-]. fold path rel.
    split; [done|]. split.
    { intros stored Hs _ _. exists []. by rewrite app_nil_r. }
    split.
    { intros Hmiss Hne _. exfalso.
      assert (content = []) as Hc.
      { unfold content. destruct Hmiss as [-> | ->]; [done|].
        by destruct (docs !! path). }
      rewrite Hc in Hinc. apply includes_true in Hinc.
      apply list_elem_of_singleton in Hinc. done. }
    intros _ _ _ _. fold content. by rewrite Hinc. }
  destruct (writeFails host path) eqn:Hw.
  { cbn [fst snd]. split; [done|]. intros ? [= <-]. fold path rel.
    split; [done|]. split.
    { intros stored Hs _ _. exists []. by rewrite app_nil_r. }
    split; done. }
  cbn [fst snd]. split; [done|]. intros ? [= <-]. fold path rel.
  split; [intros p Hp; by rewrite lookup_insert_ne|].
  rewrite lookup_insert_eq. split.
  { intros stored Hs Hr Henc. unfold new, content. rewrite Hs, Hr.
    destruct (JS.endsWith [LF] (utf8Decode host stored) || _);
      rewrite Henc; by eexists. }
  split.
  { intros Hmiss Hne _.
    assert (content = []) as Hc.
    { unfold content. destruct Hmiss as [-> | ->]; [done|].
      by destruct (docs !! path). }
    unfold new. rewrite Hc. done. }
  intros Hlf Htrim _ Hdec.
  destruct (readFails host path) eqn:Hr.
  - assert (content = []) as Hc.
    { unfold content. by destruct (docs !! path). }
    rewrite Hc in Hinc. unfold new. rewrite Hc.
    cbn [JS.endsWith JS.startsWith rev app orb bool_decide decide_rel].
    replace (JS.endsWith [LF] [] || bool_decide (@nil ascii = [])) with true
      by done.
    rewrite Hinc. cbn [app]. by rewrite insert_insert_eq.
  - rewrite (Hdec new eq_refl).
    destruct (newContent_lines content rel Hlf) as [before Hlines].
    cbv zeta in Hlines. fold new in Hlines.
    assert (rel ∈ map JS.trim (JS.splitLines new)) as Hin.
    { rewrite Hlines. apply list_elem_of_fmap. exists rel. split; [done|].
      rewrite elem_of_app, elem_of_cons. tauto. }
    apply includes_true in Hin. by rewrite Hin.
Qed.

Lemma addToGitignore_appends_witness :
  let docs : gmap jsstring jsstring := {[ "/repo/.gitignore" := "node_modules" ]} in
  (exists added,
     (Gitignore.addToGitignore sampleWorkspace "/repo/.env" docs).2
       !! "/repo/.gitignore"
     = Some ("node_modules" ++ added))
  /\ Gitignore.addToGitignore sampleWorkspace "/repo/.env"
       (Gitignore.addToGitignore sampleWorkspace "/repo/.env" docs).2
     = (true, (Gitignore.addToGitignore sampleWorkspace "/repo/.env" docs).2).
Proof.
  intros docs.
  destruct (proj2 (proj2 (addToGitignore_appends sampleWorkspace "/repo/.env" docs))
              "/repo" eq_refl) as (_ & Happ & _ & Hidem).
  split.
  - by apply (Happ "node_modules").
  - apply Hidem; [|done..].
    apply (bool_decide_unpack _). by vm_compute.
Defined.

(** ** Writing into the span and reading it back *)

(** X25: the span is a place to write to.  For a parsed line without
    carriage returns, replacing the columns from valueStart up to valueEnd by
    a text that is not empty, has no white space at its ends and holds no
    line terminator gives a line that parses again, to an entry with the
    same key and the same valueStart whose value is the text written. *)
Theorem span_write_read (text : jsstring) (n : Z)
    (groups : list (list jsstring)) (e : DotFileEntry) (v' : jsstring) :
  parseLine text n groups = Some e ->
  CR ∉ text -> JS.trim v' = v' -> v' <> [] -> forallb Regex.isDot v' = true ->
  let text' :=
    take (Z.to_nat (valueStart e)) text ++ v'
      ++ drop (Z.to_nat (valueEnd e)) text in
  parseLine text' n groups
  = Some {| key := key e; value := v'; line := n;
            valueStart := valueStart e;
            valueEnd := (valueStart e + Z.of_nat (length v'))%Z;
            isToggleable := bool_decide (findToggleValues v' groups <> None);
            toggleValues := findToggleValues v' groups;
            rawLine := text' |}.
Proof.
  intros (pre & ws0 & ws1 & ws2 & Hs & Hpre & Hk & Hws0 & Hws1 & Hws2 & _ & Hdot
          & Hstart & Hend & _)%parseLine_split Hcr Htrim Hne Hdot' text'.
  rewrite removeCR_fixed in Hs by done.
  set (a := pre ++ key e ++ ws0 ++ "=" ++ ws1) in *.
  assert (text = a ++ value e ++ ws2) as Htext.
  { rewrite Hs. unfold a. by rewrite <- !app_assoc. }
  assert (Z.to_nat (valueStart e) = length a) as Hvs.
  { rewrite Hstart. unfold a. rewrite !length_app. simpl. lia. }
  assert (Z.to_nat (valueEnd e) = length (a ++ value e)) as Hve.
  { rewrite Hend, length_app. lia. }
  assert (text' = pre ++ key e ++ ws0 ++ "=" ++ ws1 ++ v' ++ ws2) as Htext'.
  { assert (take (length a) text = a) as Ht.
    { rewrite Htext. apply take_app_length. }
    assert (drop (length (a ++ value e)) text = ws2) as Hd.
    { rewrite Htext, app_assoc. apply drop_app_length. }
    unfold text'. rewrite Hvs, Hve, Ht, Hd. unfold a.
    by rewrite <- !app_assoc. }
  rewrite forallb_app in Hdot. apply andb_true_iff in Hdot as [_ Hdot2].
  assert (forallb Regex.isDot (v' ++ ws2) = true) as Hdots.
  { by rewrite forallb_app, Hdot', Hdot2. }
  assert (CR ∉ pre ++ key e ++ ws0 ++ "=" ++ ws1 ++ v' ++ ws2) as Hcr'.
  { rewrite Htext in Hcr. unfold a in Hcr.
    rewrite !not_elem_of_app in Hcr |- *.
    destruct Hcr as ((? & ? & ? & ? & ?) & ? & ?).
    repeat split; try done. by apply isDot_no_CR. }
  destruct (entryOf_shape pre (key e) ws0 ws1 v' ws2 n groups Hpre Hk Hws0 Hws1
              Hws2 Htrim (fun E => False_ind _ (Hne E)) Hcr') as [Hraw Hentry].
  rewrite parseLine_scan, Htext', removeCR_fixed by done.
  rewrite (scan_complete pre (key e) ws0 ws1 (v' ++ ws2)) by done.
  cbn [fmap option_fmap option_map fst snd]. rewrite Hentry.
  by rewrite Hstart.
Qed.

Lemma span_write_read_witness :
  exists e,
    parseLine "DEBUG = true" 0 defaultToggleValues = Some e
    /\ (value <$> parseLine
                    (take (Z.to_nat (valueStart e)) "DEBUG = true" ++ "false"
                       ++ drop (Z.to_nat (valueEnd e)) "DEBUG = true")
                    0 defaultToggleValues)
       = Some "false".
Proof.
  destruct (parseLine "DEBUG = true" 0 defaultToggleValues) as [e|] eqn:E;
    [|vm_compute in E; discriminate E].
  exists e. split; [done|].
  rewrite (span_write_read "DEBUG = true" 0 defaultToggleValues e "false" E);
    [done| |done|done|done].
  apply (bool_decide_unpack _). by vm_compute.
Defined.

(** ** From a code lens to the toggle *)

Lemma parseLines_find lines groups e :
  e ∈ parseLines lines 0 groups ->
  List.find (fun e' => (line e' =? line e)%Z) (parseLines lines 0 groups) = Some e.
Proof.
  intros He. destruct (parseLines_spec lines 0 groups) as [_ Hf].
  rewrite Forall_forall in Hf. destruct (Hf e He) as (Hb & Hl & Hp).
  rewrite find_parseLines. destruct (Z.ltb_spec (line e) 0); [lia|].
  by rewrite Hl.
Qed.

Lemma createCodeLens_parsed lines groups e u :
  e ∈ filter (fun e => isToggleable e = true) (parseLines lines 0 groups) ->
  exists lens, CodeLensProvider.createCodeLens e u = Some lens
               /\ lensLine lens = line e.
Proof.
  intros [Hflag He]%list_elem_of_filter.
  destruct (parseLines_spec lines 0 groups) as [_ Hf].
  rewrite Forall_forall in Hf. destruct (Hf e He) as (_ & _ & Hp).
  apply parseLine_Some in Hp as (k & raw & _ & _ & _ & _ & _ & Hiff & _).
  rewrite Hflag in Hiff. symmetry in Hiff. apply bool_decide_eq_true in Hiff.
  unfold CodeLensProvider.createCodeLens. rewrite Hflag.
  destruct (toggleValues e) as [G|]; [|done]. by eexists.
Qed.

(** X26: code lenses are given for watched files only, one on the line of
    each toggleable entry of the document text and no other: the lines of
    the lenses are the lines of the toggleable entries, in their order.
    Every lens carries the document and its line as the arguments of its
    command.  When the text is the saved one and no warning is pending, the
    toggle run with these arguments is never rejected for a missing or a
    non-toggleable entry: it hands the span and the next value of that entry
    to the editor, and succeeds or fails with the editor. *)
Theorem codeLens_toggle (vscode : VSCode) (git : GitignoreService) (w : World)
    (u text : jsstring) :
  let lenses := CodeLensProvider.provideCodeLenses vscode w u text in
  let parsed := parseDocument vscode (configuration w) u text in
  (isWatchedFile w u = false -> lenses = [])
  /\ (isWatchedFile w u = true ->
      lensLine <$> lenses = line <$> toggleableEntries parsed)
  /\ forall lens,
       lens ∈ lenses ->
       isWatchedFile w u = true
       /\ lensArguments lens = (u, lensLine lens)
       /\ exists e G,
            e ∈ toggleableEntries parsed
            /\ lensLine lens = line e /\ toggleValues e = Some G
            /\ (documents w !! u = Some text -> afterWarning git u w = Some w ->
                let v := getNextValue (value e) G in
                let w2 := setShown (shown w ++ [u]) w in
                toggle vscode git u (lensLine lens) w
                = match editorEdit vscode text (line e)
                          (valueStart e) (valueEnd e) v with
                  | Some edited =>
                      (Normal (toggled v),
                       setDocuments (<[u := edited]> (documents w2)) w2)
                  | None => (Normal (failure "Failed to apply edit"), w2)
                  end).
Proof.
  cbv zeta. unfold CodeLensProvider.provideCodeLenses.
  destruct (isWatchedFile w u); [|by split; [|split; [|intros ? ?%elem_of_nil]]].
  split; [done|]. split.
  { intros _. unfold parseDocument. cbn [toggleableEntries].
    set (l := filter (fun e => isToggleable e = true)
                (parseLines (JS.splitLines text) 0
                   (cfgToggleValues (configuration w)))).
    assert (Forall (fun e => exists lens,
                      CodeLensProvider.createCodeLens e u = Some lens
                      /\ lensLine lens = line e) l) as Hall.
    { apply Forall_forall. intros e He. by eapply createCodeLens_parsed. }
    induction Hall as [|e l' (lens & Hlens & Hline) _ IH]; [done|].
    cbn [omap list_omap fmap list_fmap]. rewrite Hlens.
    cbn [fmap list_fmap]. by rewrite Hline, IH. }
  intros lens (e & He & Hlens)%list_elem_of_omap. split; [done|].
  unfold CodeLensProvider.createCodeLens in Hlens.
  destruct (isToggleable e) eqn:Hflag; [|done].
  destruct (toggleValues e) as [G|] eqn:HG; [|done].
  injection Hlens as <-. simpl. split; [done|].
  exists e, G. split; [done|]. split; [done|]. split; [done|].
  intros Hdoc Haw. rewrite toggle_run, Haw, Hdoc.
  unfold parseDocument in He. simpl in He.
  apply list_elem_of_filter in He as [_ He].
  by rewrite (parseLines_find _ _ _ He), Hflag, HG.
Qed.

Lemma codeLens_toggle_witness :
  isWatchedFile sampleWorld ".env" = true
  /\ exists e,
       e ∈ toggleableEntries
             (parseDocument lineHost (configuration sampleWorld) ".env" sampleContent)
       /\ line e = 0%Z.
Proof.
  destruct (codeLens_toggle lineHost allIgnored sampleWorld ".env" sampleContent)
    as (_ & _ & Hlens).
  destruct (Hlens {| lensLine := 0; lensNextValue := Some "false";
                     lensArguments := (".env", 0%Z) |})
    as (Hw & _ & e & G & He & Hl & _).
  { replace (CodeLensProvider.provideCodeLenses lineHost sampleWorld ".env"
               sampleContent)
      with [{| lensLine := 0; lensNextValue := Some "false";
               lensArguments := (".env", 0%Z) |}] by (by vm_compute).
    apply list_elem_of_here. }
  split; [done|]. by exists e.
Defined.

(** ** Carriage returns *)

Lemma removeCR_idem s : JS.removeCR (JS.removeCR s) = JS.removeCR s.
Proof.
  apply removeCR_fixed. rewrite removeCR_filter, list_elem_of_filter. tauto.
Qed.

(** X27: carriage returns do not change what is parsed.  A line and the
    same line without its carriage returns give the same answer from
    parseLine: both are rejected, or both give an entry with the same key,
    value, line number, offsets, flag and group; the two entries differ in
    rawLine only, which is the line as it was given.  In particular the
    test for blank lines and comments, which looks at the line with its
    carriage returns, never decides: parseLine is the expression applied to
    the line without them. *)
Theorem parseLine_carriage_returns (text : jsstring) (n : Z)
    (groups : list (list jsstring)) :
  parseLine text n groups
  = (fun m => entryOf text n groups m.1 m.2) <$> Regex.scan (JS.removeCR text)
  /\ (fun e => (key e, value e, line e, valueStart e, valueEnd e,
                isToggleable e, toggleValues e)) <$> parseLine text n groups
     = (fun e => (key e, value e, line e, valueStart e, valueEnd e,
                  isToggleable e, toggleValues e))
         <$> parseLine (JS.removeCR text) n groups
  /\ (rawLine <$> parseLine text n groups)
     = (fun _ => text) <$> parseLine (JS.removeCR text) n groups.
Proof.
  rewrite !parseLine_scan, removeCR_idem. split; [done|].
  destruct (Regex.scan (JS.removeCR text)) as [[k raw]|]; [|done].
  cbn [fmap option_fmap option_map fst snd]. unfold entryOf.
  by rewrite removeCR_idem.
Qed.

(** ** What a successful toggle does to the file *)

Lemma joinLines_cons l l2 rest :
  joinLines (l :: l2 :: rest) = l ++ LF :: joinLines (l2 :: rest).
Proof. done. Qed.

Lemma splitLines_joinLines l rest :
  Forall (fun x => LF ∉ x) (l :: rest) ->
  JS.splitLines (joinLines (l :: rest)) = l :: rest.
Proof.
  revert l. induction rest as [|l2 rest IH]; intros l Hl.
  - apply Forall_cons in Hl as [Hl _]. unfold joinLines. simpl.
    rewrite app_nil_r. by apply splitLines_one.
  - apply Forall_cons in Hl as [Hl Hrest].
    rewrite joinLines_cons, splitLines_app_LF, IH by done.
    by rewrite splitLines_one.
Qed.

Lemma replaceRange_lines content n a b v edited :
  LF ∉ v -> replaceRange content n a b v = Some edited ->
  exists l,
    (0 <= n)%Z /\ JS.splitLines content !! Z.to_nat n = Some l
    /\ JS.splitLines edited
       = <[Z.to_nat n := take (Z.to_nat a) l ++ v ++ drop (Z.to_nat b) l]>
           (JS.splitLines content).
Proof.
  intros Hv. unfold replaceRange, JS.arrayGet.
  destruct (Z.ltb_spec n 0); [done|].
  destruct (JS.splitLines content !! Z.to_nat n) as [l|] eqn:Hl; [|done].
  intros [= <-]. exists l. split; [done|]. split; [done|].
  pose proof (splitLines_no_LF content) as Hlf.
  set (edit := take (Z.to_nat a) l ++ v ++ drop (Z.to_nat b) l).
  assert (Forall (fun x => LF ∉ x) (<[Z.to_nat n := edit]> (JS.splitLines content)))
    as Hlf'.
  { apply Forall_insert; [done|]. unfold edit.
    rewrite Forall_forall in Hlf.
    pose proof (Hlf l (list_elem_of_lookup_2 _ _ _ Hl)) as Hll.
    rewrite !not_elem_of_app. split; [|split; [done|]].
    - intros Hin. apply Hll. revert Hin. apply subseteq_take.
    - intros Hin. apply Hll. revert Hin. apply subseteq_drop. }
  destruct (<[Z.to_nat n := edit]> (JS.splitLines content)) as [|l0 ls] eqn:E.
  { apply (f_equal length) in E. rewrite length_insert in E.
    apply lookup_lt_Some in Hl. simpl in E. lia. }
  by apply splitLines_joinLines.
Qed.

Lemma find_other_line lines lines' groups (n m : Z) x :
  lines' = <[Z.to_nat n := x]> lines -> (0 <= n)%Z -> m <> n ->
  List.find (fun e => (line e =? m)%Z) (parseLines lines' 0 groups)
  = List.find (fun e => (line e =? m)%Z) (parseLines lines 0 groups).
Proof.
  intros -> Hn Hm. rewrite !find_parseLines.
  destruct (Z.ltb_spec m 0); [done|]. rewrite !Z.sub_0_r.
  rewrite list_lookup_insert_ne; [done|lia].
Qed.

(** X28: a successful toggle changes one value and nothing else in the
    file.  Take a host whose edits replace a range of columns in a line of a
    document with line feed line ends.  When toggleSilent, or toggle,
    succeeds with a new value that holds no line feed, the file has the same
    lines as before except the toggled one; in that line the columns of the
    span have made way for the new value; and the lookup of every other
    line gives the entry it gave before. *)
Theorem toggle_changes_one_line (vscode : VSCode) (git : GitignoreService)
    (u : jsstring) (n : Z) (w w1 w' : World) (content v : jsstring) :
  (forall d l a b t, workspaceApplyEdit vscode d l a b t = replaceRange d l a b t) ->
  (forall d l a b t, editorEdit vscode d l a b t = replaceRange d l a b t) ->
  afterWarning git u w = Some w1 -> documents w1 !! u = Some content ->
  LF ∉ v ->
  toggleSilent vscode git u n w = (Normal (toggled v), w')
  \/ toggle vscode git u n w = (Normal (toggled v), w') ->
  exists e G rawText edited,
    List.find (fun e' => (line e' =? n)%Z)
      (parseLines (JS.splitLines content) 0 (cfgToggleValues (configuration w1)))
    = Some e
    /\ toggleValues e = Some G /\ v = getNextValue (value e) G
    /\ JS.splitLines content !! Z.to_nat n = Some rawText
    /\ documents w' = <[u := edited]> (documents w1)
    /\ JS.splitLines edited
       = <[Z.to_nat n := take (Z.to_nat (valueStart e)) rawText ++ v
                           ++ drop (Z.to_nat (valueEnd e)) rawText]>
           (JS.splitLines content)
    /\ forall m, m <> n ->
         List.find (fun e' => (line e' =? m)%Z)
           (parseLines (JS.splitLines edited) 0 (cfgToggleValues (configuration w1)))
         = List.find (fun e' => (line e' =? m)%Z)
             (parseLines (JS.splitLines content) 0
                (cfgToggleValues (configuration w1))).
Proof.
  intros Hsilent Heditor Haw Hdoc Hv Hrun.
  assert (exists e G edited,
            List.find (fun e' => (line e' =? n)%Z)
              (parseLines (JS.splitLines content) 0
                 (cfgToggleValues (configuration w1))) = Some e
            /\ toggleValues e = Some G /\ v = getNextValue (value e) G
            /\ replaceRange content n (valueStart e) (valueEnd e) v = Some edited
            /\ documents w' = <[u := edited]> (documents w1))
    as (e & G & edited & Hfind & HG & Hnext & Hedit & Hdocs).
  { destruct Hrun as [Hrun|Hrun].
    - rewrite toggleSilent_run, Haw, Hdoc in Hrun.
      destruct (List.find _ _) as [e|] eqn:Hfind; [|done].
      destruct (isToggleable e); [|done].
      destruct (toggleValues e) as [G|] eqn:HG; [|done]. simpl in Hrun.
      rewrite Hsilent in Hrun.
      destruct (replaceRange _ _ _ _ _) as [edited|] eqn:E; [|done].
      injection Hrun as Hvv <-. exists e, G, edited. by rewrite <- Hvv.
    - rewrite toggle_run, Haw, Hdoc in Hrun.
      destruct (List.find _ _) as [e|] eqn:Hfind; [|done].
      destruct (isToggleable e); [|done].
      destruct (toggleValues e) as [G|] eqn:HG; [|done]. simpl in Hrun.
      rewrite Heditor in Hrun.
      destruct (replaceRange _ _ _ _ _) as [edited|] eqn:E; [|done].
      injection Hrun as Hvv <-. exists e, G, edited. by rewrite <- Hvv. }
  destruct (replaceRange_lines _ _ _ _ _ _ Hv Hedit) as (l & Hn & Hl & Hlines).
  exists e, G, l, edited. do 5 (split; [done|]). split; [done|].
  intros m Hm. by eapply find_other_line.
Qed.

Lemma toggle_changes_one_line_witness :
  exists edited,
    documents (toggleSilent lineHost allIgnored ".env" 0 sampleWorld).2
    = <[".env" := edited]> (documents sampleWorld)
    /\ JS.splitLines edited = ["DEBUG=false"; "# comment"; "PORT=8080"; []].
Proof.
  destruct (toggle_changes_one_line lineHost allIgnored ".env" 0 sampleWorld
              sampleWorld (toggleSilent lineHost allIgnored ".env" 0 sampleWorld).2
              sampleContent "false")
    as (e & G & l & edited & Hfind & _ & _ & Hl & Hdocs & Hlines & _);
    [done|done|done|done| |by left; vm_compute|].
  { apply (bool_decide_unpack _). by vm_compute. }
  exists edited. split; [done|].
  vm_compute in Hfind. injection Hfind as <-.
  vm_compute in Hl. injection Hl as <-. rewrite Hlines. by vm_compute.
Defined.
